(** * AICG: SDF ray marching, CSG blending and GPU object picking

    A shallow embedding of the WGSL shaders ([shaders/raymarch_basic.wgsl],
    the buffer-driven variant of the same shader, [shaders/id_pick.wgsl]) and
    of the [ObjectPicker] class of [object_picker.js], with the properties of
    the design document stated over them.

    The shaders compute in [f32] and the picker in JavaScript doubles.  The
    embedding is written once over an interface of scalar operations
    ([Scalar]) and instantiated three times: with the real numbers (the
    idealised semantics, used for the geometric and algebraic theorems),
    and with IEEE-754 binary32 and binary64 (round-to-nearest-even, from
    [SpecFloat]), which run the code on concrete inputs.  The scene array
    of the picker holds binary32 numbers; [Float32] is the rounding of a
    store into it. *)

From Stdlib Require Import ZArith QArith Qround Reals Lra Lia List Bool Permutation.
From Stdlib Require Import Floats.SpecFloat.
From stdpp Require Import base list.

Set Default Proof Using "Type*".

(** ** Scalars *)

Class Scalar (T : Type) : Type := {
  lit : Q -> T;                 (* a decimal literal, or an integer converted *)
  fadd : T -> T -> T;
  fsub : T -> T -> T;
  fmul : T -> T -> T;
  fdiv : T -> T -> T;
  fneg : T -> T;
  fabs : T -> T;
  fsqrt : T -> T;
  flt : T -> T -> bool;         (* a < b *)
  fle : T -> T -> bool;         (* a <= b *)
  feq : T -> T -> bool;         (* a == b *)
  ffloor : T -> T;
  fround : T -> T;              (* nearest integer, ties to even *)
  ftrunc : T -> Z;              (* i32(x), u32(x): toward zero *)
}.

(** The transcendental builtins of the fragment shader. *)
Class Transcendental (T : Type) : Type := {
  fexp : T -> T;
  fpow : T -> T -> T;
  fsin : T -> T;
  fcos : T -> T;
}.

(** A [Float32Array] holds binary32 numbers: a store converts the number
    stored to the nearest binary32 value, ties to even, and a load gives
    that value back as a number ([Math.fround]). *)
Class Float32 (T : Type) : Type := {
  to_f32 : T -> T;
}.

Declare Scope scalar_scope.
Delimit Scope scalar_scope with sc.
Infix ".+" := fadd (at level 50, left associativity) : scalar_scope.
Infix ".-" := fsub (at level 50, left associativity) : scalar_scope.
Infix ".*" := fmul (at level 40, left associativity) : scalar_scope.
Infix "./" := fdiv (at level 40, left associativity) : scalar_scope.
Infix ".<" := flt (at level 70, no associativity) : scalar_scope.
Infix ".<=" := fle (at level 70, no associativity) : scalar_scope.
Infix ".==" := feq (at level 70, no associativity) : scalar_scope.
Notation ".~ x" := (fneg x) (at level 35, right associativity) : scalar_scope.
Local Open Scope scalar_scope.

Section Builtins.
Context {T : Type} `{Scalar T}.

(** [f32(i)] for an unsigned loop index. *)
Definition of_u32 (i : nat) : T := lit (inject_Z (Z.of_nat i)).

(** [a > b] is [b < a], and [a >= b] is [b <= a]. *)
Definition fgt (a b : T) : bool := b .< a.
Definition fge (a b : T) : bool := b .<= a.

(** [i32(x)] and [u32(x)]: truncation, clamped to the target range. *)
Definition to_i32 (x : T) : Z := Z.max (- 2 ^ 31) (Z.min (2 ^ 31 - 1) (ftrunc x)).
Definition to_u32 (x : T) : Z := Z.max 0 (Z.min (2 ^ 32 - 1) (ftrunc x)).
(** [f32(n)] for an integer value. *)
Definition of_int (n : Z) : T := lit (inject_Z n).

(** WGSL [min], [max], [clamp], [mix], [select]. *)
Definition fmin (a b : T) : T := if b .< a then b else a.
Definition fmax (a b : T) : T := if a .< b then b else a.
Definition clamp (e lo hi : T) : T := fmin (fmax e lo) hi.
Definition mix (a b t : T) : T := a .* (lit 1 .- t) .+ b .* t.
Definition select {A : Type} (f t : A) (cond : bool) : A := if cond then t else f.

Record vec2 : Type := mk2 { x2 : T; y2 : T }.
Record vec3 : Type := mk3 { x3 : T; y3 : T; z3 : T }.
Record vec4 : Type := mk4 { x4 : T; y4 : T; z4 : T; w4 : T }.

Definition splat3 (a : T) : vec3 := mk3 a a a.
Definition v3_add (a b : vec3) : vec3 := mk3 (x3 a .+ x3 b) (y3 a .+ y3 b) (z3 a .+ z3 b).
Definition v3_sub (a b : vec3) : vec3 := mk3 (x3 a .- x3 b) (y3 a .- y3 b) (z3 a .- z3 b).
Definition v3_scale (a : vec3) (s : T) : vec3 := mk3 (x3 a .* s) (y3 a .* s) (z3 a .* s).
Definition v3_div (a : vec3) (s : T) : vec3 := mk3 (x3 a ./ s) (y3 a ./ s) (z3 a ./ s).
Definition v3_abs (a : vec3) : vec3 := mk3 (fabs (x3 a)) (fabs (y3 a)) (fabs (z3 a)).
Definition v3_max (a b : vec3) : vec3 := mk3 (fmax (x3 a) (x3 b)) (fmax (y3 a) (y3 b)) (fmax (z3 a) (z3 b)).
Definition v3_mix (a b : vec3) (t : T) : vec3 := mk3 (mix (x3 a) (x3 b) t) (mix (y3 a) (y3 b) t) (mix (z3 a) (z3 b) t).
Definition dot (a b : vec3) : T := x3 a .* x3 b .+ y3 a .* y3 b .+ z3 a .* z3 b.
Definition cross (a b : vec3) : vec3 :=
  mk3 (y3 a .* z3 b .- z3 a .* y3 b) (z3 a .* x3 b .- x3 a .* z3 b) (x3 a .* y3 b .- y3 a .* x3 b).
Definition length2 (a : vec2) : T := fsqrt (x2 a .* x2 a .+ y2 a .* y2 a).
Definition length3 (a : vec3) : T := fsqrt (dot a a).
Definition normalize (a : vec3) : vec3 := v3_div a (length3 a).

(** A [for (var i = start; cond(i); i++) body] loop whose condition bounds
    [i] by a constant: [fuel] is that constant, so the loop always leaves
    through its condition. *)
Fixpoint for_loop {A : Type} (fuel i : nat) (cond : nat -> bool)
    (body : nat -> A -> A) (s : A) : A :=
  match fuel with
  | O => s
  | S fuel' => if cond i then for_loop fuel' (S i) cond body (body i s) else s
  end.
End Builtins.

Arguments vec2 T : clear implicits.
Arguments vec3 T : clear implicits.
Arguments vec4 T : clear implicits.

(** ** The scene uniform *)

Section SceneData.
Context {T : Type} `{Scalar T}.

Record Sphere : Type := mkSphere { s_center : vec3 T; s_radius : T; s_color : vec3 T }.
Record Box : Type := mkBox { b_center : vec3 T; b_size : vec3 T; b_color : vec3 T }.
Record Torus : Type := mkTorus { t_center : vec3 T; t_radii : vec2 T; t_color : vec3 T }.

(** [struct Scene]: three counters and three fixed-capacity arrays.  The
    capacity is the array size of the shader variant that reads the scene
    (3/2/2 in [raymarch_basic.wgsl], 10/10/10 in the buffer-driven
    variant and in the declarations [object_picker.js] injects). *)
Record Scene : Type := mkScene {
  num_spheres : nat;
  num_boxes : nat;
  num_tori : nat;
  spheres : list Sphere;
  boxes : list Box;
  tori : list Torus;
}.

Definition zero3 : vec3 T := splat3 (lit 0).
Definition sphere0 : Sphere := mkSphere zero3 (lit 0) zero3.
Definition box0 : Box := mkBox zero3 zero3 zero3.
Definition torus0 : Torus := mkTorus zero3 (mk2 (lit 0) (lit 0)) zero3.

(** Array indexing; every index the shaders use is below the capacity. *)
Definition sphere_at (sc : Scene) (i : nat) : Sphere := nth i (spheres sc) sphere0.
Definition box_at (sc : Scene) (i : nat) : Box := nth i (boxes sc) box0.
Definition torus_at (sc : Scene) (i : nat) : Torus := nth i (tori sc) torus0.

End SceneData.

Arguments Sphere T : clear implicits.
Arguments Box T : clear implicits.
Arguments Torus T : clear implicits.
Arguments Scene T : clear implicits.

(** ** Signed distance functions and operations (all shader variants) *)

Section SDF.
Context {T : Type} `{Scalar T}.

Definition sd_sphere (p : vec3 T) (r : T) : T := length3 p .- r.

Definition sd_box (p b : vec3 T) : T :=
  let q := v3_sub (v3_abs p) b in
  length3 (v3_max q (splat3 (lit 0)))
    .+ fmin (fmax (x3 q) (fmax (y3 q) (z3 q))) (lit 0).

Definition sd_torus (p : vec3 T) (t : vec2 T) : T :=
  let q := mk2 (length2 (mk2 (x3 p) (z3 p)) .- x2 t) (y3 p) in
  length2 q .- y2 t.

Definition sd_plane (p n : vec3 T) (h : T) : T := dot p n .+ h.

Definition op_union (d1 d2 : T) : T := fmin d1 d2.
Definition op_subtract (d1 d2 : T) : T := fmax (.~ d1) d2.
Definition op_intersect (d1 d2 : T) : T := fmax d1 d2.
Definition op_smooth_union (d1 d2 k : T) : T :=
  let h := clamp (lit 0.5 .+ lit 0.5 .* (d2 .- d1) ./ k) (lit 0) (lit 1) in
  mix d2 d1 h .- k .* h .* (lit 1 .- h).

(** One [if dist < res.x { res = vec2(dist, tag) }] update. *)
Definition closer (dist tag : T) (res : vec2 T) : vec2 T :=
  if dist .< x2 res then mk2 dist tag else res.

(** The three primitive loops of [get_dist]; [cap] is the constant of the
    loop condition and [tag i] the identifier written for slot [i]. *)
Definition sphere_pass (cap : nat) (tag : nat -> T) (sc : Scene T) (p : vec3 T)
    (res : vec2 T) : vec2 T :=
  for_loop cap 0 (fun i => (i <? num_spheres sc)%nat && (i <? cap)%nat)
    (fun i res =>
       let sphere := sphere_at sc i in
       let sphere_dist := sd_sphere (v3_sub p (s_center sphere)) (s_radius sphere) in
       closer sphere_dist (tag i) res) res.

Definition box_pass (cap : nat) (tag : nat -> T) (sc : Scene T) (p : vec3 T)
    (res : vec2 T) : vec2 T :=
  for_loop cap 0 (fun i => (i <? num_boxes sc)%nat && (i <? cap)%nat)
    (fun i res =>
       let box := box_at sc i in
       let box_dist := sd_box (v3_sub p (b_center box)) (b_size box) in
       closer box_dist (tag i) res) res.

Definition torus_pass (cap : nat) (tag : nat -> T) (sc : Scene T) (p : vec3 T)
    (res : vec2 T) : vec2 T :=
  for_loop cap 0 (fun i => (i <? num_tori sc)%nat && (i <? cap)%nat)
    (fun i res =>
       let torus := torus_at sc i in
       let torus_dist := sd_torus (v3_sub p (t_center torus)) (t_radii torus) in
       closer torus_dist (tag i) res) res.

(** The body shared by every [ray_march]: at most [steps] samples. *)
Fixpoint march (get_dist : vec3 T -> vec2 T) (surf_dist max_dist : T)
    (steps : nat) (ro rd : vec3 T) (d mat_id : T) : vec2 T :=
  match steps with
  | O => mk2 d mat_id
  | S steps' =>
      let p := v3_add ro (v3_scale rd d) in
      let dist_mat := get_dist p in
      let d := d .+ x2 dist_mat in
      let mat_id := y2 dist_mat in
      if (x2 dist_mat .< surf_dist) || fgt d max_dist
      then mk2 d mat_id
      else march get_dist surf_dist max_dist steps' ro rd d mat_id
  end.
End SDF.

(** ** Uniforms and the fragment shader shared by the two shading variants *)

Section Shading.
Context {T : Type} `{Scalar T} `{Transcendental T}.

Record Uniforms : Type := mkUniforms {
  resolution : vec2 T;
  time : T;
  cameraYaw : T;
  cameraPitch : T;
  cameraDistance : T;
  cameraTargetX : T;
  cameraTargetY : T;
  cameraTargetZ : T;
}.

Definition MAX_DIST : T := lit 100.
Definition SURF_DIST : T := lit 0.001.
Definition MAX_STEPS : nat := 256.

Definition MAT_PLANE : T := lit 0.
Definition MAT_SPHERE : T := lit 1.
Definition MAT_BOX : T := lit 2.
Definition MAT_TORUS : T := lit 3.

Definition MAT_SKY_COLOR : vec3 T := mk3 (lit 0.7) (lit 0.8) (lit 0.9).

Definition gamma_correct (color : vec3 T) : vec3 T :=
  let e := lit 1 ./ lit 2.2 in
  mk3 (fpow (x3 color) e) (fpow (y3 color) e) (fpow (z3 color) e).

(** [uv], [cam_pos] and [rd] as every [fs_main] computes them. *)
Definition frag_uv (u : Uniforms) (fragCoord : vec2 T) : vec2 T :=
  let m := fmin (x2 (resolution u)) (y2 (resolution u)) in
  mk2 ((x2 fragCoord .- x2 (resolution u) .* lit 0.5) ./ m)
      ((y2 fragCoord .- y2 (resolution u) .* lit 0.5) ./ m).

Definition camera_target (u : Uniforms) : vec3 T :=
  mk3 (cameraTargetX u) (cameraTargetY u) (cameraTargetZ u).

Definition camera_pos (u : Uniforms) : vec3 T :=
  let yaw := cameraYaw u in
  let pitch := cameraPitch u in
  v3_add
    (v3_scale (mk3 (fsin yaw .* fcos pitch) (fsin pitch) (fcos yaw .* fcos pitch))
              (cameraDistance u))
    (camera_target u).

Definition ray_dir (u : Uniforms) (uv : vec2 T) : vec3 T :=
  let cam_forward := normalize (v3_sub (camera_target u) (camera_pos u)) in
  let cam_right := normalize (cross cam_forward (mk3 (lit 0) (lit 1) (lit 0))) in
  let cam_up := cross cam_right cam_forward in
  let focal_length := lit 1.5 in
  normalize (v3_add (v3_sub (v3_scale cam_right (x2 uv)) (v3_scale cam_up (y2 uv)))
                    (v3_scale cam_forward focal_length)).

Definition get_normal_of (get_dist : vec3 T -> vec2 T) (p : vec3 T) : vec3 T :=
  let e := mk2 (lit 0.001) (lit 0) in
  let xyy := mk3 (x2 e) (y2 e) (y2 e) in
  let yxy := mk3 (y2 e) (x2 e) (y2 e) in
  let yyx := mk3 (y2 e) (y2 e) (x2 e) in
  let n := mk3
    (x2 (get_dist (v3_add p xyy)) .- x2 (get_dist (v3_sub p xyy)))
    (x2 (get_dist (v3_add p yxy)) .- x2 (get_dist (v3_sub p yxy)))
    (x2 (get_dist (v3_add p yyx)) .- x2 (get_dist (v3_sub p yyx))) in
  normalize n.

(** The pieces of the lit branch of [fs_main], in program order. *)
Definition light_pos : vec3 T := mk3 (lit 2) (lit 5) (.~ lit 1).

Definition shadow_factor (shadow_t light_dist : T) : T :=
  select (lit 0.3) (lit 1) (fgt shadow_t light_dist).

Definition sky_gradient (uv : vec2 T) : vec3 T :=
  v3_mix MAT_SKY_COLOR (v3_scale MAT_SKY_COLOR (lit 0.9)) (y2 uv .* lit 0.5 .+ lit 0.5).

Definition lit_color (albedo : vec3 T) (diffuse shadow t : T) : vec3 T :=
  let ambient := lit 0.2 in
  let phong := v3_scale albedo (ambient .+ diffuse .* shadow .* lit 0.8) in
  let fog := fexp ((.~ t) .* lit 0.02) in
  v3_mix MAT_SKY_COLOR phong fog.

Definition with_alpha (c : vec3 T) : vec4 T := mk4 (x3 c) (y3 c) (z3 c) (lit 1).

(** [fs_main] of [raymarch_basic.wgsl] and of the buffer-driven variant:
    the two differ only in the [get_dist] and [get_material_color] they
    call. *)
Definition fs_main_of (get_dist : vec3 T -> vec2 T)
    (ray_march : vec3 T -> vec3 T -> vec2 T)
    (get_material_color : T -> vec3 T -> vec3 T)
    (u : Uniforms) (fragCoord : vec2 T) : vec4 T :=
  let uv := frag_uv u fragCoord in
  let cam_pos := camera_pos u in
  let rd := ray_dir u uv in
  let result := ray_march cam_pos rd in
  if x2 result .< MAX_DIST then
    let hit_pos := v3_add cam_pos (v3_scale rd (x2 result)) in
    let normal := get_normal_of get_dist hit_pos in
    let light_dir := normalize (v3_sub light_pos hit_pos) in
    let diffuse := fmax (dot normal light_dir) (lit 0) in
    let shadow_origin := v3_add hit_pos (v3_scale normal (lit 0.01)) in
    let shadow_result := ray_march shadow_origin light_dir in
    let shadow := shadow_factor (x2 shadow_result)
                                (length3 (v3_sub light_pos shadow_origin)) in
    let albedo := get_material_color (y2 result) hit_pos in
    with_alpha (gamma_correct (lit_color albedo diffuse shadow (x2 result)))
  else
    with_alpha (gamma_correct (sky_gradient uv)).

(** The checkerboard of the ground plane. *)
Definition plane_color (p : vec3 T) : vec3 T :=
  let checker := ffloor (x3 p) .+ ffloor (z3 p) in
  let col1 := splat3 (lit 0.9) in
  let col2 := splat3 (lit 0.2) in
  select col2 col1 (Z.rem (to_i32 checker) 2 =? 0)%Z.
End Shading.

Arguments Uniforms T : clear implicits.

(** ** [shaders/raymarch_basic.wgsl]: arrays of 3 spheres, 2 boxes, 2 tori *)

Module Basic.
Section Variant.
Context {T : Type} `{Scalar T} `{Transcendental T}.

Definition get_material_color (scene : Scene T) (mat_id : T) (p : vec3 T) : vec3 T :=
  let fallback := splat3 (lit 0.5) in
  if mat_id .== MAT_PLANE then plane_color p
  else if fge mat_id MAT_SPHERE && (mat_id .< MAT_SPHERE .+ lit 1) then
    let offset := mat_id .- MAT_SPHERE in
    let index := to_i32 (fround (offset .* lit 10)) in
    if (0 <=? index)%Z && (index <? 3)%Z
    then s_color (sphere_at scene (Z.to_nat index)) else fallback
  else if fge mat_id MAT_BOX && (mat_id .< MAT_BOX .+ lit 1) then
    let offset := mat_id .- MAT_BOX in
    let index := to_i32 (fround (offset .* lit 10)) in
    if (0 <=? index)%Z && (index <? 2)%Z
    then b_color (box_at scene (Z.to_nat index)) else fallback
  else if fge mat_id MAT_TORUS && (mat_id .< MAT_TORUS .+ lit 1) then
    let offset := mat_id .- MAT_TORUS in
    let index := to_i32 (fround (offset .* lit 10)) in
    if (0 <=? index)%Z && (index <? 2)%Z
    then t_color (torus_at scene (Z.to_nat index)) else fallback
  else fallback.

Definition get_dist (scene : Scene T) (p : vec3 T) : vec2 T :=
  let res := mk2 MAX_DIST (.~ lit 1) in
  let plane_dist := sd_plane p (mk3 (lit 0) (lit 1) (lit 0)) (lit 0.5) in
  let res := closer plane_dist MAT_PLANE res in
  let res := sphere_pass 3 (fun i => MAT_SPHERE .+ of_u32 i .* lit 0.1) scene p res in
  let res := box_pass 2 (fun i => MAT_BOX .+ of_u32 i .* lit 0.1) scene p res in
  let res := torus_pass 2 (fun i => MAT_TORUS .+ of_u32 i .* lit 0.1) scene p res in
  res.

Definition ray_march (scene : Scene T) (ro rd : vec3 T) : vec2 T :=
  march (get_dist scene) SURF_DIST MAX_DIST MAX_STEPS ro rd (lit 0) (.~ lit 1).

Definition get_normal (scene : Scene T) (p : vec3 T) : vec3 T :=
  get_normal_of (get_dist scene) p.

Definition fs_main (u : Uniforms T) (scene : Scene T) (fragCoord : vec2 T) : vec4 T :=
  fs_main_of (get_dist scene) (ray_march scene) (get_material_color scene) u fragCoord.
End Variant.
End Basic.

(** ** The buffer-driven variant of the same shader: arrays of 10 each *)

Module Dynamic.
Section Variant.
Context {T : Type} `{Scalar T} `{Transcendental T}.

Definition get_material_color (scene : Scene T) (mat_id : T) (p : vec3 T) : vec3 T :=
  if mat_id .< lit 0 then splat3 (lit 0.5)
  else if mat_id .== MAT_PLANE then plane_color p
  else
    let sphere_id := ffloor ((mat_id .- MAT_SPHERE) .* lit 10 .+ lit 0.5) in
    let box_id := ffloor ((mat_id .- MAT_BOX) .* lit 10 .+ lit 0.5) in
    let torus_id := ffloor ((mat_id .- MAT_TORUS) .* lit 10 .+ lit 0.5) in
    if fge mat_id MAT_SPHERE && (mat_id .< MAT_SPHERE .+ lit 1)
       && (sphere_id .< of_u32 (num_spheres scene))
    then s_color (sphere_at scene (Z.to_nat (to_u32 sphere_id)))
    else if fge mat_id MAT_BOX && (mat_id .< MAT_BOX .+ lit 1)
            && (box_id .< of_u32 (num_boxes scene))
    then b_color (box_at scene (Z.to_nat (to_u32 box_id)))
    else if fge mat_id MAT_TORUS && (mat_id .< MAT_TORUS .+ lit 1)
            && (torus_id .< of_u32 (num_tori scene))
    then t_color (torus_at scene (Z.to_nat (to_u32 torus_id)))
    else mk3 (lit 1) (lit 0) (lit 1).

Definition get_dist (scene : Scene T) (p : vec3 T) : vec2 T :=
  let res := mk2 MAX_DIST (.~ lit 1) in
  let plane_dist := sd_plane p (mk3 (lit 0) (lit 1) (lit 0)) (lit 0.5) in
  let res := closer plane_dist MAT_PLANE res in
  let res := sphere_pass 10 (fun i => MAT_SPHERE .+ of_u32 i .* lit 0.1) scene p res in
  let res := box_pass 10 (fun i => MAT_BOX .+ of_u32 i .* lit 0.1) scene p res in
  let res := torus_pass 10 (fun i => MAT_TORUS .+ of_u32 i .* lit 0.1) scene p res in
  res.

Definition ray_march (scene : Scene T) (ro rd : vec3 T) : vec2 T :=
  march (get_dist scene) SURF_DIST MAX_DIST MAX_STEPS ro rd (lit 0) (.~ lit 1).

Definition get_normal (scene : Scene T) (p : vec3 T) : vec3 T :=
  get_normal_of (get_dist scene) p.

Definition fs_main (u : Uniforms T) (scene : Scene T) (fragCoord : vec2 T) : vec4 T :=
  fs_main_of (get_dist scene) (ray_march scene) (get_material_color scene) u fragCoord.
End Variant.
End Dynamic.

(** ** Object identifiers *)

Inductive ObjType : Type := sphere | box | torus.

(** [{ type: 'sphere', index: 0 }] *)
Record Obj : Type := mkObj { type : ObjType; index : nat }.

(** The identifier [get_dist] of the pick shader writes for a slot:
    [f32(i + 1u)], [f32(i + 11u)], [f32(i + 21u)]. *)
Definition encodeID (o : Obj) : nat :=
  match type o with
  | sphere => index o + 1
  | box => index o + 11
  | torus => index o + 21
  end.

(** ** [shaders/id_pick.wgsl], first shader: ten slots, integer identifiers *)

Module IdPick.
Section Variant.
Context {T : Type} `{Scalar T} `{Transcendental T}.

Definition get_dist (scene : Scene T) (p : vec3 T) : vec2 T :=
  let res := mk2 (lit 100) (lit 0) in
  let plane_dist := sd_plane p (mk3 (lit 0) (lit 1) (lit 0)) (lit 0.5) in
  let res := closer plane_dist (lit 0) res in
  let res := sphere_pass 10 (fun i => of_u32 (encodeID (mkObj sphere i))) scene p res in
  let res := box_pass 10 (fun i => of_u32 (encodeID (mkObj box i))) scene p res in
  let res := torus_pass 10 (fun i => of_u32 (encodeID (mkObj torus i))) scene p res in
  res.

Definition ray_march (scene : Scene T) (ro rd : vec3 T) : vec2 T :=
  march (get_dist scene) (lit 0.001) (lit 100) 128 ro rd (lit 0) (lit 0).

(** The tail of [fs_main]: from the march result to the colour written. *)
Definition id_color (result : vec2 T) : vec4 T :=
  let hit_dist := x2 result in
  let obj_id := to_u32 (y2 result) in
  if (hit_dist .< lit 100) && (0 <? obj_id)%Z
  then mk4 (of_int obj_id ./ lit 255) (lit 0) (lit 0) (lit 1)
  else mk4 (lit 0) (lit 0) (lit 0) (lit 1).

Definition fs_main (u : Uniforms T) (scene : Scene T) (fragCoord : vec2 T) : vec4 T :=
  let uv := frag_uv u fragCoord in
  let cam_pos := camera_pos u in
  let rd := ray_dir u uv in
  id_color (ray_march scene cam_pos rd).
End Variant.
End IdPick.

(** ** [shaders/id_pick.wgsl], second shader: 3/2/2 slots, material tags *)

Module IdPickLegacy.
Section Variant.
Context {T : Type} `{Scalar T} `{Transcendental T}.

Definition MAX_STEPS : nat := 100.

Definition get_dist (scene : Scene T) (p : vec3 T) : vec2 T :=
  let res := mk2 MAX_DIST (.~ lit 1) in
  let plane_dist := sd_plane p (mk3 (lit 0) (lit 1) (lit 0)) (lit 0.5) in
  let res := closer plane_dist MAT_PLANE res in
  let res := sphere_pass 3 (fun i => MAT_SPHERE .+ of_u32 i .* lit 0.1) scene p res in
  let res := box_pass 2 (fun i => MAT_BOX .+ of_u32 i .* lit 0.1) scene p res in
  let res := torus_pass 2 (fun i => MAT_TORUS .+ of_u32 i .* lit 0.1) scene p res in
  res.

Definition ray_march (scene : Scene T) (ro rd : vec3 T) : vec2 T :=
  march (get_dist scene) SURF_DIST MAX_DIST MAX_STEPS ro rd (lit 0) (.~ lit 1).

Definition get_id_color (mat_id : T) : vec4 T :=
  let id_value :=
    if mat_id .< lit 0 then lit 0
    else if mat_id .== MAT_PLANE then lit 0
    else if fge mat_id MAT_SPHERE && (mat_id .< MAT_SPHERE .+ lit 1) then
      let offset := mat_id .- MAT_SPHERE in
      let index := to_i32 (fround (offset .* lit 10)) in
      of_int (index + 1)
    else if fge mat_id MAT_BOX && (mat_id .< MAT_BOX .+ lit 1) then
      let offset := mat_id .- MAT_BOX in
      let index := to_i32 (fround (offset .* lit 10)) in
      of_int (index + 10)
    else if fge mat_id MAT_TORUS && (mat_id .< MAT_TORUS .+ lit 1) then
      let offset := mat_id .- MAT_TORUS in
      let index := to_i32 (fround (offset .* lit 10)) in
      of_int (index + 20)
    else lit 0 in
  mk4 (id_value ./ lit 255) (lit 0) (lit 0) (lit 1).

Definition fs_main (u : Uniforms T) (scene : Scene T) (fragCoord : vec2 T) : vec4 T :=
  let uv := frag_uv u fragCoord in
  let cam_pos := camera_pos u in
  let rd := ray_dir u uv in
  let result := ray_march scene cam_pos rd in
  get_id_color (y2 result).
End Variant.
End IdPickLegacy.

(** What an [rgba8unorm] attachment stores for a channel value: the value
    clamped to [0, 1], scaled by 255 and rounded to the nearest integer. *)
Definition unorm8 {T : Type} `{Scalar T} (c : T) : Z :=
  to_u32 (fround (clamp c (lit 0) (lit 1) .* lit 255)).

(** ** [object_picker.js] *)

Module ObjectPicker.

Definition decodeID (id : Z) : option Obj :=
  if (id =? 0)%Z then None
  else if (1 <=? id)%Z && (id <=? 10)%Z then Some (mkObj sphere (Z.to_nat (id - 1)))
  else if (11 <=? id)%Z && (id <=? 20)%Z then Some (mkObj box (Z.to_nat (id - 11)))
  else if (21 <=? id)%Z && (id <=? 30)%Z then Some (mkObj torus (Z.to_nat (id - 21)))
  else None.

(** [baseOffset] of [getObjectPosition] and [setObjectPosition]. *)
Definition baseOffset (obj : Obj) : nat :=
  match type obj with
  | sphere => 4 + index obj * 8
  | box => 4 + 80 + index obj * 12
  | torus => 4 + 80 + 120 + index obj * 12
  end.

(** [a || b] for an own property that is [undefined] until first set. *)
Definition js_or (a : option Z) (b : Z) : Z :=
  match a with
  | Some v => if (v =? 0)%Z then b else v
  | None => b
  end.

Section Class.
Context {T : Type} `{Scalar T} `{Float32 T}.

Record Plane : Type := mkPlane { point : vec3 T; normal : vec3 T }.

(** The fields of an [ObjectPicker].  [sceneData] is the [Float32Array]
    that is uploaded to the scene buffer, one element for each 4-byte
    float of the structs: a store rounds to binary32, a store outside its
    length is ignored and a load outside its length gives [undefined].  The
    elements are kept here as the numbers a load returns.  The texture is
    represented by its size and the red bytes of its texels; the two
    callbacks by whether one is registered and by the calls made so far. *)
Record State : Type := mkState {
  canvas_width : Z;
  canvas_height : Z;
  sceneData : list T;
  selectedObject : option Obj;
  isDragging : bool;
  dragPlane : option Plane;
  idTexture : option (Z * Z);
  idTexels : Z -> Z -> Z;
  idTextureWidth : option Z;
  idTextureHeight : option Z;
  onObjectSelected : bool;
  onObjectMoved : bool;
  selected_calls : list Obj;
  moved_calls : list (Obj * vec3 T);
}.

Definition constructor (canvas_w canvas_h : Z) (sceneData : list T) : State :=
  mkState canvas_w canvas_h sceneData None false None None (fun _ _ => 0%Z) None None
          false false [] [].

(** [undefined] in arithmetic is NaN. *)
Definition undefined : T := lit 0 ./ lit 0.

Definition load (sd : list T) (i : nat) : T := nth i sd undefined.

Definition set_sceneData (st : State) (sd : list T) : State :=
  mkState (canvas_width st) (canvas_height st) sd (selectedObject st) (isDragging st)
          (dragPlane st) (idTexture st) (idTexels st) (idTextureWidth st)
          (idTextureHeight st) (onObjectSelected st) (onObjectMoved st)
          (selected_calls st) (moved_calls st).

Definition set_moved_calls (st : State) (calls : list (Obj * vec3 T)) : State :=
  mkState (canvas_width st) (canvas_height st) (sceneData st) (selectedObject st)
          (isDragging st) (dragPlane st) (idTexture st) (idTexels st) (idTextureWidth st)
          (idTextureHeight st) (onObjectSelected st) (onObjectMoved st)
          (selected_calls st) calls.

Definition set_selection (st : State) (sel : option Obj) (plane : option Plane)
    (calls : list Obj) : State :=
  mkState (canvas_width st) (canvas_height st) (sceneData st) sel (isDragging st)
          plane (idTexture st) (idTexels st) (idTextureWidth st)
          (idTextureHeight st) (onObjectSelected st) (onObjectMoved st)
          calls (moved_calls st).

Definition set_texture (st : State) (size : Z * Z) (texels : Z -> Z -> Z)
    (w h : option Z) : State :=
  mkState (canvas_width st) (canvas_height st) (sceneData st) (selectedObject st)
          (isDragging st) (dragPlane st) (Some size) texels w h
          (onObjectSelected st) (onObjectMoved st) (selected_calls st) (moved_calls st).

(** [init]: the texture is created at the canvas size; the width and height
    fields are not set yet. *)
Definition init (st : State) : State :=
  set_texture st (Z.max 1 (canvas_width st), Z.max 1 (canvas_height st)) (idTexels st)
              (idTextureWidth st) (idTextureHeight st).

(** [renderIDPass]; [frame x y] is the red byte the pass writes at a texel. *)
Definition renderIDPass (st : State) (frame : Z -> Z -> Z) : State :=
  let canvasWidth := Z.max 1 (canvas_width st) in
  let canvasHeight := Z.max 1 (canvas_height st) in
  let recreate :=
    match idTexture st, idTextureWidth st, idTextureHeight st with
    | Some _, Some w, Some h => negb (w =? canvasWidth)%Z || negb (h =? canvasHeight)%Z
    | _, _, _ => true
    end in
  if recreate
  then set_texture st (canvasWidth, canvasHeight) frame (Some canvasWidth) (Some canvasHeight)
  else match idTexture st with
       | Some size => set_texture st size frame (idTextureWidth st) (idTextureHeight st)
       | None => st
       end.

(** [copyTextureToBuffer] of one texel: rejected outside the texture. *)
Definition copyTexel (st : State) (x y : Z) : option Z :=
  match idTexture st with
  | Some (w, h) =>
      if (0 <=? x)%Z && (x <? w)%Z && (0 <=? y)%Z && (y <? h)%Z
      then Some (idTexels st x y) else None
  | None => None
  end.

(** The origin [readPixel] passes to the copy. *)
Definition clampedOrigin (st : State) (x y : Q) : Z * Z :=
  let texW := Z.max 1 (js_or (idTextureWidth st) (canvas_width st)) in
  let texH := Z.max 1 (js_or (idTextureHeight st) (canvas_height st)) in
  let clampedX := Z.max 0 (Z.min (Qfloor x) (texW - 1)) in
  let clampedY := Z.max 0 (Z.min (Qfloor y) (texH - 1)) in
  (clampedX, clampedY).

(** [readPixel]: [None] when the copy is rejected. *)
Definition readPixel (st : State) (x y : Q) : option Z :=
  let '(clampedX, clampedY) := clampedOrigin st x y in
  copyTexel st clampedX clampedY.

Definition getObjectPosition (st : State) (obj : option Obj) : option (vec3 T) :=
  match obj with
  | None => None
  | Some obj =>
      let baseOffset := baseOffset obj in
      Some (mk3 (load (sceneData st) (baseOffset + 0))
                (load (sceneData st) (baseOffset + 1))
                (load (sceneData st) (baseOffset + 2)))
  end.

Definition setObjectPosition (st : State) (obj : option Obj) (pos : vec3 T) : State :=
  match obj with
  | None => st
  | Some obj =>
      let baseOffset := baseOffset obj in
      let sd := <[baseOffset + 0 := to_f32 (x3 pos)]> (sceneData st) in
      let sd := <[baseOffset + 1 := to_f32 (y3 pos)]> sd in
      let sd := <[baseOffset + 2 := to_f32 (z3 pos)]> sd in
      let st := set_sceneData st sd in
      if onObjectMoved st then set_moved_calls st (moved_calls st ++ [(obj, pos)]) else st
  end.

(** [handleClick]; the result is [None] as well when the readback is
    rejected. *)
Definition handleClick (st : State) (frame : Z -> Z -> Z) (x y : Q)
    (cameraPos cameraDir : vec3 T) : State * option Obj :=
  let st := renderIDPass st frame in
  match readPixel st x y with
  | None => (st, None)
  | Some id =>
      let obj := decodeID id in
      match obj, getObjectPosition st obj with
      | Some o, Some pos =>
          (set_selection st obj (Some (mkPlane pos cameraDir))
             (if onObjectSelected st then selected_calls st ++ [o] else selected_calls st),
           obj)
      | _, _ => (set_selection st None (dragPlane st) (selected_calls st), obj)
      end
  end.

Definition handleDrag (st : State) (deltaX deltaY : T) (cameraPos cameraDir : vec3 T)
    : State * option (vec3 T) :=
  match selectedObject st, dragPlane st with
  | Some obj, Some _ =>
      match getObjectPosition st (selectedObject st) with
      | None => (st, None)
      | Some currentPos =>
          let up := mk3 (lit 0) (lit 1) (lit 0) in
          let right := mk3 (z3 cameraDir) (lit 0) (.~ (x3 cameraDir)) in
          let rightLen := fsqrt (x3 right .* x3 right .+ z3 right .* z3 right) in
          let right :=
            if fgt rightLen (lit 0.001)
            then mk3 (x3 right ./ rightLen) (y3 right) (z3 right ./ rightLen)
            else right in
          let cameraDistance :=
            fsqrt (x3 cameraPos .* x3 cameraPos .+ y3 cameraPos .* y3 cameraPos
                   .+ z3 cameraPos .* z3 cameraPos) in
          let sensitivity := lit 0.002 in
          let dx := deltaX .* sensitivity .* cameraDistance in
          let dy := deltaY .* sensitivity .* cameraDistance in
          let newPos := mk3 (x3 currentPos .+ x3 right .* dx)
                            (y3 currentPos .- y3 up .* dy)
                            (z3 currentPos .+ z3 right .* dx) in
          (setObjectPosition st (selectedObject st) newPos, Some newPos)
      end
  | _, _ => (st, None)
  end.

(** A position as the array holds it after a store. *)
Definition stored (pos : vec3 T) : vec3 T :=
  mk3 (to_f32 (x3 pos)) (to_f32 (y3 pos)) (to_f32 (z3 pos)).

(** The scene buffer as the struct declarations of [init] lay it out, in
    floats: a header of four counters, ten sphere records of 8 floats, ten
    box records of 12 and ten torus records of 12. *)
Definition sphere_floats (pad : T) (s : Sphere T) : list T :=
  [x3 (s_center s); y3 (s_center s); z3 (s_center s); s_radius s;
   x3 (s_color s); y3 (s_color s); z3 (s_color s); pad].

Definition box_floats (pad : T) (b : Box T) : list T :=
  [x3 (b_center b); y3 (b_center b); z3 (b_center b); pad;
   x3 (b_size b); y3 (b_size b); z3 (b_size b); pad;
   x3 (b_color b); y3 (b_color b); z3 (b_color b); pad].

Definition torus_floats (pad : T) (t : Torus T) : list T :=
  [x3 (t_center t); y3 (t_center t); z3 (t_center t); pad;
   x2 (t_radii t); y2 (t_radii t); pad; pad;
   x3 (t_color t); y3 (t_color t); z3 (t_color t); pad].

Definition scene_floats (header : list T) (pad : T) (sc : Scene T) : list T :=
  header ++ flat_map (sphere_floats pad) (spheres sc)
         ++ flat_map (box_floats pad) (boxes sc)
         ++ flat_map (torus_floats pad) (tori sc).

Definition layout_ok (header : list T) (sc : Scene T) : Prop :=
  length header = 4%nat /\ length (spheres sc) = 10%nat /\
  length (boxes sc) = 10%nat /\ length (tori sc) = 10%nat.

(** The centre of an object in a scene, and the scene with it replaced. *)
Definition center_of (sc : Scene T) (o : Obj) : vec3 T :=
  match type o with
  | sphere => s_center (sphere_at sc (index o))
  | box => b_center (box_at sc (index o))
  | torus => t_center (torus_at sc (index o))
  end.

Definition set_center (sc : Scene T) (o : Obj) (pos : vec3 T) : Scene T :=
  match type o with
  | sphere =>
      let s := sphere_at sc (index o) in
      mkScene (num_spheres sc) (num_boxes sc) (num_tori sc)
              (<[index o := mkSphere pos (s_radius s) (s_color s)]> (spheres sc))
              (boxes sc) (tori sc)
  | box =>
      let b := box_at sc (index o) in
      mkScene (num_spheres sc) (num_boxes sc) (num_tori sc) (spheres sc)
              (<[index o := mkBox pos (b_size b) (b_color b)]> (boxes sc)) (tori sc)
  | torus =>
      let t := torus_at sc (index o) in
      mkScene (num_spheres sc) (num_boxes sc) (num_tori sc) (spheres sc) (boxes sc)
              (<[index o := mkTorus pos (t_radii t) (t_color t)]> (tori sc))
  end.

(** What the host does to a picker between calls: it resizes the canvas and
    registers callbacks. *)
Definition set_canvas (st : State) (w h : Z) : State :=
  mkState w h (sceneData st) (selectedObject st) (isDragging st)
          (dragPlane st) (idTexture st) (idTexels st) (idTextureWidth st)
          (idTextureHeight st) (onObjectSelected st) (onObjectMoved st)
          (selected_calls st) (moved_calls st).

Definition set_callbacks (st : State) (selected moved : bool) : State :=
  mkState (canvas_width st) (canvas_height st) (sceneData st) (selectedObject st)
          (isDragging st) (dragPlane st) (idTexture st) (idTexels st) (idTextureWidth st)
          (idTextureHeight st) selected moved (selected_calls st) (moved_calls st).

(** The states a picker goes through: constructed, initialised once, then
    used. *)
Inductive reachable : State -> Prop :=
| reach_constructor (w h : Z) (sd : list T) : reachable (constructor w h sd)
| reach_init (w h : Z) (sd : list T) : reachable (init (constructor w h sd))
| reach_canvas (st : State) (w h : Z) : reachable st -> reachable (set_canvas st w h)
| reach_callbacks (st : State) (a b : bool) : reachable st -> reachable (set_callbacks st a b)
| reach_render (st : State) (frame : Z -> Z -> Z) :
    reachable st -> reachable (renderIDPass st frame)
| reach_click (st : State) (frame : Z -> Z -> Z) (x y : Q) (cameraPos cameraDir : vec3 T) :
    reachable st -> reachable (fst (handleClick st frame x y cameraPos cameraDir))
| reach_drag (st : State) (deltaX deltaY : T) (cameraPos cameraDir : vec3 T) :
    reachable st -> reachable (fst (handleDrag st deltaX deltaY cameraPos cameraDir)).

(** The recorded width and height are those of the texture. *)
Definition texture_recorded (st : State) : Prop :=
  match idTextureWidth st, idTextureHeight st with
  | Some w, Some h => idTexture st = Some (w, h) /\ (1 <= w)%Z /\ (1 <= h)%Z
  | None, None => True
  | _, _ => False
  end.

(** A selection always comes with its drag plane and names one of the ten
    slots of its type. *)
Definition selection_ok (st : State) : Prop :=
  forall obj, selectedObject st = Some obj ->
    dragPlane st <> None /\ (index obj < 10)%nat.
End Class.

Arguments State T : clear implicits.
Arguments Plane T : clear implicits.
End ObjectPicker.

(** ** The scalar instances *)

(** *** Real numbers: the idealised semantics *)

Module RealModel.
Definition Rltb (a b : R) : bool := if Rlt_dec a b then true else false.
Definition Rleb (a b : R) : bool := if Rle_dec a b then true else false.
Definition Reqb (a b : R) : bool := if Req_dec_T a b then true else false.

Definition Rfloor (x : R) : R := IZR (Int_part x).

Definition Rround_even (x : R) : R :=
  let f := Int_part x in
  let r := (x - IZR f)%R in
  if Rlt_dec r (1 / 2) then IZR f
  else if Rlt_dec (1 / 2) r then IZR (f + 1)
  else if Z.even f then IZR f else IZR (f + 1).

Definition Rtrunc (x : R) : Z :=
  if Rle_dec 0 x then Int_part x else (- Int_part (- x))%Z.

(** [pow(x, y)] is defined for a positive base; a zero base gives zero. *)
Definition Rpow (x y : R) : R := if Rlt_dec 0 x then Rpower x y else 0%R.

#[export] Instance R_scalar : Scalar R := {|
  lit := Q2R;
  fadd := Rplus; fsub := Rminus; fmul := Rmult; fdiv := Rdiv;
  fneg := Ropp; fabs := Rabs; fsqrt := sqrt;
  flt := Rltb; fle := Rleb; feq := Reqb;
  ffloor := Rfloor; fround := Rround_even; ftrunc := Rtrunc;
|}.

#[export] Instance R_transcendental : Transcendental R := {|
  fexp := exp; fpow := Rpow; fsin := sin; fcos := cos;
|}.

(** Binary32 on the reals.  A number [x] with [2^e <= |x| < 2^(e+1)] is
    rounded to the nearest multiple of [2^(e-23)], ties to the even
    multiple; below [2^-126] the spacing stays [2^-149].  The reals have no
    infinity, so the overflow of a store has no counterpart here. *)
Definition R_exponent (x : R) : Z := Z.max (-126) (Int_part (ln (Rabs x) / ln 2)).

Definition R_to_f32 (x : R) : R :=
  if Req_dec_T x 0 then 0%R
  else (Rround_even (x / powerRZ 2 (R_exponent x - 23)) * powerRZ 2 (R_exponent x - 23))%R.

Definition R_float32 : Float32 R := {| to_f32 := R_to_f32 |}.
End RealModel.
Export RealModel.

(** *** IEEE-754 binary floating point, round to nearest even *)

Module FloatModel.
Section Binary.
Variables prec emax : Z.

Definition sf_of_Z (z : Z) : spec_float := binary_normalize prec emax z 0 false.

(** A literal [n/d] with [n] and [d] exactly representable: one correctly
  rounded division. *)
Definition sf_lit (q : Q) : spec_float :=
SFdiv prec emax (sf_of_Z (Qnum q)) (sf_of_Z (Zpos (Qden q))).

Definition sf_to_Q (x : spec_float) : Q :=
match x with
| S754_finite s m e =>
    ((if s then -1 else 1) * inject_Z (Zpos m) * Qpower 2 e)%Q
| _ => 0%Q
end.

Definition sf_floor (x : spec_float) : spec_float :=
match x with
| S754_finite s m e =>
    if (0 <=? e)%Z then x else sf_of_Z (Qfloor (sf_to_Q x))
| _ => x
end.

Definition Qround_even (q : Q) : Z :=
let f := Qfloor q in
let r := (q - inject_Z f)%Q in
match (r ?= 1 # 2)%Q with
| Lt => f
| Gt => (f + 1)%Z
| Eq => if Z.even f then f else (f + 1)%Z
end.

Definition sf_round (x : spec_float) : spec_float :=
match x with
| S754_finite s m e =>
    if (0 <=? e)%Z then x else sf_of_Z (Qround_even (sf_to_Q x))
| _ => x
end.

Definition Qtrunc (q : Q) : Z :=
if Qle_bool 0 q then Qfloor q else (- Qfloor (- q)%Q)%Z.

Definition sf_trunc (x : spec_float) : Z :=
match x with
| S754_infinity s => if s then (- 2 ^ 64)%Z else (2 ^ 64)%Z
| _ => Qtrunc (sf_to_Q x)
end.

Definition binary_scalar : Scalar spec_float := {|
lit := sf_lit;
fadd := SFadd prec emax; fsub := SFsub prec emax;
fmul := SFmul prec emax; fdiv := SFdiv prec emax;
fneg := SFopp; fabs := SFabs; fsqrt := SFsqrt prec emax;
flt := SFltb; fle := SFleb; feq := SFeqb;
ffloor := sf_floor; fround := sf_round; ftrunc := sf_trunc;
|}.
End Binary.

(** [f32] of WGSL and the [number] of JavaScript. *)
Definition f32 : Scalar spec_float := binary_scalar 24 128.
Definition f64 : Scalar spec_float := binary_scalar 53 1024.

(** The binary32 value nearest to a binary64 number, as the binary64 number
    a load returns: rounded to 24 bits with the binary32 exponent range
    (overflow gives an infinity, underflow a subnormal number or a signed
    zero), then written with the 53 bits of binary64. *)
Definition sf_to_f32 (x : spec_float) : spec_float :=
match x with
| S754_finite s m e =>
    match binary_normalize 24 128 (cond_Zopp s (Zpos m)) e s with
    | S754_finite s' m' e' => binary_normalize 53 1024 (cond_Zopp s' (Zpos m')) e' s'
    | y => y
    end
| _ => x
end.

Definition f64_float32 : Float32 spec_float := {| to_f32 := sf_to_f32 |}.
End FloatModel.

(** ** Vocabulary of the statements *)

Section Vocabulary.
Context {T : Type} `{Scalar T}.

Definition up : vec3 T := mk3 (lit 0) (lit 1) (lit 0).

(** A scene with all three counters at zero, for arrays of the given sizes. *)
Definition empty_scene (cs cb ct : nat) : Scene T :=
  mkScene 0 0 0 (repeat sphere0 cs) (repeat box0 cb) (repeat torus0 ct).

Definition no_primitives (sc : Scene T) : Prop :=
  num_spheres sc = 0%nat /\ num_boxes sc = 0%nat /\ num_tori sc = 0%nat.

(** The primitives a variant of capacities [cs cb ct] visits: the slots
    below the counter (and below the capacity), in storage order. *)
Inductive Primitive : Type :=
| PSphere (s : Sphere T)
| PBox (b : Box T)
| PTorus (t : Torus T).

Definition active_spheres (cap : nat) (sc : Scene T) : list (Sphere T) :=
  map (sphere_at sc) (seq 0 (Nat.min (num_spheres sc) cap)).
Definition active_boxes (cap : nat) (sc : Scene T) : list (Box T) :=
  map (box_at sc) (seq 0 (Nat.min (num_boxes sc) cap)).
Definition active_tori (cap : nat) (sc : Scene T) : list (Torus T) :=
  map (torus_at sc) (seq 0 (Nat.min (num_tori sc) cap)).

Definition active_primitives (cs cb ct : nat) (sc : Scene T) : list Primitive :=
  map PSphere (active_spheres cs sc) ++ map PBox (active_boxes cb sc)
    ++ map PTorus (active_tori ct sc).

(** The candidate distance of a primitive at [p], as [get_dist] computes it. *)
Definition primitive_dist (p : vec3 T) (q : Primitive) : T :=
  match q with
  | PSphere s => sd_sphere (v3_sub p (s_center s)) (s_radius s)
  | PBox b => sd_box (v3_sub p (b_center b)) (b_size b)
  | PTorus t => sd_torus (v3_sub p (t_center t)) (t_radii t)
  end.

(** The scene of the sphere-march property: one active sphere, centred at
    the origin, of radius [r]. *)
Definition one_sphere_at_origin (sc : Scene T) (r : T) : Prop :=
  num_spheres sc = 1%nat /\ num_boxes sc = 0%nat /\ num_tori sc = 0%nat /\
  s_center (sphere_at sc 0) = zero3 /\ s_radius (sphere_at sc 0) = r.

(** The point of the ray at parameter [t]. *)
Definition ray_at (ro rd : vec3 T) (t : T) : vec3 T := v3_add ro (v3_scale rd t).

(** The active primitives of a variant paired with the identifier its
    [get_dist] writes for them; [ts tb tt] are the three tag functions. *)
Definition tagged_primitives (cs cb ct : nat) (ts tb tt : nat -> T) (sc : Scene T)
    : list (Primitive * T) :=
  map (fun i => (PSphere (sphere_at sc i), ts i)) (seq 0 (Nat.min (num_spheres sc) cs))
  ++ map (fun i => (PBox (box_at sc i), tb i)) (seq 0 (Nat.min (num_boxes sc) cb))
  ++ map (fun i => (PTorus (torus_at sc i), tt i)) (seq 0 (Nat.min (num_tori sc) ct)).

(** The material tags of the two shading variants. *)
Definition sphere_tag (i : nat) : T := MAT_SPHERE .+ of_u32 i .* lit 0.1.
Definition box_tag (i : nat) : T := MAT_BOX .+ of_u32 i .* lit 0.1.
Definition torus_tag (i : nat) : T := MAT_TORUS .+ of_u32 i .* lit 0.1.

(** The tag of a slot and the colour stored in it. *)
Definition slot_tag (o : Obj) : T :=
  match type o with
  | sphere => sphere_tag (index o)
  | box => box_tag (index o)
  | torus => torus_tag (index o)
  end.

Definition slot_color (sc : Scene T) (o : Obj) : vec3 T :=
  match type o with
  | sphere => s_color (sphere_at sc (index o))
  | box => b_color (box_at sc (index o))
  | torus => t_color (torus_at sc (index o))
  end.

(** The primitives of the live scene, for a variant of capacities
    [cs cb ct]: the slots below the counter of their type and below the
    capacity. *)
Definition live_slot (cs cb ct : nat) (sc : Scene T) (o : Obj) : Prop :=
  match type o with
  | sphere => (index o < num_spheres sc)%nat /\ (index o < cs)%nat
  | box => (index o < num_boxes sc)%nat /\ (index o < cb)%nat
  | torus => (index o < num_tori sc)%nat /\ (index o < ct)%nat
  end.

(** What the second component of a [get_dist] result can be: the initial
    -1, the tag of the plane, or the tag of a primitive of the live scene. *)
Definition tag_of_live (cs cb ct : nat) (sc : Scene T) (t : T) : Prop :=
  t = .~ lit 1 \/ t = MAT_PLANE \/ exists o : Obj, live_slot cs cb ct sc o /\ t = slot_tag o.

(** Modelled from the spec: the blend modes of section 3 and the combination
    rule of section 4.1, step 3, for the distance of the running result.
    The primitive structs of the shaders have no blend-mode or
    blend-strength field and [get_dist] has no such dispatch; this is the
    rule the design document describes, kept apart from the code. *)
Inductive BlendMode : Type := Union | SmoothUnion | Subtract | Intersect | Xor.

Definition spec_combine_dist (mode : BlendMode) (k candidate existing : T) : T :=
  match mode with
  | Union => fmin existing candidate
  | SmoothUnion => op_smooth_union candidate existing k
  | Subtract => fmax (.~ candidate) existing
  | Intersect => fmax existing candidate
  | Xor => fmax (fmin existing candidate) (.~ (fmax existing candidate))
  end.
End Vocabulary.

Arguments Primitive T : clear implicits.


(** ** Concrete inputs *)

Section Inputs.
Local Open Scope R_scope.

Definition red : vec3 R := mk3 1 0 0.
Definition blue : vec3 R := mk3 0 0 1.

Definition sphere_a : Sphere R := mkSphere (mk3 0 0 1) (1 / 2) red.
Definition sphere_b : Sphere R := mkSphere (mk3 2 0 0) 1 blue.

(** Two scenes for the 3/2/2 shader holding the same two spheres in the two
    storage orders. *)
Definition scene_ab : Scene R :=
  mkScene 2 0 0 [sphere_a; sphere_b; sphere0] [box0; box0] [torus0; torus0].
Definition scene_ba : Scene R :=
  mkScene 2 0 0 [sphere_b; sphere_a; sphere0] [box0; box0] [torus0; torus0].

(** One unit sphere at the origin. *)
Definition unit_sphere_scene : Scene R :=
  mkScene 1 0 0 [mkSphere zero3 1 red; sphere0; sphere0] [box0; box0] [torus0; torus0].

(** The ray is unit length and reaches the world origin after distance
    [d]. *)
Definition through_origin (ro rd : vec3 R) (d : R) : Prop :=
  length3 ro = d /\ length3 rd = 1 /\ ray_at ro rd d = mk3 0 0 0.

(** One step of the running result of [get_dist] for a tagged primitive. *)
Definition combine_step (p : vec3 R) (res : vec2 R) (q : Primitive R * R) : vec2 R :=
  closer (primitive_dist p (fst q)) (snd q) res.

(** The shadow rule in the words of the shading property: lit (factor 1)
    when the shadow march went at least the light's distance, 0.3 otherwise.
    Stated apart from the code, to be compared with [shadow_factor]. *)
Definition claimed_shadow_factor (shadow_t light_dist : R) : R :=
  if Rle_dec light_dist shadow_t then 1 else 3 / 10.

Definition white : vec3 R := mk3 1 1 1.

(** A camera on the z axis at distance 5 looking at the origin, on an
    800 x 600 canvas, and the pixel at the centre of the canvas. *)
Definition front_camera : Uniforms R := mkUniforms (mk2 800 600) 0 0 0 5 0 0 0.
Definition centre_pixel : vec2 R := mk2 400 300.

(** The sky blend at the centre row: midway between the two sky colours. *)
Definition centre_sky : vec3 R := mk3 (665 / 1000) (76 / 100) (855 / 1000).

(** The vocabulary of the drag property: [old + right * dx' - up * dy']. *)
Definition drag_target (old right up : vec3 R) (dx dy : R) : vec3 R :=
  v3_sub (v3_add old (v3_scale right dx)) (v3_scale up dy).

(** The camera-forward vector flattened to the horizontal plane and turned
    by 90 degrees. *)
Definition flattened_right (cameraDir : vec3 R) : vec3 R :=
  mk3 (z3 cameraDir) 0 (- x3 cameraDir).

Definition world_up : vec3 R := mk3 0 1 0.
Definition sensitivity : R := 2 / 1000.

(** A picker over a zeroed scene buffer of the 10/10/10 layout (324 floats)
    on which sphere 0 has just been clicked. *)
Definition clicked_sphere0 : ObjectPicker.State R :=
  fst (ObjectPicker.handleClick (ObjectPicker.constructor 800 600 (repeat 0 324))
         (fun _ _ => 1%Z) 400 300 (mk3 0 0 5) (mk3 0 0 (-1))).

(** Along the ray, up to the sphere, the sphere is strictly nearer than the
    ground plane. *)
Definition plane_clear (ro rd : vec3 R) (r d : R) : Prop :=
  forall t : R, 0 <= t <= d - r ->
    sd_sphere (ray_at ro rd t) r < sd_plane (ray_at ro rd t) up (lit 0.5).

(** The ground plane does not intervene, with margin [m]: at every point of
    the ray up to the sphere the sphere is strictly nearer than the plane,
    or the plane is at least [m] away. *)
Definition plane_keeps_off (ro rd : vec3 R) (r d m : R) : Prop :=
  forall t : R, 0 <= t <= d - r ->
    sd_sphere (ray_at ro rd t) r < sd_plane (ray_at ro rd t) up (lit 0.5) \/
    m <= sd_plane (ray_at ro rd t) up (lit 0.5).
End Inputs.

(** Binary32 inputs. *)
Section InputsF32.
Import FloatModel.
#[local] Existing Instance f32.

Definition red32 : vec3 spec_float := mk3 (lit 1) (lit 0) (lit 0).
Definition magenta32 : vec3 spec_float := mk3 (lit 1) (lit 0) (lit 1).

(** The end-to-end scene of the design document: one red sphere of radius
    0.5 centred at (0, 0, 1), in the ten-slot layout. *)
Definition red_sphere_scene : Scene spec_float :=
  mkScene 1 0 0
          (mkSphere (mk3 (lit 0) (lit 0) (lit 1)) (lit 0.5) red32 :: repeat sphere0 9)
          (repeat box0 10) (repeat torus0 10).

(** The ray from (0, 0, 5) toward -z, and a ray straight down onto the
    ground beside the sphere. *)
Definition eye : vec3 spec_float := mk3 (lit 0) (lit 0) (lit 5).
Definition toward_minus_z : vec3 spec_float := mk3 (lit 0) (lit 0) (.~ lit 1).
Definition beside : vec3 spec_float := mk3 (lit 3) (lit 1) (lit 0).
Definition downward : vec3 spec_float := mk3 (lit 0) (.~ lit 1) (lit 0).

(** The counters do not exceed the capacity of the ten-slot arrays. *)
Definition counts_within_capacity (sc : Scene spec_float) : Prop :=
  (num_spheres sc <= 10)%nat /\ (num_boxes sc <= 10)%nat /\ (num_tori sc <= 10)%nat.
End InputsF32.

(** Binary64 inputs: the picker on JavaScript numbers. *)
Section InputsF64.
Import FloatModel.
#[local] Existing Instance f64.

Definition clicked_sphere0_f64 : ObjectPicker.State spec_float :=
  fst (ObjectPicker.handleClick
         (ObjectPicker.constructor 800 600 (repeat (lit 0) 324))
         (fun _ _ => 1%Z) 400 300
         (mk3 (lit 0) (lit 0) (lit 5)) (mk3 (lit 0) (lit 0) (.~ lit 1))).
End InputsF64.

(** ** The vertex stage of the identifier pass *)

(** [vs_main] of the shader source assembled in [ObjectPicker.init]: the
    three corners of one triangle, indexed by the vertex number.  The pass
    draws three vertices; an index outside the array has no determined
    value and is [None] here. *)
Module PickerShader.
Section Vertex.
Context {T : Type} `{Scalar T}.

Definition pos : list (vec2 T) :=
  [mk2 (.~ lit 1) (.~ lit 1); mk2 (lit 3) (.~ lit 1); mk2 (.~ lit 1) (lit 3)].

Definition vs_main (vertexIndex : nat) : option (vec4 T) :=
  match pos !! vertexIndex with
  | Some v => Some (mk4 (x2 v) (y2 v) (lit 0) (lit 1))
  | None => None
  end.
End Vertex.
End PickerShader.

(** ** What a sample of the distance field resolves to *)

(** The winner of one [get_dist]: nothing nearer than the far limit, the
    ground plane, or a slot of one of the three arrays. *)
Inductive Nearest : Type :=
| Nothing
| Ground
| Slot (o : Obj).

Section Resolution.
Context {T : Type} `{Scalar T}.

(** The material tag the shading shaders write for a winner, and the
    identifier the pick shader writes for it. *)
Definition material_tag (n : Nearest) : T :=
  match n with
  | Nothing => .~ lit 1
  | Ground => MAT_PLANE
  | Slot o =>
      match type o with
      | sphere => sphere_tag (index o)
      | box => box_tag (index o)
      | torus => torus_tag (index o)
      end
  end.

Definition pick_id (n : Nearest) : T :=
  match n with
  | Nothing => lit 0
  | Ground => lit 0
  | Slot o => of_u32 (encodeID o)
  end.

Definition count_of (sc : Scene T) (ty : ObjType) : nat :=
  match ty with
  | sphere => num_spheres sc
  | box => num_boxes sc
  | torus => num_tori sc
  end.

(** A slot is active when its index is below the counter of its type and
    below the capacity of the arrays. *)
Definition active_slot (cap : nat) (sc : Scene T) (n : Nearest) : Prop :=
  match n with
  | Slot o => (index o < count_of sc (type o))%nat /\ (index o < cap)%nat
  | _ => True
  end.
End Resolution.

(** ** Loops *)

Section Loops.
Context {A : Type}.

Lemma for_loop_exit (fuel i : nat) (cond : nat -> bool) (body : nat -> A -> A) (s : A) :
  cond i = false -> for_loop fuel i cond body s = s.
Proof. intros Hc. destruct fuel as [|fuel]; simpl; [reflexivity | now rewrite Hc]. Qed.

(** A count-gated loop visits the slots [0 .. min count cap - 1] in order. *)
Lemma for_loop_gated_from (cap n : nat) (body : nat -> A -> A) :
  forall (fuel i : nat) (s : A),
    (i + fuel = cap)%nat ->
    for_loop fuel i (fun j => (j <? n)%nat && (j <? cap)%nat) body s
    = fold_left (fun s j => body j s) (seq i (Nat.min n cap - i)) s.
Proof.
  induction fuel as [|fuel IH]; intros i s Hcap; simpl.
  - replace (Nat.min n cap - i)%nat with 0%nat by lia. reflexivity.
  - destruct (Nat.ltb_spec i n) as [Hn|Hn]; simpl.
    + destruct (Nat.ltb_spec i cap) as [Hc|Hc]; [|lia].
      rewrite IH by lia.
      replace (Nat.min n cap - i)%nat with (S (Nat.min n cap - S i)) by lia.
      reflexivity.
    + replace (Nat.min n cap - i)%nat with 0%nat by lia. reflexivity.
Qed.

Lemma for_loop_gated (cap n : nat) (body : nat -> A -> A) (s : A) :
  for_loop cap 0 (fun j => (j <? n)%nat && (j <? cap)%nat) body s
  = fold_left (fun s j => body j s) (seq 0 (Nat.min n cap)) s.
Proof. rewrite (for_loop_gated_from cap n body cap 0 s) by lia. now rewrite Nat.sub_0_r. Qed.
End Loops.

(** ** Facts of the real-number instance *)

Section RealFacts.
Local Open Scope R_scope.

Lemma Rltb_lt (a b : R) : Rltb a b = true <-> a < b.
Proof. unfold Rltb. destruct (Rlt_dec a b); split; intros; try easy. Qed.

Lemma Rltb_ge (a b : R) : Rltb a b = false <-> b <= a.
Proof. unfold Rltb. destruct (Rlt_dec a b); split; intros; try easy; lra. Qed.

Lemma Rleb_le (a b : R) : Rleb a b = true <-> a <= b.
Proof. unfold Rleb. destruct (Rle_dec a b); split; intros; try easy. Qed.

Lemma Rleb_gt (a b : R) : Rleb a b = false <-> b < a.
Proof. unfold Rleb. destruct (Rle_dec a b); split; intros; try easy; lra. Qed.

Lemma Reqb_eq (a b : R) : Reqb a b = true <-> a = b.
Proof. unfold Reqb. destruct (Req_dec_T a b); split; intros; try easy. Qed.

Lemma fmin_Rmin (a b : R) : fmin a b = Rmin a b.
Proof.
  unfold fmin, Rmin; simpl. unfold Rltb.
  destruct (Rlt_dec b a), (Rle_dec a b); try reflexivity; lra.
Qed.

Lemma fmax_Rmax (a b : R) : fmax a b = Rmax a b.
Proof.
  unfold fmax, Rmax; simpl. unfold Rltb.
  destruct (Rlt_dec a b), (Rle_dec a b); try reflexivity; lra.
Qed.

Lemma closer_dist (dist tag : R) (res : vec2 R) :
  x2 (closer dist tag res) = Rmin (x2 res) dist.
Proof.
  unfold closer, Rmin; simpl. unfold Rltb.
  destruct (Rlt_dec dist (x2 res)), (Rle_dec (x2 res) dist); simpl; try reflexivity; lra.
Qed.

Lemma length3_R (v : vec3 R) : length3 v = sqrt (x3 v * x3 v + y3 v * y3 v + z3 v * z3 v).
Proof. reflexivity. Qed.

Lemma length3_axis (h : R) :
  0 <= h ->
  length3 (mk3 0 h 0) = h /\ length3 (mk3 0 0 h) = h /\ length3 (mk3 (- h) 0 0) = h /\
  length3 (mk3 0 0 (- h)) = h /\ length3 (mk3 h 0 0) = h.
Proof.
  intros Hh. rewrite !length3_R. cbn [x3 y3 z3]. repeat split.
  - replace (0 * 0 + h * h + 0 * 0) with (h * h) by ring. now apply sqrt_square.
  - replace (0 * 0 + 0 * 0 + h * h) with (h * h) by ring. now apply sqrt_square.
  - replace (- h * - h + 0 * 0 + 0 * 0) with (h * h) by ring. now apply sqrt_square.
  - replace (0 * 0 + 0 * 0 + - h * - h) with (h * h) by ring. now apply sqrt_square.
  - replace (h * h + 0 * 0 + 0 * 0) with (h * h) by ring. now apply sqrt_square.
Qed.
End RealFacts.

(** Literals of the real instance are the rationals they denote. *)
Ltac real_lits :=
  cbv [MAX_DIST SURF_DIST MAT_PLANE MAT_SPHERE MAT_BOX MAT_TORUS of_u32 of_int] in *;
  cbn [lit fadd fsub fmul fdiv fneg fabs fsqrt flt fle feq ffloor fround ftrunc
       R_scalar x2 y2 x3 y3 z3] in *;
  unfold Q2R in *; cbn [Qnum Qden inject_Z] in *.

(** ** The distance field with no active primitive *)

Section NoPrimitives.
Context {T : Type} `{Scalar T}.

Lemma passes_skip (sc : Scene T) (p : vec3 T) (res : vec2 T) (cs cb ct : nat)
      (ts tb tt : nat -> T) :
  no_primitives sc ->
  torus_pass ct tt sc p (box_pass cb tb sc p (sphere_pass cs ts sc p res)) = res.
Proof.
  intros (Hs & Hb & Ht). unfold torus_pass, box_pass, sphere_pass.
  rewrite Hs, Hb, Ht. now rewrite !for_loop_exit by reflexivity.
Qed.

(** With no active primitive only the plane test runs, in every variant. *)
Lemma basic_get_dist_no_primitives (sc : Scene T) (p : vec3 T) :
  no_primitives sc ->
  Basic.get_dist sc p = closer (sd_plane p up (lit 0.5)) MAT_PLANE (mk2 MAX_DIST (.~ lit 1)).
Proof. intros Hz. unfold Basic.get_dist. now rewrite passes_skip. Qed.

Lemma dynamic_get_dist_no_primitives (sc : Scene T) (p : vec3 T) :
  no_primitives sc ->
  Dynamic.get_dist sc p = closer (sd_plane p up (lit 0.5)) MAT_PLANE (mk2 MAX_DIST (.~ lit 1)).
Proof. intros Hz. unfold Dynamic.get_dist. now rewrite passes_skip. Qed.
End NoPrimitives.

Section NoPrimitivesReal.
Local Open Scope R_scope.

Lemma sd_plane_up (p : vec3 R) : sd_plane p up (lit 0.5) = y3 p + 1 / 2.
Proof. unfold sd_plane, dot, up. real_lits. lra. Qed.

(** C8, as amended: with the three counters at zero the distance field is
    the ground plane, [dot(p, up) + 0.5] tagged [MAT_PLANE], at every point
    whose plane distance is below [MAX_DIST]; from [MAX_DIST] on it is the
    initial value [(MAX_DIST, -1)]. *)
Theorem zero_primitives_plane_below_max_dist (sc : Scene R) (p : vec3 R) :
  no_primitives sc ->
  (sd_plane p up (lit 0.5) < MAX_DIST ->
     Basic.get_dist sc p = mk2 (sd_plane p up (lit 0.5)) MAT_PLANE /\
     Dynamic.get_dist sc p = mk2 (sd_plane p up (lit 0.5)) MAT_PLANE) /\
  (MAX_DIST <= sd_plane p up (lit 0.5) ->
     Basic.get_dist sc p = mk2 MAX_DIST (-1) /\
     Dynamic.get_dist sc p = mk2 MAX_DIST (-1)).
Proof.
  intros Hz.
  rewrite basic_get_dist_no_primitives, dynamic_get_dist_no_primitives by exact Hz.
  unfold closer. cbn [x2 flt R_scalar].
  split; intros Hd.
  - apply Rltb_lt in Hd. now rewrite Hd.
  - apply Rltb_ge in Hd. rewrite Hd. real_lits.
    replace (- (1 * / 1)) with (-1) by lra. now split.
Qed.

Lemma zero_primitives_plane_below_max_dist_witness :
  no_primitives (empty_scene (T:=R) 3 2 2) /\
  Basic.get_dist (empty_scene 3 2 2) (mk3 0 1 0) = mk2 (3 / 2) 0.
Proof.
  assert (Hz : no_primitives (empty_scene (T:=R) 3 2 2)) by (repeat split).
  split; [exact Hz|].
  destruct (zero_primitives_plane_below_max_dist (empty_scene 3 2 2) (mk3 0 1 0) Hz)
    as [Hlt _].
  destruct Hlt as [Hb _].
  - rewrite sd_plane_up. real_lits. lra.
  - rewrite Hb, sd_plane_up. real_lits. f_equal; lra.
Defined.

(** C8 as stated fails high above the plane: at [(0, 100, 0)] the plane
    is 100.5 away, the test [plane_dist < res.x] against the initial
    [MAX_DIST] fails, and [get_dist] returns [(100, -1)]. *)
Lemma zero_primitives_not_always_plane :
  no_primitives (empty_scene (T:=R) 3 2 2) /\
  Basic.get_dist (empty_scene 3 2 2) (mk3 0 100 0) = mk2 100 (-1) /\
  Basic.get_dist (empty_scene 3 2 2) (mk3 0 100 0)
    <> mk2 (sd_plane (mk3 0 100 0) up (lit 0.5)) MAT_PLANE.
Proof.
  assert (Hz : no_primitives (empty_scene (T:=R) 3 2 2)) by (repeat split).
  assert (Hv : Basic.get_dist (empty_scene 3 2 2) (mk3 0 100 0) = mk2 100 (-1)).
  { rewrite basic_get_dist_no_primitives by exact Hz.
    unfold closer. cbn [x2 flt R_scalar].
    assert (Hd : Rltb (sd_plane (mk3 0 100 0) up (lit 0.5)) MAX_DIST = false).
    { apply Rltb_ge. rewrite sd_plane_up. real_lits. lra. }
    rewrite Hd. real_lits. f_equal; lra. }
  split; [exact Hz|]. split; [exact Hv|].
  rewrite Hv. intros Heq. apply (f_equal x2) in Heq. cbn [x2] in Heq.
  rewrite sd_plane_up in Heq. cbn [y3] in Heq. lra.
Qed.
End NoPrimitivesReal.

(** ** The distance is the minimum over the active primitives *)

Section DistanceIsMin.
Local Open Scope R_scope.

Lemma fold_closer_dist {A : Type} (f tag : A -> R) (l : list A) (res : vec2 R) :
  x2 (fold_left (fun s j => closer (f j) (tag j) s) l res)
  = fold_left Rmin (map f l) (x2 res).
Proof.
  revert res. induction l as [|a l IH]; intros res; simpl; [reflexivity|].
  now rewrite IH, closer_dist.
Qed.

Lemma sphere_pass_dist (cap : nat) (tag : nat -> R) (sc : Scene R) (p : vec3 R) (res : vec2 R) :
  x2 (sphere_pass cap tag sc p res)
  = fold_left Rmin (map (primitive_dist p) (map PSphere (active_spheres cap sc))) (x2 res).
Proof.
  unfold sphere_pass, active_spheres. rewrite for_loop_gated.
  rewrite (fold_closer_dist
             (fun j => sd_sphere (v3_sub p (s_center (sphere_at sc j))) (s_radius (sphere_at sc j)))).
  now rewrite !map_map.
Qed.

Lemma box_pass_dist (cap : nat) (tag : nat -> R) (sc : Scene R) (p : vec3 R) (res : vec2 R) :
  x2 (box_pass cap tag sc p res)
  = fold_left Rmin (map (primitive_dist p) (map PBox (active_boxes cap sc))) (x2 res).
Proof.
  unfold box_pass, active_boxes. rewrite for_loop_gated.
  rewrite (fold_closer_dist
             (fun j => sd_box (v3_sub p (b_center (box_at sc j))) (b_size (box_at sc j)))).
  now rewrite !map_map.
Qed.

Lemma torus_pass_dist (cap : nat) (tag : nat -> R) (sc : Scene R) (p : vec3 R) (res : vec2 R) :
  x2 (torus_pass cap tag sc p res)
  = fold_left Rmin (map (primitive_dist p) (map PTorus (active_tori cap sc))) (x2 res).
Proof.
  unfold torus_pass, active_tori. rewrite for_loop_gated.
  rewrite (fold_closer_dist
             (fun j => sd_torus (v3_sub p (t_center (torus_at sc j))) (t_radii (torus_at sc j)))).
  now rewrite !map_map.
Qed.

(** The distance component of every [get_dist]: the least of [MAX_DIST],
    the plane and the candidates of the active primitives. *)
Lemma basic_get_dist_min (sc : Scene R) (p : vec3 R) :
  x2 (Basic.get_dist sc p)
  = fold_left Rmin (map (primitive_dist p) (active_primitives 3 2 2 sc))
      (Rmin MAX_DIST (sd_plane p up (lit 0.5))).
Proof.
  unfold Basic.get_dist, active_primitives.
  rewrite torus_pass_dist, box_pass_dist, sphere_pass_dist, closer_dist.
  now rewrite !map_app, !fold_left_app.
Qed.

Lemma dynamic_get_dist_min (sc : Scene R) (p : vec3 R) :
  x2 (Dynamic.get_dist sc p)
  = fold_left Rmin (map (primitive_dist p) (active_primitives 10 10 10 sc))
      (Rmin MAX_DIST (sd_plane p up (lit 0.5))).
Proof.
  unfold Dynamic.get_dist, active_primitives.
  rewrite torus_pass_dist, box_pass_dist, sphere_pass_dist, closer_dist.
  now rewrite !map_app, !fold_left_app.
Qed.

(** The two order-free operations: minimum and maximum. *)
Lemma op_union_op_intersect_order_free (a b c : R) :
  op_union a b = op_union b a /\ op_intersect a b = op_intersect b a /\
  op_union a (op_union b c) = op_union (op_union a b) c /\
  op_intersect a (op_intersect b c) = op_intersect (op_intersect a b) c /\
  op_union a a = a /\ op_intersect a a = a.
Proof.
  unfold op_union, op_intersect. rewrite !fmin_Rmin, !fmax_Rmax.
  repeat split.
  - apply Rmin_comm.
  - apply Rmax_comm.
  - apply Rmin_assoc.
  - apply Rmax_assoc.
  - unfold Rmin. destruct (Rle_dec a a); reflexivity.
  - unfold Rmax. destruct (Rle_dec a a); reflexivity.
Qed.

(** The running minimum is below its start and every element, and is one
    of them: it depends on the elements only. *)
Lemma fold_Rmin_bounds (l : list R) (a : R) :
  fold_left Rmin l a <= a /\
  (forall x, In x l -> fold_left Rmin l a <= x) /\
  (fold_left Rmin l a = a \/ In (fold_left Rmin l a) l).
Proof.
  revert a. induction l as [|y l IH]; intros a; simpl.
  - split; [lra|]. split; [intros x []|now left].
  - destruct (IH (Rmin a y)) as (Hle & Hall & Hin).
    pose proof (Rmin_l a y). pose proof (Rmin_r a y).
    split; [lra|]. split.
    + intros x [<-|Hx]; [lra | now apply Hall].
    + destruct Hin as [Heq|Hin]; [|now right; right].
      rewrite Heq. unfold Rmin. destruct (Rle_dec a y); [now left | now right; left].
Qed.

Lemma fold_Rmin_same_elements (l1 l2 : list R) (a : R) :
  (forall x, In x l1 <-> In x l2) -> fold_left Rmin l1 a = fold_left Rmin l2 a.
Proof.
  intros Hsame.
  destruct (fold_Rmin_bounds l1 a) as (Ha1 & Hall1 & Hin1).
  destruct (fold_Rmin_bounds l2 a) as (Ha2 & Hall2 & Hin2).
  apply Rle_antisym.
  - destruct Hin2 as [->|Hin2]; [exact Ha1 | now apply Hall1, Hsame].
  - destruct Hin1 as [->|Hin1]; [exact Ha2 | now apply Hall2, Hsame].
Qed.

(** C5: two scenes with the same set of active primitives, stored in any
    order, have the same distance at every point; [get_dist] combines every
    primitive by union, the only combination it has. *)
Theorem distance_independent_of_storage_order (sc1 sc2 : Scene R) (p : vec3 R) :
  ((forall q, In q (active_primitives 3 2 2 sc1) <-> In q (active_primitives 3 2 2 sc2)) ->
   x2 (Basic.get_dist sc1 p) = x2 (Basic.get_dist sc2 p)) /\
  ((forall q, In q (active_primitives 10 10 10 sc1) <-> In q (active_primitives 10 10 10 sc2)) ->
   x2 (Dynamic.get_dist sc1 p) = x2 (Dynamic.get_dist sc2 p)) /\
  (Permutation (active_primitives 3 2 2 sc1) (active_primitives 3 2 2 sc2) ->
   x2 (Basic.get_dist sc1 p) = x2 (Basic.get_dist sc2 p)) /\
  (Permutation (active_primitives 10 10 10 sc1) (active_primitives 10 10 10 sc2) ->
   x2 (Dynamic.get_dist sc1 p) = x2 (Dynamic.get_dist sc2 p)).
Proof.
  assert (Hmap : forall l1 l2 : list (Primitive R),
             (forall q, In q l1 <-> In q l2) ->
             forall x, In x (map (primitive_dist p) l1) <-> In x (map (primitive_dist p) l2)).
  { intros l1 l2 Hsame x. rewrite !in_map_iff.
    split; intros (q & Hq & Hin); exists q; (split; [exact Hq | now apply Hsame]). }
  assert (Hb : (forall q, In q (active_primitives 3 2 2 sc1) <-> In q (active_primitives 3 2 2 sc2)) ->
               x2 (Basic.get_dist sc1 p) = x2 (Basic.get_dist sc2 p)).
  { intros Hsame. rewrite !basic_get_dist_min. now apply fold_Rmin_same_elements, Hmap. }
  assert (Hd : (forall q, In q (active_primitives 10 10 10 sc1)
                          <-> In q (active_primitives 10 10 10 sc2)) ->
               x2 (Dynamic.get_dist sc1 p) = x2 (Dynamic.get_dist sc2 p)).
  { intros Hsame. rewrite !dynamic_get_dist_min. now apply fold_Rmin_same_elements, Hmap. }
  split; [exact Hb|]. split; [exact Hd|]. split; intros Hperm.
  - apply Hb. intros q. split; apply Permutation_in; [exact Hperm | now symmetry].
  - apply Hd. intros q. split; apply Permutation_in; [exact Hperm | now symmetry].
Qed.
End DistanceIsMin.

Section StorageOrderWitness.
Local Open Scope R_scope.

Lemma distance_independent_of_storage_order_witness :
  Permutation (active_primitives 3 2 2 scene_ab) (active_primitives 3 2 2 scene_ba) /\
  x2 (Basic.get_dist scene_ab (mk3 0 0 0)) = x2 (Basic.get_dist scene_ba (mk3 0 0 0)).
Proof.
  assert (Hperm : Permutation (active_primitives 3 2 2 scene_ab)
                              (active_primitives 3 2 2 scene_ba)) by apply perm_swap.
  split; [exact Hperm|].
  exact (proj1 (proj2 (proj2 (distance_independent_of_storage_order scene_ab scene_ba
                                (mk3 0 0 0)))) Hperm).
Defined.
End StorageOrderWitness.

(** ** Marching onto a sphere at the origin *)

Section SphereMarch.
Local Open Scope R_scope.

Lemma march_S (gd : vec3 R -> vec2 R) (surf maxd : R) (n : nat) (ro rd : vec3 R) (d m : R) :
  march gd surf maxd (S n) ro rd d m
  = if (x2 (gd (v3_add ro (v3_scale rd d))) .< surf)%sc
         || fgt (d + x2 (gd (v3_add ro (v3_scale rd d)))) maxd
    then mk2 (d + x2 (gd (v3_add ro (v3_scale rd d)))) (y2 (gd (v3_add ro (v3_scale rd d))))
    else march gd surf maxd n ro rd (d + x2 (gd (v3_add ro (v3_scale rd d))))
               (y2 (gd (v3_add ro (v3_scale rd d)))).
Proof. reflexivity. Qed.

Lemma dot_self_of_length (v : vec3 R) (l : R) :
  0 <= l -> length3 v = l -> x3 v * x3 v + y3 v * y3 v + z3 v * z3 v = l * l.
Proof.
  intros Hl Hv. rewrite length3_R in Hv. rewrite <- Hv.
  rewrite sqrt_sqrt; [reflexivity|]. nra.
Qed.

Lemma v3_sub_origin (p : vec3 R) : v3_sub p zero3 = p.
Proof. destruct p as [x y z]. unfold v3_sub, zero3, splat3. real_lits. f_equal; lra. Qed.

Lemma ray_at_0 (ro rd : vec3 R) : v3_add ro (v3_scale rd (lit 0)) = ray_at ro rd 0.
Proof. unfold ray_at. real_lits. do 2 f_equal; lra. Qed.

(** On the ray through the origin the sphere's distance is linear. *)
Lemma sd_sphere_on_ray (ro rd : vec3 R) (r d t : R) :
  through_origin ro rd d -> 0 <= t <= d ->
  sd_sphere (ray_at ro rd t) r = d - t - r.
Proof.
  intros (Hro & Hrd & Hend) Ht.
  assert (Hu := dot_self_of_length rd 1 ltac:(lra) Hrd).
  destruct ro as [ox oy oz], rd as [dx dy dz].
  unfold ray_at, v3_add, v3_scale in *. cbn [x3 y3 z3 fadd fmul R_scalar] in *.
  injection Hend as Hx Hy Hz.
  unfold sd_sphere. rewrite length3_R. cbn [x3 y3 z3 fsub R_scalar].
  replace (ox + dx * t) with (- dx * (d - t)) by lra.
  replace (oy + dy * t) with (- dy * (d - t)) by lra.
  replace (oz + dz * t) with (- dz * (d - t)) by lra.
  replace (- dx * (d - t) * (- dx * (d - t)) + - dy * (d - t) * (- dy * (d - t))
           + - dz * (d - t) * (- dz * (d - t)))
    with ((dx * dx + dy * dy + dz * dz) * ((d - t) * (d - t))) by ring.
  rewrite Hu.
  replace (1 * 1 * ((d - t) * (d - t))) with ((d - t) * (d - t)) by ring.
  rewrite sqrt_square by lra. lra.
Qed.

Lemma basic_get_dist_one_sphere (sc : Scene R) (r : R) (p : vec3 R) :
  one_sphere_at_origin sc r ->
  Basic.get_dist sc p
  = closer (sd_sphere p r) 1
      (closer (sd_plane p up (lit 0.5)) MAT_PLANE (mk2 MAX_DIST (-1))).
Proof.
  intros (Hs & Hb & Ht & Hc & Hr).
  unfold Basic.get_dist, torus_pass, box_pass, sphere_pass.
  rewrite Hs, Hb, Ht. rewrite !for_loop_exit by reflexivity.
  cbn [for_loop Nat.ltb Nat.leb andb]. rewrite Hc, Hr, v3_sub_origin.
  fold (@up R _). real_lits.
  replace (1 * / 1 + IZR (Z.of_nat 0) * / 1 * (1 * / 10)) with 1 by (change (Z.of_nat 0) with 0%Z; lra).
  replace (- (1 * / 1)) with (-1) by lra. reflexivity.
Qed.

Lemma dynamic_get_dist_one_sphere (sc : Scene R) (r : R) (p : vec3 R) :
  one_sphere_at_origin sc r ->
  Dynamic.get_dist sc p
  = closer (sd_sphere p r) 1
      (closer (sd_plane p up (lit 0.5)) MAT_PLANE (mk2 MAX_DIST (-1))).
Proof.
  intros (Hs & Hb & Ht & Hc & Hr).
  unfold Dynamic.get_dist, torus_pass, box_pass, sphere_pass.
  rewrite Hs, Hb, Ht. rewrite !for_loop_exit by reflexivity.
  cbn [for_loop Nat.ltb Nat.leb andb]. rewrite Hc, Hr, v3_sub_origin.
  fold (@up R _). real_lits.
  replace (1 * / 1 + IZR (Z.of_nat 0) * / 1 * (1 * / 10)) with 1 by (change (Z.of_nat 0) with 0%Z; lra).
  replace (- (1 * / 1)) with (-1) by lra. reflexivity.
Qed.

(** Far from the sphere, with the plane behind it, the field is capped. *)
Lemma field_on_ray_far (ro rd : vec3 R) (r d t : R) :
  through_origin ro rd d -> plane_clear ro rd r d ->
  0 <= t <= d - r -> 0 < r -> 100 <= d - t - r ->
  closer (sd_sphere (ray_at ro rd t) r) 1
    (closer (sd_plane (ray_at ro rd t) up (lit 0.5)) MAT_PLANE (mk2 MAX_DIST (-1)))
  = mk2 100 (-1).
Proof.
  intros Hray Hclear Ht Hr Hfar.
  specialize (Hclear t Ht).
  rewrite (sd_sphere_on_ray ro rd r d t Hray) in * by lra.
  unfold closer at 2. cbn [x2 flt R_scalar].
  replace (Rltb (sd_plane (ray_at ro rd t) up (lit 0.5)) MAX_DIST) with false.
  - unfold closer. cbn [x2 flt R_scalar].
    replace (Rltb (d - t - r) MAX_DIST) with false.
    + real_lits. f_equal; lra.
    + symmetry. apply Rltb_ge. real_lits. lra.
  - symmetry. apply Rltb_ge. real_lits. lra.
Qed.

(** The one-sphere field at a point of the ray, by which of the two
    surfaces is nearer. *)
Lemma field_on_ray (ro rd : vec3 R) (r d t : R) :
  through_origin ro rd d -> 0 <= t <= d - r -> 0 < r -> d - r < 100 ->
  let s := d - t - r in
  let h := sd_plane (ray_at ro rd t) up (lit 0.5) in
  let f := closer (sd_sphere (ray_at ro rd t) r) 1
             (closer h MAT_PLANE (mk2 MAX_DIST (-1))) in
  (s < h -> f = mk2 s 1) /\ (h <= s -> f = mk2 h MAT_PLANE).
Proof.
  intros Hray Ht Hr Hnear. cbv zeta.
  rewrite (sd_sphere_on_ray ro rd r d t Hray) by lra.
  set (h := sd_plane (ray_at ro rd t) up (lit 0.5)).
  unfold closer at 2 4. cbn [x2 flt R_scalar].
  assert (HM : MAX_DIST = 100) by (real_lits; lra).
  split; intros Hsh.
  - destruct (Rltb h MAX_DIST) eqn:Hp; unfold closer; cbn [x2 flt R_scalar].
    + replace (Rltb (d - t - r) h) with true; [reflexivity|].
      symmetry. now apply Rltb_lt.
    + replace (Rltb (d - t - r) MAX_DIST) with true; [reflexivity|].
      symmetry. apply Rltb_lt. lra.
  - replace (Rltb h MAX_DIST) with true by (symmetry; apply Rltb_lt; lra).
    unfold closer. cbn [x2 flt R_scalar].
    replace (Rltb (d - t - r) h) with false; [reflexivity|].
    symmetry. now apply Rltb_ge.
Qed.

Section OneSphereMarch.
Variables (gd : vec3 R -> vec2 R) (ro rd : vec3 R) (r d m : R).
Hypothesis Hgd :
  forall p, gd p = closer (sd_sphere p r) 1
                     (closer (sd_plane p up (lit 0.5)) MAT_PLANE (mk2 MAX_DIST (-1))).
Hypothesis Hrd : 0 < r < d.
Hypothesis Hray : through_origin ro rd d.
Hypothesis Hnear : d - r < 100.
Hypothesis Hm : SURF_DIST <= m.
Hypothesis Hoff : plane_keeps_off ro rd r d m.

(** Once the march stands on the sphere it stays there: the next sample is
    a zero step onto the sphere, which ends the loop. *)
Lemma march_on_surface (n : nat) :
  march gd SURF_DIST MAX_DIST n ro rd (d - r) 1 = mk2 (d - r) 1.
Proof.
  destruct n as [|n]; [reflexivity|].
  assert (HS : SURF_DIST = 1 / 1000) by (real_lits; lra).
  rewrite march_S. fold (ray_at ro rd (d - r)). rewrite Hgd.
  destruct (field_on_ray ro rd r d (d - r) Hray ltac:(lra) ltac:(lra) Hnear) as [Hs _].
  cbv zeta in Hs. rewrite Hs.
  - cbn [x2 y2].
    replace (Rltb (d - (d - r) - r) SURF_DIST) with true
      by (symmetry; apply Rltb_lt; lra).
    cbn [orb]. f_equal. lra.
  - destruct (Hoff (d - r) ltac:(lra)) as [Hlt|Hge].
    + rewrite (sd_sphere_on_ray ro rd r d (d - r) Hray) in Hlt by lra. exact Hlt.
    + lra.
Qed.

(** With [n] samples left at distance [t], the march reaches the sphere when
    the way left is shorter than [n] steps of the margin: a sample nearer to
    the plane advances by at least [m] and does not overshoot, a sample
    nearer to the sphere lands on it. *)
Lemma march_reaches_sphere (n : nat) :
  forall t tag : R,
    0 <= t <= d - r -> d - r - t < INR n * m ->
    march gd SURF_DIST MAX_DIST n ro rd t tag = mk2 (d - r) 1.
Proof.
  assert (HS : SURF_DIST = 1 / 1000) by (real_lits; lra).
  assert (HM : MAX_DIST = 100) by (real_lits; lra).
  induction n as [|n IH]; intros t tag Ht Hleft.
  - simpl in Hleft. lra.
  - rewrite S_INR in Hleft. rewrite march_S. fold (ray_at ro rd t). rewrite Hgd.
    destruct (field_on_ray ro rd r d t Hray Ht ltac:(lra) Hnear) as [Hs Hp].
    cbv zeta in Hs, Hp.
    set (h := sd_plane (ray_at ro rd t) up (lit 0.5)) in *.
    destruct (Rlt_dec (d - t - r) h) as [Hsh|Hsh].
    + rewrite (Hs Hsh). cbn [x2 y2]. unfold fgt. cbn [flt R_scalar].
      replace (t + (d - t - r)) with (d - r) by ring.
      replace (Rltb MAX_DIST (d - r)) with false by (symmetry; apply Rltb_ge; lra).
      rewrite orb_false_r.
      destruct (Rltb (d - t - r) SURF_DIST); [reflexivity | apply march_on_surface].
    + assert (Hhs : h <= d - t - r) by lra.
      assert (Hmh : m <= h).
      { destruct (Hoff t Ht) as [Hlt|Hge]; [|exact Hge].
        rewrite (sd_sphere_on_ray ro rd r d t Hray) in Hlt by lra. fold h in Hlt. lra. }
      rewrite (Hp Hhs). cbn [x2 y2]. unfold fgt. cbn [flt R_scalar].
      replace (Rltb h SURF_DIST) with false by (symmetry; apply Rltb_ge; lra).
      replace (Rltb MAX_DIST (t + h)) with false by (symmetry; apply Rltb_ge; lra).
      cbn [orb]. apply IH; lra.
Qed.
End OneSphereMarch.

(** An origin level with the centre of the sphere or above it keeps the
    whole ray at least 0.5 above the ground. *)
Lemma level_origin_keeps_off (ro rd : vec3 R) (r d : R) :
  0 < r < d -> through_origin ro rd d -> 0 <= y3 ro -> plane_keeps_off ro rd r d (1 / 2).
Proof.
  intros Hrd (_ & _ & Hend) Hy t Ht. right. rewrite sd_plane_up.
  destruct ro as [ox oy oz], rd as [dx dy dz].
  unfold ray_at, v3_add, v3_scale in *. cbn [x3 y3 z3 fadd fmul R_scalar] in *.
  injection Hend as _ Hyd _.
  assert (Hprod : 0 <= oy * (d - t)) by (apply Rmult_le_pos; lra).
  assert (Hd : d * (oy + dy * t) = oy * (d - t)) by (replace (oy) with (- (dy * d)) at 1 by lra; nra).
  assert (Hpos : 0 <= d * (oy + dy * t)) by lra.
  assert (0 <= oy + dy * t); [|lra].
  destruct (Rle_dec 0 (oy + dy * t)) as [Hok|Hneg]; [exact Hok|].
  exfalso. assert (d * (oy + dy * t) < 0) by (apply Ropp_lt_cancel; rewrite Ropp_0; nra). lra.
Qed.

(** Beyond [MAX_DIST] the march takes two blind steps of [MAX_DIST]. *)
Lemma march_one_sphere_far (gd : vec3 R -> vec2 R) (ro rd : vec3 R) (r d : R) (n : nat) :
  (forall p, gd p = closer (sd_sphere p r) 1
                      (closer (sd_plane p up (lit 0.5)) MAT_PLANE (mk2 MAX_DIST (-1)))) ->
  0 < r -> through_origin ro rd d -> plane_clear ro rd r d -> 200 <= d - r ->
  march gd SURF_DIST MAX_DIST (S (S n)) ro rd (lit 0) (-1) = mk2 200 (-1).
Proof.
  intros Hgd Hr Hray Hclear Hfar.
  rewrite march_S, ray_at_0, Hgd.
  rewrite (field_on_ray_far ro rd r d 0 Hray Hclear) by lra.
  cbn [x2 y2]. unfold fgt. cbn [flt R_scalar].
  replace (lit 0 + 100) with 100 by (real_lits; lra).
  replace (Rltb 100 SURF_DIST) with false by (symmetry; apply Rltb_ge; real_lits; lra).
  replace (Rltb MAX_DIST 100) with false by (symmetry; apply Rltb_ge; real_lits; lra).
  cbn [orb].
  rewrite march_S. fold (ray_at ro rd 100). rewrite Hgd.
  rewrite (field_on_ray_far ro rd r d 100 Hray Hclear) by lra.
  cbn [x2 y2].
  unfold fgt. cbn [flt R_scalar].
  replace (Rltb MAX_DIST (100 + 100)) with true by (symmetry; apply Rltb_lt; real_lits; lra).
  rewrite orb_true_r. f_equal. lra.
Qed.

(** A ray straight down onto the origin from height [h]. *)
Lemma vertical_ray_through_origin (h : R) :
  0 < h -> through_origin (mk3 0 h 0) (mk3 0 (-1) 0) h.
Proof.
  intros Hh. unfold through_origin, ray_at, v3_add, v3_scale.
  rewrite !length3_R. cbn [x3 y3 z3 fadd fmul R_scalar]. repeat split.
  - replace (0 * 0 + h * h + 0 * 0) with (h * h) by ring. apply sqrt_square. lra.
  - replace (0 * 0 + -1 * -1 + 0 * 0) with (1 * 1) by ring. apply sqrt_square. lra.
  - f_equal; lra.
Qed.

Lemma vertical_ray_plane_clear (h r : R) :
  0 < h -> 0 < r -> plane_clear (mk3 0 h 0) (mk3 0 (-1) 0) r h.
Proof.
  intros Hh Hr t Ht.
  rewrite (sd_sphere_on_ray _ _ r h t (vertical_ray_through_origin h Hh)) by lra.
  rewrite sd_plane_up. unfold ray_at, v3_add, v3_scale.
  cbn [x3 y3 z3 fadd fmul R_scalar]. lra.
Qed.

Lemma unit_sphere_scene_one_sphere : one_sphere_at_origin unit_sphere_scene 1.
Proof. repeat split. Qed.

(** An origin below that level keeps the ray at least as high above the
    ground as the origin is: the ray climbs toward the centre. *)
Lemma low_origin_keeps_off (ro rd : vec3 R) (r d : R) :
  0 < r < d -> through_origin ro rd d -> y3 ro <= 0 ->
  plane_keeps_off ro rd r d (y3 ro + 1 / 2).
Proof.
  intros Hrd (_ & _ & Hend) Hy t Ht. right. rewrite sd_plane_up.
  destruct ro as [ox oy oz], rd as [dx dy dz].
  unfold ray_at, v3_add, v3_scale in *. cbn [x3 y3 z3 fadd fmul R_scalar] in *.
  injection Hend as _ Hyd _.
  assert (Hdy : 0 <= dy).
  { destruct (Rle_dec 0 dy) as [Hok|Hneg]; [exact Hok|].
    exfalso. assert (dy * d < 0) by (apply Ropp_lt_cancel; rewrite Ropp_0; nra). lra. }
  assert (0 <= dy * t) by (apply Rmult_le_pos; lra). lra.
Qed.

Lemma horizontal_ray_through_origin (h : R) :
  0 < h -> through_origin (mk3 h 0 0) (mk3 (- (1)) 0 0) h.
Proof.
  intros Hh. unfold through_origin. split; [|split].
  - apply (length3_axis h). lra.
  - apply (length3_axis 1). lra.
  - unfold ray_at, v3_add, v3_scale. cbn [x3 y3 z3 fadd fmul R_scalar]. f_equal; lra.
Qed.

(** C4, as amended: one sphere of radius [r] at the origin, a unit ray
    through the origin from distance [d > r], the sphere's surface nearer
    than [MAX_DIST] ([d - r < MAX_DIST]) and the ground plane not
    intervening: wherever along the ray the sphere is not the nearer
    surface, the plane is at least [m] away, with [SURF_DIST <= m] and
    [d - r < MAX_STEPS * m].  Then the march returns a hit ([t < MAX_DIST])
    on the sphere at [t = d - r], which is within [SURF_DIST] of [d - r].
    A ray along which the sphere is always the nearer surface qualifies;
    so does every origin level with the centre of the sphere or above it,
    with [m = 0.5]; and so does an origin below that level with [m] its
    height above the ground. *)
Theorem sphere_march_hits_at_d_minus_r (sc : Scene R) (ro rd : vec3 R) (r d : R) :
  one_sphere_at_origin sc r -> 0 < r < d ->
  through_origin ro rd d ->
  d - r < MAX_DIST ->
  let hit :=
    (x2 (Basic.ray_march sc ro rd) < MAX_DIST /\
     Rabs (x2 (Basic.ray_march sc ro rd) - (d - r)) <= SURF_DIST /\
     x2 (Basic.ray_march sc ro rd) = d - r /\
     y2 (Basic.ray_march sc ro rd) = MAT_SPHERE) /\
    (x2 (Dynamic.ray_march sc ro rd) < MAX_DIST /\
     Rabs (x2 (Dynamic.ray_march sc ro rd) - (d - r)) <= SURF_DIST /\
     x2 (Dynamic.ray_march sc ro rd) = d - r /\
     y2 (Dynamic.ray_march sc ro rd) = MAT_SPHERE) in
  (forall m : R,
     SURF_DIST <= m -> d - r < INR MAX_STEPS * m -> plane_keeps_off ro rd r d m -> hit) /\
  (plane_clear ro rd r d -> hit) /\
  (0 <= y3 ro -> hit) /\
  (y3 ro <= 0 -> SURF_DIST <= y3 ro + 1 / 2 -> d - r < INR MAX_STEPS * (y3 ro + 1 / 2) -> hit).
Proof.
  intros Hsc Hrd Hray Hnear. cbv zeta.
  assert (Hmax : d - r < 100) by (revert Hnear; real_lits; lra).
  assert (Hgen : forall m : R,
            SURF_DIST <= m -> d - r < INR MAX_STEPS * m -> plane_keeps_off ro rd r d m ->
            Basic.ray_march sc ro rd = mk2 (d - r) 1 /\
            Dynamic.ray_march sc ro rd = mk2 (d - r) 1).
  { intros m Hm Hsteps Hoff.
    unfold Basic.ray_march, Dynamic.ray_march.
    replace (.~ lit 1)%sc with (-1) by (real_lits; lra).
    replace (lit 0) with 0 by (real_lits; lra).
    split.
    - apply (march_reaches_sphere (Basic.get_dist sc) ro rd r d m); try assumption; try lra.
      intros p. now apply basic_get_dist_one_sphere.
    - apply (march_reaches_sphere (Dynamic.get_dist sc) ro rd r d m); try assumption; try lra.
      intros p. now apply dynamic_get_dist_one_sphere. }
  assert (Hhit : forall m : R,
            SURF_DIST <= m -> d - r < INR MAX_STEPS * m -> plane_keeps_off ro rd r d m ->
            (x2 (Basic.ray_march sc ro rd) < MAX_DIST /\
             Rabs (x2 (Basic.ray_march sc ro rd) - (d - r)) <= SURF_DIST /\
             x2 (Basic.ray_march sc ro rd) = d - r /\
             y2 (Basic.ray_march sc ro rd) = MAT_SPHERE) /\
            (x2 (Dynamic.ray_march sc ro rd) < MAX_DIST /\
             Rabs (x2 (Dynamic.ray_march sc ro rd) - (d - r)) <= SURF_DIST /\
             x2 (Dynamic.ray_march sc ro rd) = d - r /\
             y2 (Dynamic.ray_march sc ro rd) = MAT_SPHERE)).
  { intros m Hm Hsteps Hoff. destruct (Hgen m Hm Hsteps Hoff) as [Hb Hd].
    rewrite Hb, Hd. cbn [x2 y2].
    replace (d - r - (d - r)) with 0 by ring. rewrite Rabs_R0.
    real_lits. repeat split; lra. }
  assert (H256 : INR MAX_STEPS = 256) by (unfold MAX_STEPS; rewrite INR_IZR_INZ; reflexivity).
  split; [exact Hhit|]. split.
  - intros Hclear. apply (Hhit 1).
    + real_lits; lra.
    + rewrite H256. lra.
    + intros t Ht. left. now apply Hclear.
  - split.
    + intros Hy. apply (Hhit (1 / 2)).
      * real_lits; lra.
      * rewrite H256. lra.
      * now apply level_origin_keeps_off.
    + intros Hy Hm Hsteps. apply (Hhit (y3 ro + 1 / 2) Hm Hsteps).
      now apply low_origin_keeps_off.
Qed.

(** From (5, 0, 0) toward the unit sphere the plane, 0.5 below the ray, is
    the surface that sets the step for the first eight samples. *)
Lemma sphere_march_hits_at_d_minus_r_witness :
  x2 (Basic.ray_march unit_sphere_scene (mk3 5 0 0) (mk3 (- (1)) 0 0)) < MAX_DIST /\
  Rabs (x2 (Basic.ray_march unit_sphere_scene (mk3 5 0 0) (mk3 (- (1)) 0 0)) - (5 - 1))
    <= SURF_DIST.
Proof.
  destruct (sphere_march_hits_at_d_minus_r unit_sphere_scene (mk3 5 0 0) (mk3 (- (1)) 0 0) 1 5)
    as (_ & _ & Hlevel & _).
  - exact unit_sphere_scene_one_sphere.
  - lra.
  - apply horizontal_ray_through_origin; lra.
  - real_lits; lra.
  - destruct Hlevel as [(Hhit & Hnear & _) _].
    + cbn [y3]. lra.
    + split; assumption.
Defined.

(** C4 as stated fails for a far origin: from height 300 above the unit
    sphere every hypothesis of the claim holds, but the field is capped at
    [MAX_DIST], the march takes two steps of 100 and returns [(200, -1)]:
    no hit, and 99 away from [d - r = 299]. *)
Lemma sphere_march_far_origin_misses :
  one_sphere_at_origin unit_sphere_scene 1 /\ 0 < 1 < 300 /\
  through_origin (mk3 0 300 0) (mk3 0 (-1) 0) 300 /\
  plane_clear (mk3 0 300 0) (mk3 0 (-1) 0) 1 300 /\
  Basic.ray_march unit_sphere_scene (mk3 0 300 0) (mk3 0 (-1) 0) = mk2 200 (-1) /\
  ~ (x2 (Basic.ray_march unit_sphere_scene (mk3 0 300 0) (mk3 0 (-1) 0)) < MAX_DIST /\
     Rabs (x2 (Basic.ray_march unit_sphere_scene (mk3 0 300 0) (mk3 0 (-1) 0)) - (300 - 1))
       <= SURF_DIST).
Proof.
  assert (Hray : through_origin (mk3 0 300 0) (mk3 0 (-1) 0) 300)
    by (apply vertical_ray_through_origin; lra).
  assert (Hclear : plane_clear (mk3 0 300 0) (mk3 0 (-1) 0) 1 300)
    by (apply vertical_ray_plane_clear; lra).
  assert (Hm : Basic.ray_march unit_sphere_scene (mk3 0 300 0) (mk3 0 (-1) 0) = mk2 200 (-1)).
  { unfold Basic.ray_march, MAX_STEPS.
    replace (.~ lit 1)%sc with (-1) by (real_lits; lra).
    apply (march_one_sphere_far _ _ _ 1 300); try assumption; try lra.
    intros p. apply basic_get_dist_one_sphere, unit_sphere_scene_one_sphere. }
  split; [exact unit_sphere_scene_one_sphere|].
  split; [lra|]. split; [exact Hray|]. split; [exact Hclear|]. split; [exact Hm|].
  rewrite Hm. cbn [x2]. intros [Hhit _]. revert Hhit. real_lits. lra.
Qed.
End SphereMarch.


(** ** How [get_dist] combines the primitives *)

Section Combination.
Local Open Scope R_scope.

Lemma fold_left_map_arg {A B C : Type} (f : C -> B -> C) (g : A -> B) (l : list A) (c : C) :
  fold_left f (map g l) c = fold_left (fun c a => f c (g a)) l c.
Proof. revert c. induction l as [|a l IH]; intros c; simpl; [reflexivity | apply IH]. Qed.

Lemma passes_fold (cs cb ct : nat) (ts tb tt : nat -> R) (sc : Scene R) (p : vec3 R)
      (res : vec2 R) :
  torus_pass ct tt sc p (box_pass cb tb sc p (sphere_pass cs ts sc p res))
  = fold_left (combine_step p) (tagged_primitives cs cb ct ts tb tt sc) res.
Proof.
  unfold torus_pass, box_pass, sphere_pass, tagged_primitives.
  rewrite !for_loop_gated, !fold_left_app, !fold_left_map_arg. reflexivity.
Qed.

Lemma closer_union (c tag : R) (res : vec2 R) :
  x2 (closer c tag res) = spec_combine_dist Union 0 c (x2 res) /\
  y2 (closer c tag res) = (if Rlt_dec c (x2 res) then tag else y2 res).
Proof.
  unfold closer, spec_combine_dist, fmin. cbn [flt R_scalar]. unfold Rltb.
  destruct (Rlt_dec c (x2 res)); split; reflexivity.
Qed.

Lemma op_subtract_max (candidate existing : R) :
  op_subtract candidate existing = Rmax (- candidate) existing.
Proof. unfold op_subtract. now rewrite fmax_Rmax. Qed.

Lemma clamp_R (e : R) : clamp e (lit 0) (lit 1) = Rmin (Rmax e 0) 1.
Proof.
  unfold clamp. rewrite fmin_Rmin, fmax_Rmax. real_lits.
  replace (0 * / 1) with 0 by lra. replace (1 * / 1) with 1 by lra. reflexivity.
Qed.

(** [op_smooth_union] is the polynomial smooth minimum: with
    [h = clamp(0.5 + 0.5 (d2 - d1) / k, 0, 1)] it is
    [mix(d2, d1, h) - k h (1 - h)]. *)
Lemma op_smooth_union_poly (d1 d2 k : R) :
  let h := Rmin (Rmax (1 / 2 + 1 / 2 * (d2 - d1) / k) 0) 1 in
  op_smooth_union d1 d2 k = d2 * (1 - h) + d1 * h - k * h * (1 - h).
Proof.
  unfold op_smooth_union, mix. rewrite clamp_R. real_lits.
  replace (5 * / 10 + 5 * / 10 * (d2 - d1) / k) with (1 / 2 + 1 / 2 * (d2 - d1) / k) by lra.
  cbv zeta. lra.
Qed.

(** The three regimes of the smooth minimum. *)
Lemma op_smooth_union_cases (d1 d2 k : R) :
  0 < k ->
  (k <= d1 - d2 /\ op_smooth_union d1 d2 k = d2) \/
  (k <= d2 - d1 /\ op_smooth_union d1 d2 k = d1) \/
  (Rabs (d1 - d2) < k /\
   op_smooth_union d1 d2 k = d1 - (k - (d2 - d1)) * (k - (d2 - d1)) / (4 * k) /\
   op_smooth_union d1 d2 k = d2 - (k + (d2 - d1)) * (k + (d2 - d1)) / (4 * k)).
Proof.
  intros Hk. rewrite op_smooth_union_poly. cbv zeta.
  set (e := 1 / 2 + 1 / 2 * (d2 - d1) / k).
  assert (He : e * (2 * k) = k + (d2 - d1)) by (unfold e; field; lra).
  destruct (Rle_dec e 0) as [H0|H0].
  - left. rewrite Rmax_right, Rmin_left by lra. split; [nra | ring].
  - rewrite Rmax_left by lra.
    destruct (Rle_dec 1 e) as [H1|H1].
    + right; left. rewrite Rmin_right by lra. split; [nra | ring].
    + right; right. rewrite Rmin_left by lra.
      assert (Hek : e = (k + (d2 - d1)) / (2 * k)) by (unfold e; field; lra).
      split; [|split].
      * apply Rabs_def1; nra.
      * rewrite Hek. field; lra.
      * rewrite Hek. field; lra.
Qed.

Lemma op_smooth_union_le_min (d1 d2 k : R) :
  0 < k -> op_smooth_union d1 d2 k <= Rmin d1 d2.
Proof.
  intros Hk.
  destruct (op_smooth_union_cases d1 d2 k Hk) as [[H E]|[[H E]|(H & E1 & E2)]].
  - rewrite E, Rmin_right by lra. lra.
  - rewrite E, Rmin_left by lra. lra.
  - apply Rmin_glb.
    + rewrite E1.
      assert (0 <= (k - (d2 - d1)) * (k - (d2 - d1)) / (4 * k)).
      { apply Rmult_le_pos; [apply Rle_0_sqr|]. left. apply Rinv_0_lt_compat. lra. }
      lra.
    + rewrite E2.
      assert (0 <= (k + (d2 - d1)) * (k + (d2 - d1)) / (4 * k)).
      { apply Rmult_le_pos; [apply Rle_0_sqr|]. left. apply Rinv_0_lt_compat. lra. }
      lra.
Qed.

Lemma op_smooth_union_far (d1 d2 k : R) :
  0 < k -> k <= Rabs (d1 - d2) -> op_smooth_union d1 d2 k = Rmin d1 d2.
Proof.
  intros Hk Hfar.
  destruct (op_smooth_union_cases d1 d2 k Hk) as [[H E]|[[H E]|(H & _)]].
  - rewrite E, Rmin_right by lra. reflexivity.
  - rewrite E, Rmin_left by lra. reflexivity.
  - lra.
Qed.

(** C2, as amended: [get_dist] folds one and the same step over the active
    primitives in storage order, the union step (the distance becomes the
    minimum and the tag is the nearer one's); the primitives store no blend
    mode and no blend strength.  [op_subtract(candidate, existing)] is
    [max(-candidate, existing)] and [op_smooth_union] is the polynomial
    smooth minimum with strength [k], as functions that [get_dist] does not
    call. *)
Theorem get_dist_combines_by_union (sc : Scene R) (p : vec3 R) :
  let plane := closer (sd_plane p up (lit 0.5)) MAT_PLANE (mk2 MAX_DIST (.~ lit 1)%sc) in
  Basic.get_dist sc p
  = fold_left (combine_step p) (tagged_primitives 3 2 2 sphere_tag box_tag torus_tag sc) plane /\
  Dynamic.get_dist sc p
  = fold_left (combine_step p) (tagged_primitives 10 10 10 sphere_tag box_tag torus_tag sc) plane /\
  (forall (res : vec2 R) (q : Primitive R * R),
     x2 (combine_step p res q) = spec_combine_dist Union 0 (primitive_dist p (fst q)) (x2 res) /\
     x2 (combine_step p res q) = Rmin (x2 res) (primitive_dist p (fst q)) /\
     y2 (combine_step p res q)
     = (if Rlt_dec (primitive_dist p (fst q)) (x2 res) then snd q else y2 res)) /\
  (forall candidate existing : R,
     op_subtract candidate existing = Rmax (- candidate) existing /\
     op_subtract candidate existing = spec_combine_dist Subtract 0 candidate existing) /\
  (forall d1 d2 k : R,
     let h := Rmin (Rmax (1 / 2 + 1 / 2 * (d2 - d1) / k) 0) 1 in
     op_smooth_union d1 d2 k = d2 * (1 - h) + d1 * h - k * h * (1 - h) /\
     (0 < k -> op_smooth_union d1 d2 k <= Rmin d1 d2) /\
     (0 < k -> k <= Rabs (d1 - d2) -> op_smooth_union d1 d2 k = Rmin d1 d2)).
Proof.
  cbv zeta. split; [|split; [|split; [|split]]].
  - unfold Basic.get_dist. apply passes_fold.
  - unfold Dynamic.get_dist. apply passes_fold.
  - intros res q. unfold combine_step.
    destruct (closer_union (primitive_dist p (fst q)) (snd q) res) as [Hx Hy].
    split; [exact Hx|]. split; [apply closer_dist | exact Hy].
  - intros c e. split; [apply op_subtract_max | reflexivity].
  - intros d1 d2 k. split; [apply op_smooth_union_poly|].
    split; [apply op_smooth_union_le_min | apply op_smooth_union_far].
Qed.

Lemma sd_sphere_at_origin (r : R) : sd_sphere (mk3 0 0 0) r = - r.
Proof.
  unfold sd_sphere. rewrite length3_R. cbn [x3 y3 z3 fsub R_scalar].
  replace (0 * 0 + 0 * 0 + 0 * 0) with 0 by ring. rewrite sqrt_0. lra.
Qed.

(** C2 as stated fails: were the unit sphere at the origin stored with mode
    Subtract, the rule of the design document would carve it out of the
    plane at the origin, [max(1, 1/2) = 1] with the plane's tag; [get_dist]
    returns the union, [-1] with the sphere's tag. *)
Lemma subtract_mode_not_applied :
  let p := mk3 0 0 0 in
  let existing := closer (sd_plane p up (lit 0.5)) MAT_PLANE (mk2 MAX_DIST (-1)) in
  let candidate := sd_sphere p 1 in
  Basic.get_dist unit_sphere_scene p = closer candidate 1 existing /\
  Basic.get_dist unit_sphere_scene p = mk2 (-1) 1 /\
  existing = mk2 (1 / 2) MAT_PLANE /\
  spec_combine_dist Subtract (1 / 10) candidate (x2 existing) = 1 /\
  x2 (Basic.get_dist unit_sphere_scene p)
    <> spec_combine_dist Subtract (1 / 10) candidate (x2 existing) /\
  y2 (Basic.get_dist unit_sphere_scene p) <> y2 existing.
Proof.
  cbv zeta.
  assert (He : closer (sd_plane (mk3 0 0 0) up (lit 0.5)) MAT_PLANE (mk2 MAX_DIST (-1))
               = mk2 (1 / 2) MAT_PLANE).
  { unfold closer. cbn [x2 flt R_scalar]. rewrite sd_plane_up. cbn [y3].
    replace (Rltb (0 + 1 / 2) MAX_DIST) with true
      by (symmetry; apply Rltb_lt; real_lits; lra).
    f_equal. lra. }
  assert (Hg : Basic.get_dist unit_sphere_scene (mk3 0 0 0) = mk2 (-1) 1).
  { rewrite (basic_get_dist_one_sphere _ 1 _ unit_sphere_scene_one_sphere).
    rewrite He, sd_sphere_at_origin. unfold closer. cbn [x2 flt R_scalar].
    replace (Rltb (- (1)) (1 / 2)) with true by (symmetry; apply Rltb_lt; lra).
    reflexivity. }
  assert (Hs : spec_combine_dist Subtract (1 / 10) (sd_sphere (mk3 0 0 0) 1) (1 / 2) = 1).
  { unfold spec_combine_dist. rewrite fmax_Rmax, sd_sphere_at_origin.
    cbn [fneg R_scalar]. rewrite Rmax_left by lra. lra. }
  split; [apply (basic_get_dist_one_sphere _ 1 _ unit_sphere_scene_one_sphere)|].
  split; [exact Hg|]. split; [exact He|].
  rewrite He, Hg. cbn [x2 y2]. split; [exact Hs|]. rewrite Hs.
  split; [lra | real_lits; lra].
Qed.
End Combination.


(** ** Material tags: the margin of the rounding *)

Section MaterialTagMargin.
Local Open Scope R_scope.

Lemma Int_part_near (z : Z) (x : R) :
  Rabs (x - IZR z) < 1 / 2 ->
  (IZR z <= x /\ Int_part x = z) \/ (x < IZR z /\ Int_part x = (z - 1)%Z).
Proof.
  intros Hx. apply Rabs_def2 in Hx. destruct Hx as [Hlo Hhi].
  destruct (Rle_dec (IZR z) x) as [Hle|Hgt].
  - left. split; [exact Hle|]. symmetry. apply Int_part_spec. lra.
  - right. split; [lra|]. symmetry. apply Int_part_spec. rewrite minus_IZR. lra.
Qed.

(** A value within one half of an integer rounds to it, with [round] and
    with [floor(x + 0.5)]. *)
Lemma Rround_even_near (z : Z) (x : R) :
  Rabs (x - IZR z) < 1 / 2 -> Rround_even x = IZR z.
Proof.
  intros Hx. unfold Rround_even.
  destruct (Int_part_near z x Hx) as [[Hle ->]|[Hlt ->]].
  - destruct (Rlt_dec (x - IZR z) (1 / 2)) as [_|Hn]; [reflexivity|].
    apply Rabs_def2 in Hx. lra.
  - rewrite minus_IZR. apply Rabs_def2 in Hx.
    destruct (Rlt_dec (x - (IZR z - 1)) (1 / 2)) as [Hc|_]; [lra|].
    destruct (Rlt_dec (1 / 2) (x - (IZR z - 1))) as [_|Hn]; [|lra].
    f_equal. lia.
Qed.

Lemma Rfloor_half_near (z : Z) (x : R) :
  Rabs (x - IZR z) < 1 / 2 -> Rfloor (x + 1 / 2) = IZR z.
Proof.
  intros Hx. unfold Rfloor. f_equal. symmetry. apply Int_part_spec.
  apply Rabs_def2 in Hx. lra.
Qed.

(** In real arithmetic the decoding of a tag tolerates any error below 0.05
    in the tag: the errors of the [f32] operations are far inside it. *)
Lemma tag_decodes_with_margin (base e : R) (i : nat) :
  Rabs e < 1 / 20 ->
  let tag := base + IZR (Z.of_nat i) * (1 / 10) + e in
  fround ((tag - base) * 10) = IZR (Z.of_nat i) /\
  ffloor ((tag - base) * 10 + 1 / 2) = IZR (Z.of_nat i).
Proof.
  intros He. cbv zeta. cbn [fround ffloor R_scalar].
  assert (Hx : Rabs ((base + IZR (Z.of_nat i) * (1 / 10) + e - base) * 10 - IZR (Z.of_nat i))
               < 1 / 2).
  { replace ((base + IZR (Z.of_nat i) * (1 / 10) + e - base) * 10 - IZR (Z.of_nat i))
      with (e * 10) by lra.
    apply Rabs_def2 in He. apply Rabs_def1; lra. }
  split; [now apply Rround_even_near | now apply Rfloor_half_near].
Qed.

Lemma real_tags (i : nat) :
  sphere_tag i = 1 + IZR (Z.of_nat i) * (1 / 10) + 0 /\
  box_tag i = 2 + IZR (Z.of_nat i) * (1 / 10) + 0 /\
  torus_tag i = 3 + IZR (Z.of_nat i) * (1 / 10) + 0.
Proof. unfold sphere_tag, box_tag, torus_tag. real_lits. repeat split; lra. Qed.
End MaterialTagMargin.

(** ** The tags [get_dist] writes *)

Section TagsOfGetDist.
Context {T : Type} `{Scalar T}.

Lemma fold_closer_tag (P : T -> Prop) (dist tag : nat -> T) (l : list nat) :
  (forall j, In j l -> P (tag j)) ->
  forall r : vec2 T, P (y2 r) ->
    P (y2 (fold_left (fun s j => closer (dist j) (tag j) s) l r)).
Proof.
  induction l as [|j l IH]; intros Hl r Hr; simpl; [exact Hr|].
  apply IH; [intros k Hk; apply Hl; now right|].
  unfold closer. destruct (dist j .< x2 r); [apply Hl; now left | exact Hr].
Qed.

(** The three loops write the tag of a slot they visit, and they visit the
    slots below the counter and below the capacity. *)
Lemma passes_tag (cs cb ct : nat) (sc : Scene T) (p : vec3 T) (res : vec2 T) :
  tag_of_live cs cb ct sc (y2 res) ->
  tag_of_live cs cb ct sc
    (y2 (torus_pass ct torus_tag sc p (box_pass cb box_tag sc p
           (sphere_pass cs sphere_tag sc p res)))).
Proof.
  intros Hres. unfold torus_pass, box_pass, sphere_pass. rewrite !for_loop_gated.
  apply (fold_closer_tag (tag_of_live cs cb ct sc)
           (fun j => sd_torus (v3_sub p (t_center (torus_at sc j))) (t_radii (torus_at sc j)))
           torus_tag).
  { intros j Hj. apply in_seq in Hj. right. right. exists (mkObj torus j).
    split; [cbn [live_slot type index]; lia | reflexivity]. }
  apply (fold_closer_tag (tag_of_live cs cb ct sc)
           (fun j => sd_box (v3_sub p (b_center (box_at sc j))) (b_size (box_at sc j)))
           box_tag).
  { intros j Hj. apply in_seq in Hj. right. right. exists (mkObj box j).
    split; [cbn [live_slot type index]; lia | reflexivity]. }
  apply (fold_closer_tag (tag_of_live cs cb ct sc)
           (fun j => sd_sphere (v3_sub p (s_center (sphere_at sc j)))
                               (s_radius (sphere_at sc j)))
           sphere_tag).
  { intros j Hj. apply in_seq in Hj. right. right. exists (mkObj sphere j).
    split; [cbn [live_slot type index]; lia | reflexivity]. }
  exact Hres.
Qed.

Lemma plane_step_tag (cs cb ct : nat) (sc : Scene T) (dist : T) :
  tag_of_live cs cb ct sc (y2 (closer dist MAT_PLANE (mk2 MAX_DIST (.~ lit 1)))).
Proof.
  unfold closer. destruct (dist .< x2 (mk2 MAX_DIST (.~ lit 1))); cbn [y2].
  - right. now left.
  - now left.
Qed.

Lemma basic_get_dist_tag (sc : Scene T) (p : vec3 T) :
  tag_of_live 3 2 2 sc (y2 (Basic.get_dist sc p)).
Proof. unfold Basic.get_dist. apply (passes_tag 3 2 2), plane_step_tag. Qed.

Lemma dynamic_get_dist_tag (sc : Scene T) (p : vec3 T) :
  tag_of_live 10 10 10 sc (y2 (Dynamic.get_dist sc p)).
Proof. unfold Dynamic.get_dist. apply (passes_tag 10 10 10), plane_step_tag. Qed.
End TagsOfGetDist.

(** ** Material tags in binary32 *)

Section MaterialTags.
Import FloatModel.
#[local] Existing Instance f32.

Lemma below_cases (P : nat -> Prop) (n : nat) :
  Forall P (seq 0 n) -> forall i, (i < n)%nat -> P i.
Proof.
  intros HP i Hi. rewrite List.Forall_forall in HP. apply HP, in_seq. lia.
Qed.

(** Rounding ten times the in-band offset recovers the slot, with [round]
    (the 3/2/2 shader) and with [floor(x + 0.5)] (the ten-slot shader). *)
Lemma tag_decodes_to_slot (i : nat) :
  (i < 10)%nat ->
  to_i32 (fround ((sphere_tag i .- MAT_SPHERE) .* lit 10)) = Z.of_nat i /\
  to_i32 (fround ((box_tag i .- MAT_BOX) .* lit 10)) = Z.of_nat i /\
  to_i32 (fround ((torus_tag i .- MAT_TORUS) .* lit 10)) = Z.of_nat i /\
  to_u32 (ffloor ((sphere_tag i .- MAT_SPHERE) .* lit 10 .+ lit 0.5)) = Z.of_nat i /\
  to_u32 (ffloor ((box_tag i .- MAT_BOX) .* lit 10 .+ lit 0.5)) = Z.of_nat i /\
  to_u32 (ffloor ((torus_tag i .- MAT_TORUS) .* lit 10 .+ lit 0.5)) = Z.of_nat i.
Proof.
  revert i. apply below_cases. repeat constructor; vm_compute; reflexivity.
Qed.

(** Truncating instead would lose slots: in binary32 the torus tag of slot 1
    is below [3.1] and ten times its offset is below 1. *)
Lemma floor_would_misdecode :
  to_i32 (ffloor ((torus_tag 1 .- MAT_TORUS) .* lit 10)) = 0%Z /\
  to_i32 (ffloor ((sphere_tag 3 .- MAT_SPHERE) .* lit 10)) = 2%Z.
Proof. split; vm_compute; reflexivity. Qed.

Lemma basic_color_lookup (sc : Scene spec_float) (p : vec3 spec_float) (i : nat) :
  ((i < 3)%nat -> Basic.get_material_color sc (sphere_tag i) p = s_color (sphere_at sc i)) /\
  ((i < 2)%nat -> Basic.get_material_color sc (box_tag i) p = b_color (box_at sc i)) /\
  ((i < 2)%nat -> Basic.get_material_color sc (torus_tag i) p = t_color (torus_at sc i)).
Proof.
  destruct sc as [ns nb nt ss bs ts].
  split; [|split]; revert i; apply below_cases; repeat constructor; vm_compute; reflexivity.
Qed.

(** The lookup of the ten-slot shader on the tag of slot [i]: the stored
    colour below the counter, the fallback colour from the counter on. *)
Lemma dynamic_sphere_lookup (n nb nt : nat) ss bs ts (p : vec3 spec_float) (i : nat) :
  (n <= 10)%nat -> (i < 10)%nat ->
  Dynamic.get_material_color (mkScene n nb nt ss bs ts) (sphere_tag i) p
  = if (i <? n)%nat then s_color (nth i ss sphere0) else magenta32.
Proof.
  intros Hn Hi.
  do 11 (destruct n as [|n];
         [ do 10 (destruct i as [|i]; [vm_compute; reflexivity|]); lia |]).
  lia.
Qed.

Lemma dynamic_box_lookup (ns n nt : nat) ss bs ts (p : vec3 spec_float) (i : nat) :
  (n <= 10)%nat -> (i < 10)%nat ->
  Dynamic.get_material_color (mkScene ns n nt ss bs ts) (box_tag i) p
  = if (i <? n)%nat then b_color (nth i bs box0) else magenta32.
Proof.
  intros Hn Hi.
  do 11 (destruct n as [|n];
         [ do 10 (destruct i as [|i]; [vm_compute; reflexivity|]); lia |]).
  lia.
Qed.

Lemma dynamic_torus_lookup (ns nb n : nat) ss bs ts (p : vec3 spec_float) (i : nat) :
  (n <= 10)%nat -> (i < 10)%nat ->
  Dynamic.get_material_color (mkScene ns nb n ss bs ts) (torus_tag i) p
  = if (i <? n)%nat then t_color (nth i ts torus0) else magenta32.
Proof.
  intros Hn Hi.
  do 11 (destruct n as [|n];
         [ do 10 (destruct i as [|i]; [vm_compute; reflexivity|]); lia |]).
  lia.
Qed.

Lemma dynamic_color_lookup (sc : Scene spec_float) (p : vec3 spec_float) (i : nat) :
  counts_within_capacity sc -> (i < 10)%nat ->
  Dynamic.get_material_color sc (sphere_tag i) p
  = (if (i <? num_spheres sc)%nat then s_color (sphere_at sc i) else magenta32) /\
  Dynamic.get_material_color sc (box_tag i) p
  = (if (i <? num_boxes sc)%nat then b_color (box_at sc i) else magenta32) /\
  Dynamic.get_material_color sc (torus_tag i) p
  = (if (i <? num_tori sc)%nat then t_color (torus_at sc i) else magenta32).
Proof.
  destruct sc as [ns nb nt ss bs ts]. unfold counts_within_capacity, sphere_at, box_at, torus_at.
  cbn [num_spheres num_boxes num_tori spheres boxes tori].
  intros (Hns & Hnb & Hnt) Hi. split; [|split].
  - now apply dynamic_sphere_lookup.
  - now apply dynamic_box_lookup.
  - now apply dynamic_torus_lookup.
Qed.

(** C3, in binary32 arithmetic (round to nearest even).  For every slot [i]
    below the capacity the tag [base + f32(i) * 0.1] decodes to [i] by
    rounding ten times its offset, with the [round] of the 3/2/2 shader and
    with the [floor(x + 0.5)] of the ten-slot shader.  The colour lookup
    on the tag of a primitive of the live scene returns the colour stored
    for it: in the 3/2/2 shader for every slot of the arrays, in the
    ten-slot shader for every slot below the counter of its type.  The
    tags the lookup is called with are those [get_dist] returns, and each
    of them is -1, the tag of the plane, or the tag of a primitive of the
    live scene, for which the lookup returns the stored colour.  A slot of
    the ten-slot arrays from the counter on holds no primitive: the lookup
    answers its tag with the fallback colour. *)
Theorem material_tag_decodes_to_active_slot_color
    (sc : Scene spec_float) (p : vec3 spec_float) (i : nat) :
  ((i < 10)%nat ->
     to_i32 (fround ((sphere_tag i .- MAT_SPHERE) .* lit 10)) = Z.of_nat i /\
     to_i32 (fround ((box_tag i .- MAT_BOX) .* lit 10)) = Z.of_nat i /\
     to_i32 (fround ((torus_tag i .- MAT_TORUS) .* lit 10)) = Z.of_nat i /\
     to_u32 (ffloor ((sphere_tag i .- MAT_SPHERE) .* lit 10 .+ lit 0.5)) = Z.of_nat i /\
     to_u32 (ffloor ((box_tag i .- MAT_BOX) .* lit 10 .+ lit 0.5)) = Z.of_nat i /\
     to_u32 (ffloor ((torus_tag i .- MAT_TORUS) .* lit 10 .+ lit 0.5)) = Z.of_nat i) /\
  ((i < 3)%nat -> Basic.get_material_color sc (sphere_tag i) p = s_color (sphere_at sc i)) /\
  ((i < 2)%nat -> Basic.get_material_color sc (box_tag i) p = b_color (box_at sc i)) /\
  ((i < 2)%nat -> Basic.get_material_color sc (torus_tag i) p = t_color (torus_at sc i)) /\
  (forall q : vec3 spec_float,
     tag_of_live 3 2 2 sc (y2 (Basic.get_dist sc q)) /\
     forall o : Obj,
       live_slot 3 2 2 sc o -> y2 (Basic.get_dist sc q) = slot_tag o ->
       Basic.get_material_color sc (y2 (Basic.get_dist sc q)) p = slot_color sc o) /\
  (counts_within_capacity sc ->
     ((i < num_spheres sc)%nat ->
        Dynamic.get_material_color sc (sphere_tag i) p = s_color (sphere_at sc i)) /\
     ((i < num_boxes sc)%nat ->
        Dynamic.get_material_color sc (box_tag i) p = b_color (box_at sc i)) /\
     ((i < num_tori sc)%nat ->
        Dynamic.get_material_color sc (torus_tag i) p = t_color (torus_at sc i)) /\
     (forall q : vec3 spec_float,
        tag_of_live 10 10 10 sc (y2 (Dynamic.get_dist sc q)) /\
        forall o : Obj,
          live_slot 10 10 10 sc o -> y2 (Dynamic.get_dist sc q) = slot_tag o ->
          Dynamic.get_material_color sc (y2 (Dynamic.get_dist sc q)) p = slot_color sc o) /\
     ((num_spheres sc <= i < 10)%nat ->
        Dynamic.get_material_color sc (sphere_tag i) p = magenta32) /\
     ((num_boxes sc <= i < 10)%nat ->
        Dynamic.get_material_color sc (box_tag i) p = magenta32) /\
     ((num_tori sc <= i < 10)%nat ->
        Dynamic.get_material_color sc (torus_tag i) p = magenta32)).
Proof.
  split; [apply tag_decodes_to_slot|].
  destruct (basic_color_lookup sc p i) as (Hs & Hb & Ht).
  split; [exact Hs|]. split; [exact Hb|]. split; [exact Ht|]. split.
  - intros q. split; [apply basic_get_dist_tag|].
    intros [ty j] Hlive ->. unfold slot_tag, slot_color. cbn [type index] in *.
    destruct (basic_color_lookup sc p j) as (Hs' & Hb' & Ht').
    destruct ty; cbn [live_slot type index] in Hlive; [apply Hs' | apply Hb' | apply Ht']; lia.
  - intros Hcap.
    assert (Hlook : forall j : nat, (j < 10)%nat ->
              Dynamic.get_material_color sc (sphere_tag j) p
              = (if (j <? num_spheres sc)%nat then s_color (sphere_at sc j) else magenta32) /\
              Dynamic.get_material_color sc (box_tag j) p
              = (if (j <? num_boxes sc)%nat then b_color (box_at sc j) else magenta32) /\
              Dynamic.get_material_color sc (torus_tag j) p
              = (if (j <? num_tori sc)%nat then t_color (torus_at sc j) else magenta32))
      by (intros j Hj; now apply dynamic_color_lookup).
    assert (Hyes : forall a b : nat, (a < b)%nat -> (a <? b)%nat = true)
      by (intros a b Hab; now apply Nat.ltb_lt).
    assert (Hno : forall a b : nat, (b <= a)%nat -> (a <? b)%nat = false)
      by (intros a b Hab; now apply Nat.ltb_ge).
    destruct Hcap as (Hns & Hnb & Hnt).
    split; [|split; [|split; [|split; [|split; [|split]]]]].
    + intros Hi. destruct (Hlook i ltac:(lia)) as (E & _ & _). now rewrite E, Hyes.
    + intros Hi. destruct (Hlook i ltac:(lia)) as (_ & E & _). now rewrite E, Hyes.
    + intros Hi. destruct (Hlook i ltac:(lia)) as (_ & _ & E). now rewrite E, Hyes.
    + intros q. split; [apply dynamic_get_dist_tag|].
      intros [ty j] Hlive ->. unfold slot_tag, slot_color. cbn [type index] in *.
      destruct ty; cbn [live_slot type index] in Hlive;
        destruct (Hlook j ltac:(lia)) as (Es & Eb & Et);
        [rewrite Es | rewrite Eb | rewrite Et]; now rewrite Hyes by lia.
    + intros Hi. destruct (Hlook i ltac:(lia)) as (E & _ & _). now rewrite E, Hno by lia.
    + intros Hi. destruct (Hlook i ltac:(lia)) as (_ & E & _). now rewrite E, Hno by lia.
    + intros Hi. destruct (Hlook i ltac:(lia)) as (_ & _ & E). now rewrite E, Hno by lia.
Qed.

(** One red sphere in slot 0 of the ten-slot arrays: its tag resolves to
    red, and the tag of the empty slot 1 to the fallback colour. *)
Lemma material_tag_decodes_to_active_slot_color_witness :
  Dynamic.get_material_color red_sphere_scene (sphere_tag 0) zero3
  = s_color (sphere_at red_sphere_scene 0) /\
  Dynamic.get_material_color red_sphere_scene (sphere_tag 1) zero3 = magenta32.
Proof.
  assert (Hcap : counts_within_capacity red_sphere_scene).
  { unfold counts_within_capacity, red_sphere_scene. cbn [num_spheres num_boxes num_tori]. lia. }
  split.
  - destruct (material_tag_decodes_to_active_slot_color red_sphere_scene zero3 0)
      as (_ & _ & _ & _ & _ & Hd).
    destruct (Hd Hcap) as (Hs & _).
    apply Hs. unfold red_sphere_scene. cbn [num_spheres]. lia.
  - destruct (material_tag_decodes_to_active_slot_color red_sphere_scene zero3 1)
      as (_ & _ & _ & _ & _ & Hd).
    destruct (Hd Hcap) as (_ & _ & _ & _ & Hm & _).
    apply Hm. unfold red_sphere_scene. cbn [num_spheres]. lia.
Defined.
End MaterialTags.


(** ** The fragment shader: sky or lit surface *)

Section FragmentShader.
Local Open Scope R_scope.

(** The shadow factor is 1 exactly when the shadow march went strictly
    farther than the light is away. *)
Lemma shadow_factor_cases (shadow_t light_dist : R) :
  (light_dist < shadow_t -> shadow_factor shadow_t light_dist = 1) /\
  (shadow_t <= light_dist -> shadow_factor shadow_t light_dist = 3 / 10).
Proof.
  unfold shadow_factor, select, fgt. cbn [flt R_scalar]. split; intros Hc.
  - apply Rltb_lt in Hc. rewrite Hc. real_lits. lra.
  - apply Rltb_ge in Hc. rewrite Hc. real_lits. lra.
Qed.

Lemma gamma_correct_pow (c : vec3 R) :
  gamma_correct c
  = mk3 (Rpow (x3 c) (1 / (22 / 10))) (Rpow (y3 c) (1 / (22 / 10))) (Rpow (z3 c) (1 / (22 / 10))).
Proof.
  unfold gamma_correct. cbn [fpow R_transcendental]. real_lits.
  replace (1 * / 1 / (22 * / 10)) with (1 / (22 / 10)) by (field; lra). reflexivity.
Qed.

Lemma lit_color_mix (albedo : vec3 R) (diffuse shadow t : R) :
  lit_color albedo diffuse shadow t
  = v3_mix MAT_SKY_COLOR (v3_scale albedo (2 / 10 + diffuse * shadow * (8 / 10)))
           (exp (- t * (2 / 100))).
Proof.
  unfold lit_color. cbn [fexp R_transcendental]. real_lits.
  replace (2 * / 10 + diffuse * shadow * (8 * / 10))
    with (2 / 10 + diffuse * shadow * (8 / 10)) by lra.
  replace (- t * (2 * / 100)) with (- t * (2 / 100)) by lra. reflexivity.
Qed.

Lemma mix_toward (a b t : R) : mix a b t = a + (b - a) * t.
Proof. unfold mix. real_lits. lra. Qed.

(** The shared body of the two [fs_main]. *)
Lemma fs_main_of_cases (gd : vec3 R -> vec2 R) (rm : vec3 R -> vec3 R -> vec2 R)
      (gmc : R -> vec3 R -> vec3 R) (u : Uniforms R) (fragCoord : vec2 R) :
  let uv := frag_uv u fragCoord in
  let cam_pos := camera_pos u in
  let rd := ray_dir u uv in
  let result := rm cam_pos rd in
  let t := x2 result in
  let hit_pos := v3_add cam_pos (v3_scale rd t) in
  let normal := get_normal_of gd hit_pos in
  let light_dir := normalize (v3_sub light_pos hit_pos) in
  let diffuse := Rmax (dot normal light_dir) 0 in
  let shadow_origin := v3_add hit_pos (v3_scale normal (lit 0.01)) in
  let shadow_t := x2 (rm shadow_origin light_dir) in
  let light_dist := length3 (v3_sub light_pos shadow_origin) in
  let shadow := shadow_factor shadow_t light_dist in
  let albedo := gmc (y2 result) hit_pos in
  (MAX_DIST <= t ->
     fs_main_of gd rm gmc u fragCoord = with_alpha (gamma_correct (sky_gradient uv))) /\
  (t < MAX_DIST ->
     fs_main_of gd rm gmc u fragCoord
     = with_alpha (gamma_correct
         (v3_mix MAT_SKY_COLOR (v3_scale albedo (2 / 10 + diffuse * shadow * (8 / 10)))
                 (exp (- t * (2 / 100)))))).
Proof.
  cbv zeta. unfold fs_main_of. split; intros Ht.
  - apply Rltb_ge in Ht. cbn [flt R_scalar]. now rewrite Ht.
  - apply Rltb_lt in Ht. cbn [flt R_scalar]. rewrite Ht.
    rewrite lit_color_mix, fmax_Rmax. real_lits.
    replace (0 * / 1) with 0 by lra. reflexivity.
Qed.

Lemma sky_gradient_mix (uv : vec2 R) :
  sky_gradient uv
  = v3_mix MAT_SKY_COLOR (v3_scale MAT_SKY_COLOR (9 / 10)) (y2 uv * (1 / 2) + 1 / 2).
Proof.
  unfold sky_gradient. real_lits.
  replace (9 * / 10) with (9 / 10) by lra.
  replace (y2 uv * (5 * / 10) + 5 * / 10) with (y2 uv * (1 / 2) + 1 / 2) by lra.
  reflexivity.
Qed.

(** C6, as amended: [fs_main] returns the gamma-corrected sky gradient when
    the march result is at [MAX_DIST] or beyond, and otherwise the
    gamma-corrected mix from the sky colour toward
    [albedo * (ambient + diffuse * shadow * 0.8)] weighted by the fog factor
    [exp(-t * 0.02)], with ambient 0.2 and gamma exponent [1/2.2] in both
    branches; [shadow] is 1 when the shadow march went strictly farther than
    the light's distance from the offset origin and 0.3 otherwise. *)
Theorem fs_main_sky_or_fogged_phong (u : Uniforms R) (sc : Scene R) (fragCoord : vec2 R) :
  let uv := frag_uv u fragCoord in
  let cam_pos := camera_pos u in
  let rd := ray_dir u uv in
  let result := Basic.ray_march sc cam_pos rd in
  let t := x2 result in
  let hit_pos := v3_add cam_pos (v3_scale rd t) in
  let normal := Basic.get_normal sc hit_pos in
  let light_dir := normalize (v3_sub light_pos hit_pos) in
  let diffuse := Rmax (dot normal light_dir) 0 in
  let shadow_origin := v3_add hit_pos (v3_scale normal (lit 0.01)) in
  let shadow_t := x2 (Basic.ray_march sc shadow_origin light_dir) in
  let light_dist := length3 (v3_sub light_pos shadow_origin) in
  let shadow := shadow_factor shadow_t light_dist in
  let albedo := Basic.get_material_color sc (y2 result) hit_pos in
  (MAX_DIST <= t ->
     Basic.fs_main u sc fragCoord
     = with_alpha (gamma_correct
         (v3_mix MAT_SKY_COLOR (v3_scale MAT_SKY_COLOR (9 / 10)) (y2 uv * (1 / 2) + 1 / 2)))) /\
  (t < MAX_DIST ->
     Basic.fs_main u sc fragCoord
     = with_alpha (gamma_correct
         (v3_mix MAT_SKY_COLOR (v3_scale albedo (2 / 10 + diffuse * shadow * (8 / 10)))
                 (exp (- t * (2 / 100)))))) /\
  (light_dist < shadow_t -> shadow = 1) /\
  (shadow_t <= light_dist -> shadow = 3 / 10) /\
  (forall a b w : R, mix a b w = a + (b - a) * w) /\
  (forall c : vec3 R,
     gamma_correct c
     = mk3 (Rpow (x3 c) (1 / (22 / 10))) (Rpow (y3 c) (1 / (22 / 10)))
           (Rpow (z3 c) (1 / (22 / 10)))).
Proof.
  cbv zeta.
  destruct (fs_main_of_cases (Basic.get_dist sc) (Basic.ray_march sc)
              (Basic.get_material_color sc) u fragCoord) as [Hsky Hlit].
  cbv zeta in Hsky, Hlit.
  split; [intros Ht; unfold Basic.fs_main; rewrite (Hsky Ht), sky_gradient_mix; reflexivity|].
  split; [intros Ht; unfold Basic.fs_main; rewrite (Hlit Ht); reflexivity|].
  split; [apply shadow_factor_cases|]. split; [apply shadow_factor_cases|].
  split; [apply mix_toward | apply gamma_correct_pow].
Qed.

(** The ten-slot shader has the same [fs_main]. *)
Lemma dynamic_fs_main_same_shading (u : Uniforms R) (sc : Scene R) (fragCoord : vec2 R) :
  Dynamic.fs_main u sc fragCoord
  = fs_main_of (Dynamic.get_dist sc) (Dynamic.ray_march sc) (Dynamic.get_material_color sc)
               u fragCoord.
Proof. reflexivity. Qed.

(** *** A pixel that misses *)

Lemma normalize_axis (h : R) :
  0 < h ->
  normalize (mk3 0 0 (- h)) = mk3 0 0 (-1) /\ normalize (mk3 h 0 0) = mk3 1 0 0.
Proof.
  intros Hh. unfold normalize.
  destruct (length3_axis h ltac:(lra)) as (_ & _ & _ & -> & ->).
  unfold v3_div. cbn [x3 y3 z3 fdiv R_scalar]. split; f_equal; field; lra.
Qed.

Lemma front_camera_pos : camera_pos front_camera = mk3 0 0 5.
Proof.
  unfold camera_pos, camera_target, front_camera, v3_add, v3_scale.
  cbn [cameraYaw cameraPitch cameraDistance cameraTargetX cameraTargetY cameraTargetZ
       x3 y3 z3 fsin fcos R_transcendental fadd fmul R_scalar].
  rewrite sin_0, cos_0. f_equal; lra.
Qed.

Lemma centre_pixel_uv : frag_uv front_camera centre_pixel = mk2 0 0.
Proof.
  unfold frag_uv, front_camera, centre_pixel. cbn [resolution x2 y2].
  rewrite fmin_Rmin, Rmin_right by lra. real_lits. f_equal; field.
Qed.

Lemma centre_ray_dir : ray_dir front_camera (mk2 0 0) = mk3 0 0 (-1).
Proof.
  unfold ray_dir. rewrite front_camera_pos.
  unfold camera_target, front_camera.
  cbn [cameraTargetX cameraTargetY cameraTargetZ].
  assert (Hf : v3_sub (mk3 0 0 0) (mk3 0 0 5) = mk3 0 0 (- (5)))
    by (unfold v3_sub; cbn [x3 y3 z3 fsub R_scalar]; f_equal; lra).
  rewrite Hf, (proj1 (normalize_axis 5 ltac:(lra))).
  assert (Hc : cross (mk3 0 0 (-1)) (mk3 (lit 0) (lit 1) (lit 0)) = mk3 1 0 0)
    by (unfold cross; real_lits; f_equal; lra).
  rewrite Hc, (proj2 (normalize_axis 1 ltac:(lra))).
  assert (Hd : v3_add (v3_sub (v3_scale (mk3 1 0 0) (x2 (mk2 0 0)))
                              (v3_scale (cross (mk3 1 0 0) (mk3 0 0 (-1))) (y2 (mk2 0 0))))
                      (v3_scale (mk3 0 0 (-1)) (lit 1.5))
               = mk3 0 0 (- (3 / 2)))
    by (unfold v3_add, v3_sub, v3_scale, cross; real_lits; f_equal; lra).
  rewrite Hd. apply (normalize_axis (3 / 2)). lra.
Qed.

(** While every sample returns the same distance [c], not below
    [surf_dist], and the sum stays within [max_dist], the march keeps
    stepping by [c]. *)
Lemma march_uniform_steps (gd : vec3 R -> vec2 R) (surf maxd c tag : R) (ro rd : vec3 R) :
  (forall t, gd (v3_add ro (v3_scale rd t)) = mk2 c tag) -> surf <= c -> 0 <= c ->
  forall (k n : nat) (d m : R),
    d + INR k * c <= maxd ->
    march gd surf maxd (k + n) ro rd d m
    = march gd surf maxd n ro rd (d + INR k * c) (match k with O => m | S _ => tag end).
Proof.
  intros Hgd Hsurf Hc. induction k as [|k IH]; intros n d m Hd.
  - cbn [Nat.add INR]. now replace (d + 0 * c) with d by lra.
  - rewrite S_INR in Hd |- *. cbn [Nat.add]. rewrite march_S, Hgd. cbn [x2 y2].
    unfold fgt. cbn [flt R_scalar].
    replace (Rltb c surf) with false by (symmetry; apply Rltb_ge; lra).
    replace (Rltb maxd (d + c)) with false.
    + cbn [orb]. rewrite IH.
      * replace (d + c + INR k * c) with (d + (INR k + 1) * c) by ring.
        now destruct k.
      * lra.
    + symmetry. apply Rltb_ge. pose proof (pos_INR k). nra.
Qed.

(** From the front camera the centre ray runs level above the ground of the
    empty scene: 200 steps of 0.5, then one more past [MAX_DIST]. *)
Lemma centre_ray_misses :
  Basic.ray_march (empty_scene 3 2 2) (mk3 0 0 5) (mk3 0 0 (-1)) = mk2 (201 / 2) MAT_PLANE.
Proof.
  assert (Hgd : forall t, Basic.get_dist (empty_scene 3 2 2)
                            (v3_add (mk3 0 0 5) (v3_scale (mk3 0 0 (-1)) t))
                          = mk2 (1 / 2) MAT_PLANE).
  { intros t. rewrite basic_get_dist_no_primitives by (repeat split).
    unfold closer. cbn [x2 flt R_scalar]. rewrite sd_plane_up.
    unfold v3_add, v3_scale. cbn [x3 y3 z3 fadd fmul R_scalar].
    replace (0 + 0 * t + 1 / 2) with (1 / 2) by lra.
    replace (Rltb (1 / 2) MAX_DIST) with true
      by (symmetry; apply Rltb_lt; real_lits; lra).
    reflexivity. }
  unfold Basic.ray_march, MAX_STEPS. change 256%nat with (200 + 56)%nat.
  rewrite (march_uniform_steps _ SURF_DIST MAX_DIST (1 / 2) MAT_PLANE _ _ Hgd);
    [| real_lits; lra | lra
     | rewrite INR_IZR_INZ; change (Z.of_nat 200) with 200%Z; real_lits; lra ].
  rewrite INR_IZR_INZ. change (Z.of_nat 200) with 200%Z.
  change 56%nat with (S 55). rewrite march_S, Hgd. cbn [x2 y2].
  unfold fgt. cbn [flt R_scalar].
  replace (Rltb MAX_DIST (lit 0 + 200 * (1 / 2) + 1 / 2)) with true
    by (symmetry; apply Rltb_lt; real_lits; lra).
  rewrite orb_true_r. f_equal. real_lits. lra.
Qed.

Lemma Rpow_gamma_changes (x : R) : 0 < x < 1 -> Rpow x (1 / (22 / 10)) <> x.
Proof.
  intros Hx. unfold Rpow. destruct (Rlt_dec 0 x); [|lra].
  unfold Rpower. intros Heq.
  rewrite <- (exp_ln x) in Heq at 2 by lra.
  apply exp_inv in Heq.
  assert (Hln : ln x = 0) by lra.
  rewrite <- ln_1 in Hln. apply ln_inv in Hln; lra.
Qed.

Lemma fs_main_sky_or_fogged_phong_witness :
  Basic.fs_main front_camera (empty_scene 3 2 2) centre_pixel
  = with_alpha (gamma_correct
      (v3_mix MAT_SKY_COLOR (v3_scale MAT_SKY_COLOR (9 / 10))
              (y2 (frag_uv front_camera centre_pixel) * (1 / 2) + 1 / 2))).
Proof.
  apply (proj1 (fs_main_sky_or_fogged_phong front_camera (empty_scene 3 2 2) centre_pixel)).
  rewrite front_camera_pos, centre_pixel_uv, centre_ray_dir, centre_ray_misses.
  cbn [x2]. real_lits. lra.
Defined.

(** C6 as stated fails in both branches.  A miss is not the sky blend but
    its gamma correction: the centre pixel of the front camera over the
    empty scene misses, the blend of the two sky colours there is
    (0.665, 0.76, 0.855), and the red channel written is
    [0.665 ^ (1/2.2)].  And a shadow march of exactly the light's distance,
    which is "at least the light's distance", gives the factor 0.3, since
    the test is [shadow_result.x > length(...)]: for a white surface facing
    the light at [t = 0] the colour before gamma is 0.44 per channel, not 1. *)
Lemma miss_is_gamma_corrected_and_shadow_is_strict :
  (MAX_DIST <= x2 (Basic.ray_march (empty_scene 3 2 2) (camera_pos front_camera)
                      (ray_dir front_camera (frag_uv front_camera centre_pixel))) /\
   sky_gradient (frag_uv front_camera centre_pixel) = centre_sky /\
   Basic.fs_main front_camera (empty_scene 3 2 2) centre_pixel
   = with_alpha (gamma_correct centre_sky) /\
   Basic.fs_main front_camera (empty_scene 3 2 2) centre_pixel <> with_alpha centre_sky) /\
  (claimed_shadow_factor 5 5 = 1 /\
   shadow_factor 5 5 = 3 / 10 /\
   lit_color white 1 (shadow_factor 5 5) 0 = mk3 (44 / 100) (44 / 100) (44 / 100) /\
   lit_color white 1 (claimed_shadow_factor 5 5) 0 = mk3 1 1 1).
Proof.
  split.
  - assert (Hm : MAX_DIST <= x2 (Basic.ray_march (empty_scene 3 2 2) (camera_pos front_camera)
                                   (ray_dir front_camera (frag_uv front_camera centre_pixel)))).
    { rewrite front_camera_pos, centre_pixel_uv, centre_ray_dir, centre_ray_misses.
      cbn [x2]. real_lits. lra. }
    assert (Hsky : sky_gradient (frag_uv front_camera centre_pixel) = centre_sky).
    { rewrite centre_pixel_uv, sky_gradient_mix.
      unfold v3_mix, v3_scale, MAT_SKY_COLOR, centre_sky. cbn [x2 y2 x3 y3 z3].
      rewrite !mix_toward. real_lits. f_equal; lra. }
    assert (Hpix : Basic.fs_main front_camera (empty_scene 3 2 2) centre_pixel
                   = with_alpha (gamma_correct centre_sky)).
    { unfold Basic.fs_main.
      rewrite (proj1 (fs_main_of_cases _ _ _ front_camera centre_pixel) Hm).
      now rewrite Hsky. }
    split; [exact Hm|]. split; [exact Hsky|]. split; [exact Hpix|].
    rewrite Hpix, gamma_correct_pow. intros Heq. apply (f_equal x4) in Heq.
    revert Heq. unfold with_alpha, centre_sky. cbn [x4 x3].
    apply Rpow_gamma_changes. lra.
  - assert (Hc : claimed_shadow_factor 5 5 = 1).
    { unfold claimed_shadow_factor. destruct (Rle_dec 5 5); [reflexivity | lra]. }
    assert (Hs : shadow_factor 5 5 = 3 / 10).
    { apply shadow_factor_cases. lra. }
    split; [exact Hc|]. split; [exact Hs|]. rewrite Hc, Hs.
    rewrite !lit_color_mix.
    replace (- 0 * (2 / 100)) with 0 by lra. rewrite exp_0.
    unfold v3_mix, v3_scale, white, MAT_SKY_COLOR. cbn [x3 y3 z3 fmul R_scalar].
    rewrite !mix_toward. real_lits. split; f_equal; lra.
Qed.
End FragmentShader.


(** ** Object identifiers: encoding and decoding *)

Section ObjectIDs.
Import ObjectPicker.

Lemma decode_encode (o : Obj) :
  (index o < 10)%nat -> decodeID (Z.of_nat (encodeID o)) = Some o.
Proof.
  destruct o as [ty i]. cbn [index]. intros Hi.
  destruct ty; do 10 (destruct i as [|i]; [reflexivity|]); lia.
Qed.

Lemma encodeID_band (o : Obj) :
  (index o < 10)%nat ->
  match type o with
  | sphere => (1 <= encodeID o <= 10)%nat
  | box => (11 <= encodeID o <= 20)%nat
  | torus => (21 <= encodeID o <= 30)%nat
  end.
Proof. destruct o as [[] i]; cbn [index type encodeID]; lia. Qed.

Lemma encodeID_injective (o1 o2 : Obj) :
  (index o1 < 10)%nat -> (index o2 < 10)%nat -> encodeID o1 = encodeID o2 -> o1 = o2.
Proof.
  destruct o1 as [[] i], o2 as [[] j]; cbn [index type encodeID]; intros Hi Hj He;
    try lia; f_equal; lia.
Qed.
End ObjectIDs.

Section ObjectIDsF32.
Import ObjectPicker FloatModel.
#[local] Existing Instance f32.

(** An identifier written by the pick shader survives the colour
    attachment: [f32(id) / 255.0] is stored as the byte [id]. *)
Lemma id_color_byte (hit_dist : spec_float) (o : Obj) :
  (index o < 10)%nat -> (hit_dist .< lit 100) = true ->
  unorm8 (x4 (IdPick.id_color (mk2 hit_dist (of_u32 (encodeID o))))) = Z.of_nat (encodeID o).
Proof.
  destruct o as [ty i]. cbn [index]. intros Hi Hhit.
  unfold IdPick.id_color. cbn [x2 y2]. rewrite Hhit.
  destruct ty; do 10 (destruct i as [|i]; [vm_compute; reflexivity|]); lia.
Qed.

(** The plane and the background are written as byte 0. *)
Lemma id_color_background (result : vec2 spec_float) :
  (x2 result .< lit 100) = false \/ y2 result = lit 0 ->
  unorm8 (x4 (IdPick.id_color result)) = 0%Z.
Proof.
  intros [Hmiss|Hplane]; unfold IdPick.id_color.
  - rewrite Hmiss. vm_compute. reflexivity.
  - rewrite Hplane. destruct (x2 result .< lit 100); vm_compute; reflexivity.
Qed.

(** C1: for every type and every index below the capacity of 10, the
    identifier the pick pass produces ([index + 1], [index + 11],
    [index + 21]) decodes to the same type and index, also after its trip
    through the [rgba8unorm] red channel; 0 decodes to no object; the three
    bands are [1..10], [11..20], [21..30] and no identifier is shared. *)
Theorem pick_id_round_trip (o : Obj) :
  (index o < 10)%nat ->
  decodeID (Z.of_nat (encodeID o)) = Some o /\
  (forall hit_dist : spec_float, (hit_dist .< lit 100) = true ->
     decodeID (unorm8 (x4 (IdPick.id_color (mk2 hit_dist (of_u32 (encodeID o)))))) = Some o) /\
  decodeID 0 = None /\
  match type o with
  | sphere => (1 <= encodeID o <= 10)%nat
  | box => (11 <= encodeID o <= 20)%nat
  | torus => (21 <= encodeID o <= 30)%nat
  end /\
  (forall o' : Obj, (index o' < 10)%nat -> encodeID o = encodeID o' -> o = o').
Proof.
  intros Hi. split; [now apply decode_encode|].
  split; [intros hd Hhit; rewrite id_color_byte by assumption; now apply decode_encode|].
  split; [reflexivity|]. split; [now apply encodeID_band|].
  intros o' Hi' He. now apply encodeID_injective.
Qed.

Lemma pick_id_round_trip_witness :
  decodeID (Z.of_nat (encodeID (mkObj box 3))) = Some (mkObj box 3).
Proof.
  exact (proj1 (pick_id_round_trip (mkObj box 3) ltac:(cbn [index]; lia))).
Defined.

(** The second shader of [id_pick.wgsl] numbers its 3/2/2 slots differently
    (boxes from 10, tori from 20); [decodeID] is the inverse of the ten-slot
    numbering, not of this one. *)
Lemma legacy_numbering_differs :
  unorm8 (x4 (IdPickLegacy.get_id_color (box_tag 0))) = 10%Z /\
  decodeID 10 = Some (mkObj sphere 9) /\
  unorm8 (x4 (IdPickLegacy.get_id_color (torus_tag 1))) = 21%Z /\
  decodeID 21 = Some (mkObj torus 0).
Proof. repeat split; vm_compute; reflexivity. Qed.
End ObjectIDsF32.


(** ** The picker: readback, selection and drag *)

Section PickerGeneric.
Import ObjectPicker.
Context {T : Type} `{Scalar T}.

Lemma decodeID_index (id : Z) (o : Obj) : decodeID id = Some o -> (index o < 10)%nat.
Proof.
  unfold decodeID.
  destruct (id =? 0)%Z; [discriminate|].
  destruct ((1 <=? id)%Z && (id <=? 10)%Z) eqn:H1;
    [intros [= <-]; cbn [index]; lia|].
  destruct ((11 <=? id)%Z && (id <=? 20)%Z) eqn:H2;
    [intros [= <-]; cbn [index]; lia|].
  destruct ((21 <=? id)%Z && (id <=? 30)%Z) eqn:H3;
    [intros [= <-]; cbn [index]; lia | discriminate].
Qed.

(** After the identifier pass the texture, its recorded size and its
    content are in step. *)
Lemma renderIDPass_texture (st : State T) (frame : Z -> Z -> Z) :
  texture_recorded st ->
  exists w h : Z,
    idTexture (renderIDPass st frame) = Some (w, h) /\
    idTextureWidth (renderIDPass st frame) = Some w /\
    idTextureHeight (renderIDPass st frame) = Some h /\
    idTexels (renderIDPass st frame) = frame /\
    (1 <= w)%Z /\ (1 <= h)%Z.
Proof.
  unfold texture_recorded, renderIDPass.
  destruct (idTexture st) as [[tw th]|] eqn:Ht;
    destruct (idTextureWidth st) as [w|] eqn:Hw;
    destruct (idTextureHeight st) as [h|] eqn:Hh; intros Hrec; try contradiction;
    try (destruct Hrec as (? & ? & ?); discriminate);
    try (eexists _, _; cbn; repeat split; lia).
  destruct Hrec as ([= -> ->] & Hw1 & Hh1).
  destruct (negb (w =? Z.max 1 (canvas_width st))%Z || negb (h =? Z.max 1 (canvas_height st))%Z).
  - eexists _, _; cbn; repeat split; lia.
  - exists w, h. cbn. repeat split; assumption.
Qed.

Lemma texture_recorded_render (st : State T) (frame : Z -> Z -> Z) :
  texture_recorded st -> texture_recorded (renderIDPass st frame).
Proof.
  intros Hrec. destruct (renderIDPass_texture st frame Hrec) as (w & h & Ht & Hw & Hh & _ & ? & ?).
  unfold texture_recorded. rewrite Hw, Hh. now repeat split.
Qed.

(** The origin of the copy is inside the texture and the copy is accepted. *)
Lemma readback_origin_clamped_aux (st : State T) (frame : Z -> Z -> Z) (x y : Q) :
  texture_recorded st ->
  let st' := renderIDPass st frame in
  let cx := fst (clampedOrigin st' x y) in
  let cy := snd (clampedOrigin st' x y) in
  exists w h : Z,
    idTexture st' = Some (w, h) /\
    (0 <= cx <= w - 1)%Z /\ (0 <= cy <= h - 1)%Z /\
    readPixel st' x y = Some (frame cx cy).
Proof.
  intros Hrec. cbv zeta.
  destruct (renderIDPass_texture st frame Hrec) as (w & h & Ht & Hw & Hh & Hf & Hw1 & Hh1).
  exists w, h. unfold readPixel, clampedOrigin, copyTexel.
  rewrite Ht, Hw, Hh, Hf. cbn [js_or fst snd].
  replace (w =? 0)%Z with false by (symmetry; apply Z.eqb_neq; lia).
  replace (h =? 0)%Z with false by (symmetry; apply Z.eqb_neq; lia).
  set (cx := Z.max 0 (Z.min (Qfloor x) (Z.max 1 w - 1))).
  set (cy := Z.max 0 (Z.min (Qfloor y) (Z.max 1 h - 1))).
  assert (Hcx : (0 <= cx <= w - 1)%Z) by (unfold cx; lia).
  assert (Hcy : (0 <= cy <= h - 1)%Z) by (unfold cy; lia).
  split; [reflexivity|]. split; [exact Hcx|]. split; [exact Hcy|].
  replace ((0 <=? cx)%Z && (cx <? w)%Z && (0 <=? cy)%Z && (cy <? h)%Z) with true; [reflexivity|].
  symmetry. rewrite !andb_true_iff, !Z.leb_le, !Z.ltb_lt. lia.
Qed.

(** C9: whatever pixel coordinate is requested, the origin [readPixel]
    passes to the copy is the coordinate clamped into
    [0, width-1] x [0, height-1] of the identifier texture, and the readback
    succeeds with the byte stored there. *)
Theorem readback_origin_clamped (st : State T) (frame : Z -> Z -> Z) (x y : Q) :
  texture_recorded st ->
  let st' := renderIDPass st frame in
  let cx := fst (clampedOrigin st' x y) in
  let cy := snd (clampedOrigin st' x y) in
  exists w h : Z,
    idTexture st' = Some (w, h) /\
    (0 <= cx <= w - 1)%Z /\ (0 <= cy <= h - 1)%Z /\
    (Qfloor x < 0 -> cx = 0)%Z /\ (w - 1 < Qfloor x -> cx = w - 1)%Z /\
    (0 <= Qfloor x <= w - 1 -> cx = Qfloor x)%Z /\
    (Qfloor y < 0 -> cy = 0)%Z /\ (h - 1 < Qfloor y -> cy = h - 1)%Z /\
    (0 <= Qfloor y <= h - 1 -> cy = Qfloor y)%Z /\
    readPixel st' x y = Some (frame cx cy).
Proof.
  intros Hrec. cbv zeta.
  destruct (readback_origin_clamped_aux st frame x y Hrec) as (w & h & Ht & Hcx & Hcy & Hread).
  destruct (renderIDPass_texture st frame Hrec) as (w' & h' & Ht' & Hw & Hh & _ & Hw1 & Hh1).
  rewrite Ht in Ht'. injection Ht' as <- <-.
  exists w, h. split; [exact Ht|]. split; [exact Hcx|]. split; [exact Hcy|].
  assert (Hxe : fst (clampedOrigin (renderIDPass st frame) x y)
                = Z.max 0 (Z.min (Qfloor x) (w - 1))).
  { unfold clampedOrigin. rewrite Hw. cbn [js_or fst].
    replace (w =? 0)%Z with false by (symmetry; apply Z.eqb_neq; lia). lia. }
  assert (Hye : snd (clampedOrigin (renderIDPass st frame) x y)
                = Z.max 0 (Z.min (Qfloor y) (h - 1))).
  { unfold clampedOrigin. rewrite Hh. cbn [js_or snd].
    replace (h =? 0)%Z with false by (symmetry; apply Z.eqb_neq; lia). lia. }
  repeat (split; [rewrite ?Hxe, ?Hye; lia|]). exact Hread.
Qed.

(** A click resolves to the object decoded from the texel under the clamped
    coordinate: the readback of [handleClick] is never rejected. *)
Lemma handleClick_decodes_texel (st : State T) (frame : Z -> Z -> Z) (x y : Q)
      (cameraPos cameraDir : vec3 T) :
  texture_recorded st ->
  snd (handleClick st frame x y cameraPos cameraDir)
  = decodeID (frame (fst (clampedOrigin (renderIDPass st frame) x y))
                    (snd (clampedOrigin (renderIDPass st frame) x y))).
Proof.
  intros Hrec.
  destruct (readback_origin_clamped_aux st frame x y Hrec) as (w & h & _ & _ & _ & Hread).
  unfold handleClick. rewrite Hread.
  destruct (decodeID _) as [o|]; reflexivity.
Qed.

Lemma texture_recorded_constructor (w h : Z) (sd : list T) :
  texture_recorded (constructor w h sd).
Proof. exact I. Qed.

Lemma renderIDPass_selection (st : State T) (frame : Z -> Z -> Z) :
  selectedObject (renderIDPass st frame) = selectedObject st /\
  dragPlane (renderIDPass st frame) = dragPlane st /\
  sceneData (renderIDPass st frame) = sceneData st.
Proof.
  unfold renderIDPass.
  destruct (idTexture st) as [sz|], (idTextureWidth st) as [w|], (idTextureHeight st) as [h|];
    try (now repeat split).
  destruct (negb (w =? Z.max 1 (canvas_width st))%Z || negb (h =? Z.max 1 (canvas_height st))%Z);
    now repeat split.
Qed.

Lemma length_10 {A : Type} (l : list A) :
  length l = 10%nat ->
  exists a0 a1 a2 a3 a4 a5 a6 a7 a8 a9, l = [a0; a1; a2; a3; a4; a5; a6; a7; a8; a9].
Proof.
  intros Hl.
  do 10 (destruct l as [|? l]; [discriminate Hl|]).
  destruct l; [|discriminate Hl]. now repeat eexists.
Qed.

Lemma length_4 {A : Type} (l : list A) :
  length l = 4%nat -> exists a0 a1 a2 a3, l = [a0; a1; a2; a3].
Proof.
  intros Hl.
  do 4 (destruct l as [|? l]; [discriminate Hl|]).
  destruct l; [|discriminate Hl]. now repeat eexists.
Qed.

(** [baseOffset] is where the layout puts the centre of the object. *)
Lemma getObjectPosition_center (st : State T) (header : list T) (pad : T) (sc : Scene T)
      (o : Obj) :
  layout_ok header sc -> (index o < 10)%nat ->
  sceneData st = scene_floats header pad sc ->
  getObjectPosition st (Some o) = Some (center_of sc o).
Proof.
  intros (Hh & Hs & Hb & Ht) Hi Hsd. unfold getObjectPosition. rewrite Hsd.
  destruct sc as [ns nb nt ss bs ts]. cbn [spheres boxes tori] in Hs, Hb, Ht.
  destruct (length_4 header Hh) as (h0 & h1 & h2 & h3 & ->).
  destruct (length_10 ss Hs) as (s0 & s1 & s2 & s3 & s4 & s5 & s6 & s7 & s8 & s9 & ->).
  destruct (length_10 bs Hb) as (b0 & b1 & b2 & b3 & b4 & b5 & b6 & b7 & b8 & b9 & ->).
  destruct (length_10 ts Ht) as (t0 & t1 & t2 & t3 & t4 & t5 & t6 & t7 & t8 & t9 & ->).
  destruct o as [ty i]. cbn [index] in Hi. unfold center_of. cbn [type index].
  destruct ty;
    do 10 (destruct i as [|i];
           [ cbn; try destruct (s_center _); try destruct (b_center _);
             try destruct (t_center _); reflexivity |]);
    lia.
Qed.

(** The lemmas below involve the store into the array. *)
Context `{Float32 T}.

Lemma setObjectPosition_fields (st : State T) (obj : option Obj) (pos : vec3 T) :
  let st' := setObjectPosition st obj pos in
  selectedObject st' = selectedObject st /\ dragPlane st' = dragPlane st /\
  idTexture st' = idTexture st /\ idTextureWidth st' = idTextureWidth st /\
  idTextureHeight st' = idTextureHeight st.
Proof.
  cbv zeta. unfold setObjectPosition. destruct obj as [o|]; [|now repeat split].
  cbn [onObjectMoved set_sceneData]. destruct (onObjectMoved st); now repeat split.
Qed.

Lemma handleDrag_fields (st : State T) (dX dY : T) (cp cd : vec3 T) :
  let st' := fst (handleDrag st dX dY cp cd) in
  selectedObject st' = selectedObject st /\ dragPlane st' = dragPlane st /\
  idTexture st' = idTexture st /\ idTextureWidth st' = idTextureWidth st /\
  idTextureHeight st' = idTextureHeight st.
Proof.
  cbv zeta. unfold handleDrag.
  destruct (selectedObject st) as [o|] eqn:Hs; [|now repeat split].
  destruct (dragPlane st) as [pl|] eqn:Hp; [|now repeat split].
  cbn [getObjectPosition fst].
  match goal with
  | |- context [setObjectPosition st (Some o) ?P] =>
      destruct (setObjectPosition_fields st (Some o) P) as (E1 & E2 & E3 & E4 & E5)
  end.
  cbv zeta in E1, E2, E3, E4, E5. rewrite E1, E2, E3, E4, E5, Hs, Hp. now repeat split.
Qed.

(** Every state a picker goes through keeps its texture size recorded and
    its selection accompanied by a drag plane. *)
Lemma reachable_invariant (st : State T) :
  reachable st -> texture_recorded st /\ selection_ok st.
Proof.
  induction 1 as [w h sd|w h sd|st w h _ [IHt IHs]|st a b _ [IHt IHs]
                  |st frame _ [IHt IHs]|st frame x y cp cd _ [IHt IHs]
                  |st dX dY cp cd _ [IHt IHs]].
  - split; [exact I | intros o; discriminate].
  - split; [exact I | intros o; discriminate].
  - split; [exact IHt | exact IHs].
  - split; [exact IHt | exact IHs].
  - split; [now apply texture_recorded_render|].
    destruct (renderIDPass_selection st frame) as (Es & Ep & _).
    intros o Ho. rewrite Es in Ho. rewrite Ep. now apply IHs.
  - pose proof (texture_recorded_render st frame IHt) as Hr.
    unfold handleClick.
    destruct (readPixel (renderIDPass st frame) x y) as [id|]; cbn [fst].
    + destruct (decodeID id) as [o|] eqn:Hd; cbn [getObjectPosition fst].
      * split; [exact Hr|]. intros o' [= <-]. split; [discriminate|].
        now apply (decodeID_index id).
      * split; [exact Hr | intros o; discriminate].
    + split; [exact Hr|].
      destruct (renderIDPass_selection st frame) as (Es & Ep & _).
      intros o Ho. rewrite Es in Ho. rewrite Ep. now apply IHs.
  - destruct (handleDrag_fields st dX dY cp cd) as (Hs & Hp & Ht & Hw & Hh).
    cbv zeta in Hs, Hp, Ht, Hw, Hh. split.
    + unfold texture_recorded. rewrite Hw, Hh, Ht. exact IHt.
    + intros o Ho. rewrite Hs in Ho. rewrite Hp. now apply IHs.
Qed.

(** [setObjectPosition] stores three consecutive entries and nothing else. *)
Lemma setObjectPosition_frame (st : State T) (obj : Obj) (pos : vec3 T) (j : nat) :
  (j < baseOffset obj \/ baseOffset obj + 2 < j)%nat ->
  sceneData (setObjectPosition st (Some obj) pos) !! j = sceneData st !! j.
Proof.
  intros Hj. unfold setObjectPosition. cbn [onObjectMoved set_sceneData].
  assert (Hsd : forall st0 : State T,
            sceneData (if onObjectMoved st then set_moved_calls st0 (moved_calls st0 ++ [(obj, pos)])
                       else st0) = sceneData st0)
    by (intros st0; destruct (onObjectMoved st); reflexivity).
  rewrite Hsd. cbn [sceneData set_sceneData].
  rewrite !list_lookup_insert_ne by lia. reflexivity.
Qed.

Lemma setObjectPosition_length (st : State T) (obj : option Obj) (pos : vec3 T) :
  length (sceneData (setObjectPosition st obj pos)) = length (sceneData st).
Proof.
  unfold setObjectPosition. destruct obj as [o|]; [|reflexivity].
  cbn [onObjectMoved set_sceneData].
  destruct (onObjectMoved st); cbn [sceneData set_moved_calls set_sceneData];
    now rewrite !length_insert.
Qed.

(** Storing a position is replacing the centre of the object by the
    position rounded to binary32. *)
Lemma setObjectPosition_center (st : State T) (header : list T) (pad : T) (sc : Scene T)
      (o : Obj) (pos : vec3 T) :
  layout_ok header sc -> (index o < 10)%nat ->
  sceneData st = scene_floats header pad sc ->
  sceneData (setObjectPosition st (Some o) pos)
  = scene_floats header pad (set_center sc o (stored pos)).
Proof.
  intros (Hh & Hs & Hb & Ht) Hi Hsd. unfold setObjectPosition.
  cbn [onObjectMoved set_sceneData].
  assert (Hmv : forall st0 : State T,
            sceneData (if onObjectMoved st then set_moved_calls st0 (moved_calls st0 ++ [(o, pos)])
                       else st0) = sceneData st0)
    by (intros st0; destruct (onObjectMoved st); reflexivity).
  rewrite Hmv. cbn [sceneData set_sceneData]. rewrite Hsd.
  destruct sc as [ns nb nt ss bs ts]. cbn [spheres boxes tori] in Hs, Hb, Ht.
  destruct (length_4 header Hh) as (h0 & h1 & h2 & h3 & ->).
  destruct (length_10 ss Hs) as (s0 & s1 & s2 & s3 & s4 & s5 & s6 & s7 & s8 & s9 & ->).
  destruct (length_10 bs Hb) as (b0 & b1 & b2 & b3 & b4 & b5 & b6 & b7 & b8 & b9 & ->).
  destruct (length_10 ts Ht) as (t0 & t1 & t2 & t3 & t4 & t5 & t6 & t7 & t8 & t9 & ->).
  destruct o as [ty i]. cbn [index] in Hi.
  destruct ty; do 10 (destruct i as [|i]; [reflexivity|]); lia.
Qed.

(** C10: a call of [handleDrag] changes no entry of [sceneData] other than
    the three at the offset of the selected object, which in the buffer
    layout are the entries of that object's centre and receive the returned
    position rounded to binary32; without a selection or without a drag
    plane it returns without any effect. *)
Theorem handleDrag_frame (st : State T) (deltaX deltaY : T) (cameraPos cameraDir : vec3 T) :
  let st' := fst (handleDrag st deltaX deltaY cameraPos cameraDir) in
  (selectedObject st = None \/ dragPlane st = None ->
     handleDrag st deltaX deltaY cameraPos cameraDir = (st, None)) /\
  (forall obj : Obj, selectedObject st = Some obj ->
     forall j : nat, (j < baseOffset obj \/ baseOffset obj + 2 < j)%nat ->
       sceneData st' !! j = sceneData st !! j) /\
  length (sceneData st') = length (sceneData st) /\
  (forall (obj : Obj) (pos : vec3 T) (header : list T) (pad : T) (sc : Scene T),
     selectedObject st = Some obj ->
     snd (handleDrag st deltaX deltaY cameraPos cameraDir) = Some pos ->
     layout_ok header sc -> (index obj < 10)%nat ->
     sceneData st = scene_floats header pad sc ->
     sceneData st' = scene_floats header pad (set_center sc obj (stored pos))).
Proof.
  cbv zeta. unfold handleDrag. split; [|split; [|split]].
  - intros [Hs|Hp].
    + now rewrite Hs.
    + rewrite Hp. now destruct (selectedObject st).
  - intros obj Hs j Hj. rewrite Hs.
    destruct (dragPlane st); [|reflexivity].
    cbn [getObjectPosition fst]. now apply setObjectPosition_frame.
  - destruct (selectedObject st) as [o|]; [|reflexivity].
    destruct (dragPlane st); [|reflexivity].
    cbn [getObjectPosition fst]. apply setObjectPosition_length.
  - intros obj pos header pad sc Hs. rewrite Hs.
    destruct (dragPlane st); [|discriminate].
    cbn [getObjectPosition fst snd]. intros [= <-] Hlay Hi Hsd.
    now apply setObjectPosition_center.
Qed.
End PickerGeneric.

Section PickerWitnesses.
Import ObjectPicker.

Lemma readback_origin_clamped_witness :
  fst (clampedOrigin (renderIDPass (constructor (T:=R) 800 600 []) (fun _ _ => 7%Z)) 1000 (-5))
  = 799%Z /\
  snd (clampedOrigin (renderIDPass (constructor (T:=R) 800 600 []) (fun _ _ => 7%Z)) 1000 (-5))
  = 0%Z /\
  readPixel (renderIDPass (constructor (T:=R) 800 600 []) (fun _ _ => 7%Z)) 1000 (-5) = Some 7%Z.
Proof.
  destruct (readback_origin_clamped (constructor (T:=R) 800 600 []) (fun _ _ => 7%Z) 1000 (-5)
              (texture_recorded_constructor (T:=R) 800 600 []))
    as (w & h & Ht & _ & _ & _ & _ & _ & _ & _ & _ & Hread).
  split; [reflexivity|]. split; [reflexivity | exact Hread].
Defined.
End PickerWitnesses.


(** ** Binary32 on the reals *)

Section Binary32OnReals.
Local Open Scope R_scope.

Lemma ln_powerRZ_2 (e : Z) : ln (powerRZ 2 e) = IZR e * ln 2.
Proof. rewrite powerRZ_Rpower by lra. unfold Rpower. apply ln_exp. Qed.

(** The exponent of a number in the binade [2^e, 2^(e+1)). *)
Lemma R_exponent_binade (x : R) (e : Z) :
  (-126 <= e)%Z -> powerRZ 2 e <= Rabs x < powerRZ 2 (e + 1) -> R_exponent x = e.
Proof.
  intros He [Hlo Hhi]. unfold R_exponent.
  pose proof ln_lt_2 as H2.
  assert (Hpos : 0 < powerRZ 2 e) by (apply powerRZ_lt; lra).
  assert (Hl : IZR e * ln 2 <= ln (Rabs x)).
  { rewrite <- ln_powerRZ_2. destruct Hlo as [Hlt|Heq].
    - left. apply ln_increasing; assumption.
    - rewrite Heq. right. reflexivity. }
  assert (Hh : ln (Rabs x) < (IZR e + 1) * ln 2).
  { rewrite <- plus_IZR, <- ln_powerRZ_2. apply ln_increasing; lra. }
  assert (Hq : Int_part (ln (Rabs x) / ln 2) = e).
  { symmetry. apply Int_part_spec.
    assert (Hdiv : ln (Rabs x) = ln (Rabs x) / ln 2 * ln 2) by (field; lra).
    assert (He1 : IZR e * ln 2 <= ln (Rabs x) / ln 2 * ln 2) by lra.
    assert (He2 : ln (Rabs x) / ln 2 * ln 2 < (IZR e + 1) * ln 2) by lra.
    split.
    - apply Rmult_lt_reg_r with (ln 2); [lra|]. lra.
    - apply Rmult_le_reg_r with (ln 2); [lra|]. lra. }
  rewrite Hq. lia.
Qed.

Lemma R_to_f32_0 : R_to_f32 0 = 0.
Proof. unfold R_to_f32. destruct (Req_dec_T 0 0) as [_|N]; [reflexivity | now elim N]. Qed.

(** -1/8 is a binary32 number; -1/10 is not, and is stored as
    -13421773 / 2^27, as on doubles. *)
Lemma R_to_f32_eighth : R_to_f32 (- (1 / 8)) = - (1 / 8).
Proof.
  unfold R_to_f32. destruct (Req_dec_T (- (1 / 8)) 0) as [E|_]; [lra|].
  rewrite (R_exponent_binade (- (1 / 8)) (-3)).
  - change (-3 - 23)%Z with (-26)%Z.
    replace (powerRZ 2 (-26)) with (/ 67108864) by (simpl; lra).
    replace (- (1 / 8) / / 67108864) with (IZR (-8388608)) by lra.
    rewrite (Rround_even_near (-8388608) (IZR (-8388608)))
      by (replace (IZR (-8388608) - IZR (-8388608)) with 0 by ring; rewrite Rabs_R0; lra).
    lra.
  - lia.
  - rewrite Rabs_Ropp, Rabs_pos_eq by lra. simpl. lra.
Qed.

Lemma R_to_f32_tenth : R_to_f32 (- (1 / 10)) = - (13421773 / 134217728).
Proof.
  unfold R_to_f32. destruct (Req_dec_T (- (1 / 10)) 0) as [E|_]; [lra|].
  rewrite (R_exponent_binade (- (1 / 10)) (-4)).
  - change (-4 - 23)%Z with (-27)%Z.
    replace (powerRZ 2 (-27)) with (/ 134217728) by (simpl; lra).
    rewrite (Rround_even_near (-13421773) (- (1 / 10) / / 134217728)).
    + lra.
    + replace (- (1 / 10) / / 134217728 - -13421773) with (1 / 5) by lra.
      rewrite Rabs_pos_eq by lra. lra.
  - lia.
  - rewrite Rabs_Ropp, Rabs_pos_eq by lra. simpl. lra.
Qed.
End Binary32OnReals.

(** ** Dragging *)

Section Drag.
Import ObjectPicker.
Local Open Scope R_scope.
Context {F32 : Float32 R}.

Lemma load_insert_eq (sd : list R) (i : nat) (v : R) :
  (i < length sd)%nat -> load (<[i:=v]> sd) i = v.
Proof.
  intros Hi. unfold load. rewrite nth_lookup, list_lookup_insert_eq by exact Hi. reflexivity.
Qed.

Lemma load_insert_ne (sd : list R) (i j : nat) (v : R) :
  i <> j -> load (<[i:=v]> sd) j = load sd j.
Proof.
  intros Hij. unfold load. rewrite !nth_lookup, list_lookup_insert_ne by exact Hij. reflexivity.
Qed.

(** What [getObjectPosition] reads after [setObjectPosition] is the position
    rounded to binary32. *)
Lemma get_after_set (st : State R) (obj : Obj) (pos : vec3 R) :
  (baseOffset obj + 2 < length (sceneData st))%nat ->
  getObjectPosition (setObjectPosition st (Some obj) pos) (Some obj) = Some (stored pos).
Proof.
  intros Hlen. unfold getObjectPosition, setObjectPosition.
  cbn [onObjectMoved set_sceneData].
  assert (Hsd : forall st0 : State R,
            sceneData (if onObjectMoved st then set_moved_calls st0 (moved_calls st0 ++ [(obj, pos)])
                       else st0) = sceneData st0)
    by (intros st0; destruct (onObjectMoved st); reflexivity).
  rewrite Hsd. cbn [sceneData set_sceneData].
  rewrite (load_insert_ne _ (baseOffset obj + 2) (baseOffset obj + 0)) by lia.
  rewrite (load_insert_ne _ (baseOffset obj + 1) (baseOffset obj + 0)) by lia.
  rewrite (load_insert_ne _ (baseOffset obj + 2) (baseOffset obj + 1)) by lia.
  rewrite !load_insert_eq by (rewrite ?length_insert; lia).
  reflexivity.
Qed.

Lemma normalize_unit (v : vec3 R) :
  0 < length3 v -> length3 (v3_div v (length3 v)) = 1.
Proof.
  intros HL. set (L := length3 v) in *.
  assert (HS : L * L = x3 v * x3 v + y3 v * y3 v + z3 v * z3 v).
  { unfold L. rewrite length3_R. apply sqrt_sqrt. nra. }
  rewrite length3_R. unfold v3_div. cbn [x3 y3 z3 fdiv R_scalar].
  replace (x3 v / L * (x3 v / L) + y3 v / L * (y3 v / L) + z3 v / L * (z3 v / L))
    with ((x3 v * x3 v + y3 v * y3 v + z3 v * z3 v) / (L * L)) by (field; lra).
  rewrite <- HS. replace (L * L / (L * L)) with 1 by (field; lra). apply sqrt_1.
Qed.

Lemma baseOffset_bound (obj : Obj) : (index obj < 10)%nat -> (baseOffset obj + 2 < 324)%nat.
Proof. destruct obj as [[] i]; cbn [index type baseOffset]; lia. Qed.

(** The value [handleDrag] returns, in the two cases of its guard. *)
Lemma handleDrag_value (st : State R) (obj : Obj) (pl : Plane R) (dX dY : R)
      (cameraPos cameraDir : vec3 R) :
  selectedObject st = Some obj -> dragPlane st = Some pl ->
  let b := baseOffset obj in
  let old := mk3 (load (sceneData st) (b + 0)) (load (sceneData st) (b + 1))
                 (load (sceneData st) (b + 2)) in
  let flat := flattened_right cameraDir in
  let rightLen := length3 flat in
  let dx := dX * sensitivity * length3 cameraPos in
  let dy := dY * sensitivity * length3 cameraPos in
  let right := if Rlt_dec (1 / 1000) rightLen then v3_div flat rightLen else flat in
  handleDrag st dX dY cameraPos cameraDir
  = (setObjectPosition st (Some obj) (drag_target old right world_up dx dy),
     Some (drag_target old right world_up dx dy)).
Proof.
  intros Hs Hp. cbv zeta. unfold handleDrag. rewrite Hs, Hp.
  cbn [getObjectPosition]. unfold fgt. cbn [flt R_scalar x3 y3 z3]. unfold Rltb.
  rewrite !length3_R. unfold flattened_right, sensitivity. cbn [x3 y3 z3]. real_lits.
  replace (1 * / 1000) with (1 / 1000) by lra.
  replace (z3 cameraDir * z3 cameraDir + 0 * 0 + - x3 cameraDir * - x3 cameraDir)
    with (z3 cameraDir * z3 cameraDir + - x3 cameraDir * - x3 cameraDir) by ring.
  set (L := sqrt (z3 cameraDir * z3 cameraDir + - x3 cameraDir * - x3 cameraDir)).
  set (D := sqrt (x3 cameraPos * x3 cameraPos + y3 cameraPos * y3 cameraPos
                  + z3 cameraPos * z3 cameraPos)).
  assert (Hnew : forall rx rz : R,
            mk3 (load (sceneData st) (baseOffset obj + 0) + rx * (dX * (2 * / 1000) * D))
                (load (sceneData st) (baseOffset obj + 1) - 1 * / 1 * (dY * (2 * / 1000) * D))
                (load (sceneData st) (baseOffset obj + 2) + rz * (dX * (2 * / 1000) * D))
            = drag_target
                (mk3 (load (sceneData st) (baseOffset obj + 0))
                     (load (sceneData st) (baseOffset obj + 1))
                     (load (sceneData st) (baseOffset obj + 2)))
                (mk3 rx 0 rz) world_up (dX * (2 / 1000) * D) (dY * (2 / 1000) * D)).
  { intros rx rz. unfold drag_target, v3_sub, v3_add, v3_scale, world_up.
    cbn [x3 y3 z3 fadd fsub fmul R_scalar]. f_equal; lra. }
  destruct (Rlt_dec (1 / 1000) L) as [Hbig|Hsmall].
  - cbn [x3 y3 z3]. rewrite Hnew. unfold v3_div. cbn [x3 y3 z3 fdiv R_scalar].
    replace (0 / L) with 0 by (field; lra). reflexivity.
  - cbn [x3 y3 z3]. rewrite Hnew. reflexivity.
Qed.

(** C7, as amended: with an object selected, a drag by [(deltaX, deltaY)]
    returns [old + right * dx' - up * dy'], where
    [dx' = deltaX * 0.002 * |cameraPos|], [dy' = deltaY * 0.002 * |cameraPos|],
    [up = (0, 1, 0)] and [right] is the camera direction flattened to the
    horizontal plane and turned by 90 degrees, normalised when its length
    exceeds 0.001 and left as it is otherwise; what it writes back, and
    what is read from the array afterwards, is that position rounded to
    binary32; with [deltaX = 10] at camera distance 5, [dx'] is
    [10 * 0.002 * 5]. *)
Theorem drag_moves_along_camera_right (st : State R) (obj : Obj) (deltaX deltaY : R)
    (cameraPos cameraDir : vec3 R) :
  reachable st -> selectedObject st = Some obj ->
  (324 <= length (sceneData st))%nat ->
  let b := baseOffset obj in
  let old := mk3 (load (sceneData st) (b + 0)) (load (sceneData st) (b + 1))
                 (load (sceneData st) (b + 2)) in
  let flat := flattened_right cameraDir in
  let rightLen := length3 flat in
  let cameraDistance := length3 cameraPos in
  let dx := deltaX * sensitivity * cameraDistance in
  let dy := deltaY * sensitivity * cameraDistance in
  let result := handleDrag st deltaX deltaY cameraPos cameraDir in
  (1 / 1000 < rightLen ->
     snd result = Some (drag_target old (v3_div flat rightLen) world_up dx dy) /\
     length3 (v3_div flat rightLen) = 1 /\
     y3 (v3_div flat rightLen) = 0 /\
     dot (v3_div flat rightLen) cameraDir = 0) /\
  (rightLen <= 1 / 1000 ->
     snd result = Some (drag_target old flat world_up dx dy)) /\
  getObjectPosition (fst result) (Some obj) = option_map stored (snd result) /\
  (deltaX = 10 -> cameraDistance = 5 -> dx = 10 * sensitivity * 5).
Proof.
  intros Hreach Hs Hlen. cbv zeta.
  destruct (reachable_invariant st Hreach) as [_ Hsel].
  destruct (Hsel obj Hs) as [Hplane Hidx].
  destruct (dragPlane st) as [pl|] eqn:Hp; [clear Hplane | contradiction].
  pose proof (baseOffset_bound obj Hidx) as Hb.
  rewrite (handleDrag_value st obj pl deltaX deltaY cameraPos cameraDir Hs Hp).
  cbv zeta. cbn [fst snd].
  split; [|split; [|split]].
  - intros Hbig. destruct (Rlt_dec (1 / 1000) (length3 (flattened_right cameraDir)));
      [|contradiction].
    split; [reflexivity|]. split; [apply normalize_unit; lra|].
    set (L := length3 (flattened_right cameraDir)) in *.
    unfold v3_div, flattened_right, dot. cbn [x3 y3 z3 fdiv fmul fadd R_scalar].
    split; field; lra.
  - intros Hsmall. destruct (Rlt_dec (1 / 1000) (length3 (flattened_right cameraDir)));
      [lra | reflexivity].
  - cbn [option_map]. apply get_after_set. lia.
  - intros -> ->. reflexivity.
Qed.
End Drag.

Section DragScenarios.
Import ObjectPicker.
Local Open Scope R_scope.
#[local] Existing Instance R_float32.

Lemma clicked_sphere0_reachable : reachable clicked_sphere0.
Proof. unfold clicked_sphere0. apply reach_click, reach_constructor. Qed.

Lemma clicked_sphere0_selected :
  selectedObject clicked_sphere0 = Some (mkObj sphere 0) /\
  dragPlane clicked_sphere0 = Some (mkPlane (mk3 0 0 0) (mk3 0 0 (-1))) /\
  sceneData clicked_sphere0 = repeat 0 324.
Proof. repeat split. Qed.

Lemma drag_moves_along_camera_right_witness :
  getObjectPosition
    (fst (handleDrag clicked_sphere0 10 0 (mk3 0 0 5) (mk3 0 0 (-1)))) (Some (mkObj sphere 0))
  = option_map stored (snd (handleDrag clicked_sphere0 10 0 (mk3 0 0 5) (mk3 0 0 (-1)))).
Proof.
  destruct (drag_moves_along_camera_right clicked_sphere0 (mkObj sphere 0) 10 0
              (mk3 0 0 5) (mk3 0 0 (-1)))
    as (_ & _ & Hback & _).
  - exact clicked_sphere0_reachable.
  - reflexivity.
  - rewrite (proj2 (proj2 clicked_sphere0_selected)), repeat_length. lia.
  - exact Hback.
Defined.

Lemma handleDrag_frame_witness :
  sceneData (fst (handleDrag clicked_sphere0 10 0 (mk3 0 0 5) (mk3 0 0 (-1)))) !! 0%nat
  = sceneData clicked_sphere0 !! 0%nat.
Proof.
  apply (proj1 (proj2 (handleDrag_frame clicked_sphere0 10 0 (mk3 0 0 5) (mk3 0 0 (-1))))
           (mkObj sphere 0)).
  - reflexivity.
  - left. cbn [baseOffset type index]. lia.
Defined.

(** The drag scenario of the design document, camera on the z axis at
    distance 5 looking at the origin: the selected sphere moves by
    [10 * 0.002 * 5] along the right vector [(-1, 0, 0)]. *)
Lemma drag_scenario :
  snd (handleDrag clicked_sphere0 10 0 (mk3 0 0 5) (mk3 0 0 (-1)))
  = Some (drag_target (mk3 0 0 0) (mk3 (-1) 0 0) world_up (10 * sensitivity * 5) 0) /\
  drag_target (mk3 0 0 0) (mk3 (-1) 0 0) world_up (10 * sensitivity * 5) 0
  = mk3 (- (1 / 10)) 0 0.
Proof.
  destruct clicked_sphere0_selected as (Hs & Hp & Hsd).
  rewrite (handleDrag_value clicked_sphere0 _ _ 10 0 (mk3 0 0 5) (mk3 0 0 (-1)) Hs Hp).
  cbv zeta. cbn [snd]. rewrite Hsd.
  assert (Hlen : length3 (flattened_right (mk3 0 0 (-1))) = 1).
  { unfold flattened_right. cbn [x3 z3]. replace (-1) with (- (1)) by lra.
    replace (- 0) with 0 by lra. apply (length3_axis 1). lra. }
  assert (Hcam : length3 (mk3 0 0 5) = 5) by (apply (length3_axis 5); lra).
  rewrite Hlen, Hcam. destruct (Rlt_dec (1 / 1000) 1); [|lra].
  unfold drag_target, v3_sub, v3_add, v3_scale, v3_div, flattened_right, world_up, sensitivity,
    load.
  cbn [x3 y3 z3 fadd fsub fmul fdiv R_scalar nth repeat baseOffset type index Nat.add Nat.mul].
  split; (f_equal; f_equal; lra) || (f_equal; lra).
Qed.

(** In that scenario the array then holds -13421773 / 2^27, the binary32
    number nearest to -1/10. *)
Lemma drag_scenario_read_back :
  getObjectPosition
    (fst (handleDrag clicked_sphere0 10 0 (mk3 0 0 5) (mk3 0 0 (-1)))) (Some (mkObj sphere 0))
  = Some (mk3 (- (13421773 / 134217728)) 0 0).
Proof.
  destruct clicked_sphere0_selected as (Hs & Hp & Hsd).
  destruct drag_scenario as [Hv Ht].
  assert (Hread : getObjectPosition
            (fst (handleDrag clicked_sphere0 10 0 (mk3 0 0 5) (mk3 0 0 (-1))))
            (Some (mkObj sphere 0))
          = option_map stored (snd (handleDrag clicked_sphere0 10 0 (mk3 0 0 5) (mk3 0 0 (-1))))).
  { rewrite (handleDrag_value clicked_sphere0 _ _ 10 0 (mk3 0 0 5) (mk3 0 0 (-1)) Hs Hp).
    cbv zeta. cbn [fst snd option_map]. apply get_after_set.
    rewrite Hsd, repeat_length. cbn [baseOffset type index]. lia. }
  rewrite Hread, Hv, Ht. cbn [option_map]. unfold stored. cbn [x3 y3 z3 to_f32 R_float32].
  now rewrite R_to_f32_0, R_to_f32_tenth.
Qed.

(** C7 as stated fails when the camera looks straight down: the flattened
    direction is the zero vector, the guard [rightLen > 0.001] skips the
    normalisation, and a drag by [deltaX = 10] at distance 5 leaves the
    object where it is; no unit vector [right] gives that position. *)
Lemma drag_looking_down_stays :
  reachable clicked_sphere0 /\
  selectedObject clicked_sphere0 = Some (mkObj sphere 0) /\
  length3 (mk3 0 5 0) = 5 /\
  snd (handleDrag clicked_sphere0 10 0 (mk3 0 5 0) (mk3 0 (-1) 0)) = Some (mk3 0 0 0) /\
  ~ (exists right : vec3 R,
        length3 right = 1 /\
        snd (handleDrag clicked_sphere0 10 0 (mk3 0 5 0) (mk3 0 (-1) 0))
        = Some (drag_target (mk3 0 0 0) right world_up
                            (10 * sensitivity * 5) (0 * sensitivity * 5))).
Proof.
  destruct clicked_sphere0_selected as (Hs & Hp & Hsd).
  assert (Hcam : length3 (mk3 0 5 0) = 5) by (apply (length3_axis 5); lra).
  assert (Hv : snd (handleDrag clicked_sphere0 10 0 (mk3 0 5 0) (mk3 0 (-1) 0))
               = Some (mk3 0 0 0)).
  { rewrite (handleDrag_value clicked_sphere0 _ _ 10 0 (mk3 0 5 0) (mk3 0 (-1) 0) Hs Hp).
    cbv zeta. cbn [snd]. rewrite Hsd, Hcam.
    assert (Hlen : length3 (flattened_right (mk3 0 (-1) 0)) = 0).
    { unfold flattened_right. cbn [x3 z3]. replace (- 0) with 0 by lra.
      apply (length3_axis 0). lra. }
    rewrite Hlen. destruct (Rlt_dec (1 / 1000) 0); [lra|].
    unfold drag_target, v3_sub, v3_add, v3_scale, flattened_right, world_up, sensitivity, load.
    cbn [x3 y3 z3 fadd fsub fmul R_scalar nth repeat baseOffset type index Nat.add Nat.mul].
    f_equal. f_equal; lra. }
  split; [exact clicked_sphere0_reachable|]. split; [exact Hs|]. split; [exact Hcam|].
  split; [exact Hv|].
  intros (right & Hunit & Heq). rewrite Hv in Heq. injection Heq as Hx Hy Hz.
  revert Hx Hy Hz. unfold drag_target, v3_sub, v3_add, v3_scale, world_up, sensitivity.
  cbn [x3 y3 z3 fadd fsub fmul R_scalar]. intros Hx Hy Hz.
  assert (Hrx : x3 right = 0) by lra.
  assert (Hry : y3 right = 0) by lra.
  assert (Hrz : z3 right = 0) by lra.
  rewrite length3_R, Hrx, Hry, Hrz in Hunit.
  replace (0 * 0 + 0 * 0 + 0 * 0) with 0 in Hunit by ring.
  rewrite sqrt_0 in Hunit. lra.
Qed.
End DragScenarios.


(** ** The scenarios of the design document, executed *)

Section ExecutedF32.
Import FloatModel ObjectPicker.
#[local] Existing Instance f32.

(** The ray from (0, 0, 5) toward -z hits the red sphere at [t = 3.5]; the
    tag is that of sphere slot 0 and resolves to red. *)
Example end_to_end_hit :
  Dynamic.ray_march red_sphere_scene eye toward_minus_z = mk2 (lit 3.5) (sphere_tag 0) /\
  Dynamic.get_material_color red_sphere_scene (sphere_tag 0)
    (v3_add eye (v3_scale toward_minus_z (lit 3.5))) = red32.
Proof. split; vm_compute; reflexivity. Qed.

(** The identifier pass writes 1 for the same ray and 0 for a ray that
    meets only the ground: a sphere-0 selection and no selection. *)
Example pick_scenario :
  unorm8 (x4 (IdPick.id_color (IdPick.ray_march red_sphere_scene eye toward_minus_z))) = 1%Z /\
  decodeID 1 = Some (mkObj sphere 0) /\
  unorm8 (x4 (IdPick.id_color (IdPick.ray_march red_sphere_scene beside downward))) = 0%Z /\
  decodeID 0 = None.
Proof. repeat split; vm_compute; reflexivity. Qed.

(** A ray that points away from everything accumulates more than
    [MAX_DIST] within the step budget. *)
Example march_away_misses :
  (x2 (Basic.ray_march (empty_scene 3 2 2) (mk3 (lit 0) (lit 1) (lit 0))
         (mk3 (lit 0) (lit 1) (lit 0))) .< MAX_DIST) = false.
Proof. vm_compute. reflexivity. Qed.

(** The far-origin march of the sphere property, in binary32. *)
Example far_origin_march_f32 :
  Basic.ray_march (mkScene 1 0 0 [mkSphere zero3 (lit 1) red32; sphere0; sphere0]
                           [box0; box0] [torus0; torus0])
                  (mk3 (lit 0) (lit 300) (lit 0)) downward
  = mk2 (lit 200) (.~ lit 1).
Proof. vm_compute. reflexivity. Qed.

(** The level march of the sphere property, in binary32: eight steps of 0.5
    set by the plane, then the sphere. *)
Example level_origin_march_f32 :
  Basic.ray_march (mkScene 1 0 0 [mkSphere zero3 (lit 1) red32; sphere0; sphere0]
                           [box0; box0] [torus0; torus0])
                  (mk3 (lit 5) (lit 0) (lit 0)) (mk3 (.~ lit 1) (lit 0) (lit 0))
  = mk2 (lit 4) (sphere_tag 0).
Proof. vm_compute. reflexivity. Qed.
End ExecutedF32.

Section ExecutedF64.
Import FloatModel ObjectPicker.
#[local] Existing Instance f64.
#[local] Existing Instance f64_float32.

(** The drag scenario on JavaScript numbers: [10 * 0.002 * 5] is the double
    0.1, and the sphere moves by it along the right vector (-1, 0, 0). *)
Example drag_scenario_f64 :
  selectedObject clicked_sphere0_f64 = Some (mkObj sphere 0) /\
  snd (handleDrag clicked_sphere0_f64 (lit 10) (lit 0)
         (mk3 (lit 0) (lit 0) (lit 5)) (mk3 (lit 0) (lit 0) (.~ lit 1)))
  = Some (mk3 (lit (-0.1)) (lit 0) (lit 0)).
Proof. split; vm_compute; reflexivity. Qed.

(** The array then holds the binary32 number nearest to -0.1, which is
    -13421773 / 2^27 = -0.100000001490116...: the position read back is not
    the position returned. *)
Example drag_scenario_read_back_f64 :
  getObjectPosition
    (fst (handleDrag clicked_sphere0_f64 (lit 10) (lit 0)
            (mk3 (lit 0) (lit 0) (lit 5)) (mk3 (lit 0) (lit 0) (.~ lit 1))))
    (Some (mkObj sphere 0))
  = Some (mk3 (lit (-13421773 # 134217728)) (lit 0) (lit 0)) /\
  lit (-13421773 # 134217728) <> lit (T:=spec_float) (-0.1).
Proof. split; [vm_compute; reflexivity | vm_compute; discriminate]. Qed.

(** The store on doubles: 0.1 and -0.2 lose their low bits, 2^24 + 1 becomes
    2^24, binary32 numbers are kept, and a number beyond the binary32 range
    becomes an infinity. *)
Example to_f32_values :
  to_f32 (lit 0.1) = lit (13421773 # 134217728) /\
  to_f32 (lit (-0.2)) = lit (-13421773 # 67108864) /\
  to_f32 (lit 16777217) = lit 16777216 /\
  to_f32 (lit 0.5) = lit 0.5 /\
  to_f32 (to_f32 (lit 0.1)) = to_f32 (lit 0.1) /\
  to_f32 (lit 1000000000000000000000000000000000000000) = lit 1 ./ lit 0.
Proof. repeat split; vm_compute; reflexivity. Qed.

(** Looking straight down, the same drag leaves the position unchanged. *)
Example drag_looking_down_f64 :
  snd (handleDrag clicked_sphere0_f64 (lit 10) (lit 0)
         (mk3 (lit 0) (lit 5) (lit 0)) (mk3 (lit 0) (.~ lit 1) (lit 0)))
  = Some (mk3 (lit 0) (lit 0) (lit 0)).
Proof. vm_compute. reflexivity. Qed.
End ExecutedF64.

(** ** The picker: further properties of [object_picker.js] *)

Section PickerIdentifiers.
Import ObjectPicker.

(** X1: [decodeID] answers exactly on the identifiers 1..30, and there it is the
    inverse of the numbering [index + 1], [index + 11], [index + 21]: an
    identifier decodes to an object if and only if it is the identifier of
    that object and the object's index is below 10; every other value
    (0, negative, above 30) decodes to [null]. *)
Theorem decodeID_exactly_inverts_identifiers (id : Z) :
  (forall o : Obj,
     decodeID id = Some o <-> (index o < 10)%nat /\ Z.of_nat (encodeID o) = id) /\
  (decodeID id = None <-> (id <= 0 \/ 30 < id)%Z).
Proof.
  split.
  - intros o. split.
    + unfold decodeID.
      destruct (id =? 0)%Z eqn:H0; [discriminate|].
      destruct ((1 <=? id)%Z && (id <=? 10)%Z) eqn:H1;
        [intros [= <-]; cbn [index type encodeID]; lia|].
      destruct ((11 <=? id)%Z && (id <=? 20)%Z) eqn:H2;
        [intros [= <-]; cbn [index type encodeID]; lia|].
      destruct ((21 <=? id)%Z && (id <=? 30)%Z) eqn:H3;
        [intros [= <-]; cbn [index type encodeID]; lia | discriminate].
    + intros [Hi <-]. now apply decode_encode.
  - unfold decodeID.
    destruct (id =? 0)%Z eqn:H0; [split; [lia | reflexivity]|].
    destruct ((1 <=? id)%Z && (id <=? 10)%Z) eqn:H1; [split; [discriminate | lia]|].
    destruct ((11 <=? id)%Z && (id <=? 20)%Z) eqn:H2; [split; [discriminate | lia]|].
    destruct ((21 <=? id)%Z && (id <=? 30)%Z) eqn:H3; [split; [discriminate | lia]|].
    split; [lia | reflexivity].
Qed.
End PickerIdentifiers.

Section PickerState.
Import ObjectPicker.
Context {T : Type} `{Scalar T}.

Lemma load_lookup (sd : list T) (i : nat) (v : T) : sd !! i = Some v -> load sd i = v.
Proof. intros Hl. unfold load. now apply nth_lookup_Some with (d := undefined) in Hl. Qed.

Lemma load_same_lookup (sd sd' : list T) (i : nat) : sd' !! i = sd !! i -> load sd' i = load sd i.
Proof. intros Hl. unfold load. now rewrite !nth_lookup, Hl. Qed.

(** Two distinct objects of the ten-slot layout never share an entry of the
    buffer. *)
Lemma baseOffset_apart (o o' : Obj) :
  (index o < 10)%nat -> (index o' < 10)%nat -> o <> o' ->
  (baseOffset o + 2 < baseOffset o' \/ baseOffset o' + 2 < baseOffset o)%nat.
Proof.
  destruct o as [ty i], o' as [ty' i']. cbn [index]. intros Hi Hi' Hne.
  destruct ty, ty'; cbn [baseOffset type index]; try lia;
    (assert (i <> i') by (intros ->; now apply Hne)); lia.
Qed.

(** X3: After [renderIDPass] the identifier texture has the size of the canvas,
    with each side raised to at least one texel, the recorded width and
    height are that size, and the texture holds the frame just rendered; a
    second pass on an unchanged canvas changes nothing. *)
Theorem renderIDPass_tracks_canvas (st : State T) (frame : Z -> Z -> Z) :
  texture_recorded st ->
  let st' := renderIDPass st frame in
  idTexture st' = Some (Z.max 1 (canvas_width st), Z.max 1 (canvas_height st)) /\
  idTextureWidth st' = Some (Z.max 1 (canvas_width st)) /\
  idTextureHeight st' = Some (Z.max 1 (canvas_height st)) /\
  idTexels st' = frame /\
  renderIDPass st' frame = st'.
Proof.
  intros Hrec. cbv zeta. destruct st as [cw ch sd so dr dp tex txl tw th cb1 cb2 c1 c2].
  unfold texture_recorded in Hrec. cbn [idTextureWidth idTextureHeight idTexture] in Hrec.
  unfold renderIDPass. cbn [idTexture idTextureWidth idTextureHeight canvas_width canvas_height].
  destruct tex as [[w0 h0]|], tw as [w|], th as [h|]; try contradiction;
    try (destruct Hrec as (? & ? & ?); discriminate).
  - destruct Hrec as ([= -> ->] & Hw1 & Hh1).
    destruct (negb (w =? Z.max 1 cw)%Z || negb (h =? Z.max 1 ch)%Z) eqn:Hre.
    + cbn. rewrite !Z.eqb_refl. cbn. now repeat split.
    + apply orb_false_iff in Hre. destruct Hre as [Ew Eh].
      apply negb_false_iff, Z.eqb_eq in Ew. apply negb_false_iff, Z.eqb_eq in Eh.
      subst w h. cbn. rewrite !Z.eqb_refl. cbn. now repeat split.
  - cbn. rewrite !Z.eqb_refl. cbn. now repeat split.
  - cbn. rewrite !Z.eqb_refl. cbn. now repeat split.
Qed.

Lemma renderIDPass_calls (st : State T) (frame : Z -> Z -> Z) :
  moved_calls (renderIDPass st frame) = moved_calls st /\
  selected_calls (renderIDPass st frame) = selected_calls st /\
  onObjectSelected (renderIDPass st frame) = onObjectSelected st /\
  isDragging (renderIDPass st frame) = isDragging st.
Proof.
  unfold renderIDPass.
  destruct (idTexture st) as [sz|], (idTextureWidth st) as [tw|],
    (idTextureHeight st) as [th|]; try (now repeat split).
  destruct (negb (tw =? Z.max 1 (canvas_width st))%Z
            || negb (th =? Z.max 1 (canvas_height st))%Z); now repeat split.
Qed.

Lemma handleClick_bookkeeping (st : State T) (frame : Z -> Z -> Z) (x y : Q)
      (cameraPos cameraDir : vec3 T) :
  let st' := fst (handleClick st frame x y cameraPos cameraDir) in
  moved_calls st' = moved_calls st /\ isDragging st' = isDragging st /\
  (selected_calls st' = selected_calls st \/
   exists o : Obj, (index o < 10)%nat /\ selected_calls st' = selected_calls st ++ [o]).
Proof.
  cbv zeta. destruct (renderIDPass_calls st frame) as (Em & Es & Eo & Ed).
  unfold handleClick.
  destruct (readPixel _ x y) as [id|]; cbn [fst]; [|split; [|split; [|left]]; assumption].
  destruct (decodeID id) as [o|] eqn:Hdec;
    cbn [getObjectPosition fst set_selection moved_calls isDragging selected_calls];
    (split; [exact Em|]); (split; [exact Ed|]); [|now left].
  rewrite Eo, Es. destruct (onObjectSelected st); [right | now left].
  exists o. split; [exact (decodeID_index id o Hdec) | reflexivity].
Qed.

(** X4: A click renders the identifier pass, reads the texel under the clamped
    coordinate and decodes it.  When it decodes to an object, that object
    becomes the selection, the drag plane passes through the object's stored
    position with the camera direction as normal, and [onObjectSelected] is
    called once if it is registered; when it decodes to nothing the
    selection is cleared, the previous drag plane is kept and no callback
    runs.  Either way the scene data is untouched and [onObjectMoved] is not
    called. *)
Theorem handleClick_selects_decoded_object (st : State T) (frame : Z -> Z -> Z) (x y : Q)
    (cameraPos cameraDir : vec3 T) :
  texture_recorded st ->
  let st1 := renderIDPass st frame in
  let id := frame (fst (clampedOrigin st1 x y)) (snd (clampedOrigin st1 x y)) in
  let st' := fst (handleClick st frame x y cameraPos cameraDir) in
  sceneData st' = sceneData st /\ moved_calls st' = moved_calls st /\
  match decodeID id with
  | Some o =>
      selectedObject st' = Some o /\
      dragPlane st'
      = Some (mkPlane (mk3 (load (sceneData st) (baseOffset o + 0))
                           (load (sceneData st) (baseOffset o + 1))
                           (load (sceneData st) (baseOffset o + 2))) cameraDir) /\
      selected_calls st'
      = (if onObjectSelected st then selected_calls st ++ [o] else selected_calls st)
  | None =>
      selectedObject st' = None /\ dragPlane st' = dragPlane st /\
      selected_calls st' = selected_calls st
  end.
Proof.
  intros Hrec. cbv zeta.
  destruct (readback_origin_clamped_aux st frame x y Hrec) as (w & h & _ & _ & _ & Hread).
  cbv zeta in Hread. unfold handleClick. rewrite Hread.
  destruct (renderIDPass_selection st frame) as (_ & Ep & Esd).
  destruct (renderIDPass_calls st frame) as (Em & Es & Eo & _).
  destruct (decodeID _) as [o|]; cbn [getObjectPosition fst set_selection sceneData
    moved_calls selectedObject dragPlane selected_calls];
    rewrite ?Esd, ?Em, ?Es, ?Eo, ?Ep; now repeat split.
Qed.

(** X7: The scene buffer in the layout of the struct declarations that [init]
    passes to the shader is 324 floats long, and for every object of the
    ten slots of each type [getObjectPosition] reads the three floats of
    that object's [center] field. *)
Theorem getObjectPosition_reads_center_field (st : State T) (header : list T) (pad : T)
    (sc : Scene T) (o : Obj) :
  layout_ok header sc -> (index o < 10)%nat ->
  sceneData st = scene_floats header pad sc ->
  length (sceneData st) = 324%nat /\
  getObjectPosition st (Some o) = Some (center_of sc o).
Proof.
  intros Hlay Hi Hsd. split; [|now apply (getObjectPosition_center st header pad sc)].
  destruct Hlay as (Hh & Hs & Hb & Ht). rewrite Hsd.
  destruct sc as [ns nb nt ss bs ts]. cbn [spheres boxes tori] in Hs, Hb, Ht.
  destruct (length_4 header Hh) as (h0 & h1 & h2 & h3 & ->).
  destruct (length_10 ss Hs) as (s0 & s1 & s2 & s3 & s4 & s5 & s6 & s7 & s8 & s9 & ->).
  destruct (length_10 bs Hb) as (b0 & b1 & b2 & b3 & b4 & b5 & b6 & b7 & b8 & b9 & ->).
  destruct (length_10 ts Ht) as (t0 & t1 & t2 & t3 & t4 & t5 & t6 & t7 & t8 & t9 & ->).
  reflexivity.
Qed.

(** From here on the store into the array takes part. *)
Context `{Float32 T}.

Lemma sceneData_setObjectPosition (st : State T) (o : Obj) (pos : vec3 T) :
  sceneData (setObjectPosition st (Some o) pos)
  = <[baseOffset o + 2 := to_f32 (z3 pos)]>
      (<[baseOffset o + 1 := to_f32 (y3 pos)]>
         (<[baseOffset o + 0 := to_f32 (x3 pos)]> (sceneData st))).
Proof.
  unfold setObjectPosition. cbn [onObjectMoved set_sceneData].
  destruct (onObjectMoved st); reflexivity.
Qed.


(** X2: After [setObjectPosition] the position [getObjectPosition] reads for
    that object is the stored position rounded to binary32, coordinate by
    coordinate, and the position of every other object of the ten-slot
    layout is left as it was. *)
Theorem setObjectPosition_moves_one_object (st : State T) (o o' : Obj) (pos : vec3 T) :
  (index o < 10)%nat -> (index o' < 10)%nat ->
  (324 <= length (sceneData st))%nat ->
  getObjectPosition (setObjectPosition st (Some o) pos) (Some o)
  = Some (mk3 (to_f32 (x3 pos)) (to_f32 (y3 pos)) (to_f32 (z3 pos))) /\
  (o' <> o ->
   getObjectPosition (setObjectPosition st (Some o) pos) (Some o')
   = getObjectPosition st (Some o')).
Proof.
  intros Hi Hi' Hlen.
  assert (Hb : (baseOffset o + 2 < length (sceneData st))%nat).
  { destruct o as [[] i]; cbn [index] in Hi; cbn [baseOffset type index]; lia. }
  unfold getObjectPosition. rewrite sceneData_setObjectPosition. split.
  - f_equal. f_equal; apply load_lookup.
    + rewrite !list_lookup_insert_ne by lia. apply list_lookup_insert_eq. lia.
    + rewrite list_lookup_insert_ne by lia. apply list_lookup_insert_eq.
      rewrite length_insert. lia.
    + apply list_lookup_insert_eq. rewrite !length_insert. lia.
  - intros Hne. pose proof (baseOffset_apart o' o Hi' Hi Hne) as Hap.
    f_equal. f_equal; apply load_same_lookup; rewrite !list_lookup_insert_ne by lia;
      reflexivity.
Qed.

Lemma handleDrag_bookkeeping (st : State T) (deltaX deltaY : T)
      (cameraPos cameraDir : vec3 T) :
  let st' := fst (handleDrag st deltaX deltaY cameraPos cameraDir) in
  selected_calls st' = selected_calls st /\ isDragging st' = isDragging st /\
  (moved_calls st' = moved_calls st \/
   exists (obj : Obj) (pos : vec3 T),
     selectedObject st = Some obj /\ moved_calls st' = moved_calls st ++ [(obj, pos)]).
Proof.
  cbv zeta. unfold handleDrag.
  destruct (selectedObject st) as [o|]; [|now repeat split; left].
  destruct (dragPlane st); [|now repeat split; left].
  cbn [getObjectPosition fst]. unfold setObjectPosition.
  cbn [onObjectMoved set_sceneData].
  destruct (onObjectMoved st); cbn [selected_calls isDragging moved_calls set_moved_calls
    set_sceneData]; (split; [reflexivity|]); (split; [reflexivity|]); [right | now left].
  eexists o, _. split; reflexivity.
Qed.

(** X5: After a click that hits no object, a drag does nothing: [handleDrag]
    returns without a position and leaves the picker as it is, although the
    drag plane of an earlier selection may still be stored. *)
Theorem drag_after_background_click_is_inert (st : State T) (frame : Z -> Z -> Z) (x y : Q)
    (cameraPos cameraDir : vec3 T) (deltaX deltaY : T) (cameraPos' cameraDir' : vec3 T) :
  texture_recorded st ->
  decodeID (frame (fst (clampedOrigin (renderIDPass st frame) x y))
                  (snd (clampedOrigin (renderIDPass st frame) x y))) = None ->
  let st' := fst (handleClick st frame x y cameraPos cameraDir) in
  snd (handleClick st frame x y cameraPos cameraDir) = None /\
  handleDrag st' deltaX deltaY cameraPos' cameraDir' = (st', None).
Proof.
  intros Hrec Hnone. cbv zeta. split.
  - rewrite handleClick_decodes_texel by assumption. exact Hnone.
  - destruct (readback_origin_clamped_aux st frame x y Hrec) as (w & h & _ & _ & _ & Hread).
    cbv zeta in Hread.
    assert (Hs : selectedObject (fst (handleClick st frame x y cameraPos cameraDir)) = None).
    { unfold handleClick. rewrite Hread, Hnone. reflexivity. }
    unfold handleDrag. now rewrite Hs.
Qed.

(** X6: [handleDrag] reports the move exactly once: when it returns a position,
    an object was selected, and [onObjectMoved], if registered, is called
    once with that object and the returned position; when it returns
    nothing the picker is unchanged.  It never calls [onObjectSelected]. *)
Theorem handleDrag_notifies_once (st : State T) (deltaX deltaY : T)
    (cameraPos cameraDir : vec3 T) :
  let r := handleDrag st deltaX deltaY cameraPos cameraDir in
  selected_calls (fst r) = selected_calls st /\
  match snd r with
  | Some newPos =>
      exists obj : Obj,
        selectedObject st = Some obj /\
        moved_calls (fst r)
        = (if onObjectMoved st then moved_calls st ++ [(obj, newPos)] else moved_calls st)
  | None => fst r = st
  end.
Proof.
  cbv zeta. unfold handleDrag.
  destruct (selectedObject st) as [o|]; [|now split].
  destruct (dragPlane st); [|now split].
  cbn [getObjectPosition fst snd]. unfold setObjectPosition.
  cbn [onObjectMoved set_sceneData moved_calls].
  destruct (onObjectMoved st); (split; [reflexivity|]); exists o; now split.
Qed.

(** X8: What every state of a picker satisfies, whatever sequence of canvas
    changes, callback registrations, identifier passes, clicks and drags led
    to it: [isDragging] is still [false] (no method sets it); a selected
    object has a drag plane and an index below 10; the recorded texture
    width and height are set together and are then the size of the texture,
    at least 1 x 1; and every object reported to a callback had an index
    below 10. *)
Theorem reachable_picker_invariants (st : State T) :
  reachable st ->
  isDragging st = false /\
  (forall o : Obj, selectedObject st = Some o -> dragPlane st <> None /\ (index o < 10)%nat) /\
  (idTextureWidth st = None <-> idTextureHeight st = None) /\
  (forall w h : Z, idTextureWidth st = Some w -> idTextureHeight st = Some h ->
     idTexture st = Some (w, h) /\ (1 <= w)%Z /\ (1 <= h)%Z) /\
  (forall o : Obj, In o (selected_calls st) -> (index o < 10)%nat) /\
  (forall (o : Obj) (pos : vec3 T), In (o, pos) (moved_calls st) -> (index o < 10)%nat).
Proof.
  intros Hreach.
  destruct (reachable_invariant st Hreach) as [Htex Hsel].
  assert (Hrest : isDragging st = false /\
            (forall o : Obj, In o (selected_calls st) -> (index o < 10)%nat) /\
            (forall (o : Obj) (pos : vec3 T), In (o, pos) (moved_calls st) -> (index o < 10)%nat)).
  { clear Htex Hsel.
    induction Hreach as [w h sd|w h sd|st w h _ IH|st a b _ IH
                    |st frame Hr IH|st frame x y cp cd Hr IH
                    |st dX dY cp cd Hr IH].
    - cbn. repeat split; intros; contradiction.
    - cbn. repeat split; intros; contradiction.
    - exact IH.
    - exact IH.
    - unfold renderIDPass.
      destruct (idTexture st) as [sz|], (idTextureWidth st) as [tw|],
        (idTextureHeight st) as [th|]; try exact IH.
      destruct (negb (tw =? Z.max 1 (canvas_width st))%Z
                || negb (th =? Z.max 1 (canvas_height st))%Z); exact IH.
    - destruct (handleClick_bookkeeping st frame x y cp cd) as (Em & Ed & Es).
      cbv zeta in Em, Ed, Es. destruct IH as (Hd & Hsc & Hmc).
      rewrite Em, Ed. split; [exact Hd|]. split; [|exact Hmc].
      destruct Es as [->|(o & Ho & ->)]; [exact Hsc|].
      intros o' Hin. apply in_app_or in Hin. destruct Hin as [Hin|[<-|[]]];
        [now apply Hsc | exact Ho].
    - destruct (reachable_invariant st Hr) as [_ Hsel].
      destruct (handleDrag_bookkeeping st dX dY cp cd) as (Es & Ed & Em).
      cbv zeta in Es, Ed, Em. destruct IH as (Hd & Hsc & Hmc).
      rewrite Es, Ed. split; [exact Hd|]. split; [exact Hsc|].
      destruct Em as [->|(obj & pos & Hobj & ->)]; [exact Hmc|].
      intros o pos' Hin. apply in_app_or in Hin. destruct Hin as [Hin|[[= <- <-]|[]]];
        [now apply (Hmc o pos') | now apply (Hsel obj Hobj)]. }
  destruct Hrest as (Hd & Hsc & Hmc).
  split; [exact Hd|]. split; [exact Hsel|].
  unfold texture_recorded in Htex.
  destruct (idTextureWidth st) as [w|], (idTextureHeight st) as [h|]; try contradiction.
  - split; [split; discriminate|]. split; [|split; assumption].
    intros w' h' [= <-] [= <-]. exact Htex.
  - split; [split; reflexivity|]. split; [|split; assumption].
    intros w' h'; discriminate.
Qed.
End PickerState.

Section PickerStateWitnesses.
Import ObjectPicker.
Local Open Scope R_scope.
#[local] Existing Instance R_float32.

Lemma renderIDPass_tracks_canvas_witness :
  idTexture (renderIDPass (constructor (T:=R) 0 0 []) (fun _ _ => 0%Z)) = Some (1%Z, 1%Z).
Proof.
  apply (proj1 (renderIDPass_tracks_canvas (constructor (T:=R) 0 0 []) (fun _ _ => 0%Z)
                  (texture_recorded_constructor (T:=R) 0 0 []))).
Defined.

Lemma handleClick_selects_decoded_object_witness :
  sceneData (fst (handleClick (constructor 800 600 (repeat 0 324)) (fun _ _ => 1%Z) 400 300
                    (mk3 0 0 5) (mk3 0 0 (-1))))
  = sceneData (constructor 800 600 (repeat 0 324)).
Proof.
  apply (proj1 (handleClick_selects_decoded_object
                  (constructor 800 600 (repeat 0 324)) (fun _ _ => 1%Z) 400 300
                  (mk3 0 0 5) (mk3 0 0 (-1))
                  (texture_recorded_constructor (T:=R) 800 600 (repeat 0 324)))).
Defined.

Lemma drag_after_background_click_is_inert_witness :
  snd (handleClick (constructor 800 600 (repeat 0 324)) (fun _ _ => 0%Z) 400 300
         (mk3 0 0 5) (mk3 0 0 (-1))) = None.
Proof.
  apply (proj1 (drag_after_background_click_is_inert
                  (constructor 800 600 (repeat 0 324)) (fun _ _ => 0%Z) 400 300
                  (mk3 0 0 5) (mk3 0 0 (-1)) 10 0 (mk3 0 0 5) (mk3 0 0 (-1))
                  (texture_recorded_constructor (T:=R) 800 600 (repeat 0 324))
                  eq_refl)).
Defined.

Lemma getObjectPosition_reads_center_field_witness :
  length (sceneData (constructor 800 600 (scene_floats [0; 0; 0; 0] 0 (empty_scene 10 10 10))))
  = 324%nat.
Proof.
  apply (proj1 (getObjectPosition_reads_center_field
                  (constructor 800 600 (scene_floats [0; 0; 0; 0] 0 (empty_scene 10 10 10)))
                  [0; 0; 0; 0] 0 (empty_scene 10 10 10) (mkObj torus 9)
                  ltac:(repeat split; reflexivity) ltac:(cbn [index]; lia) eq_refl)).
Defined.

Lemma reachable_picker_invariants_witness : isDragging clicked_sphere0 = false.
Proof.
  apply (proj1 (reachable_picker_invariants clicked_sphere0 clicked_sphere0_reachable)).
Defined.
End PickerStateWitnesses.

Section PickerStateF64.
Import ObjectPicker FloatModel.
#[local] Existing Instance f64.
#[local] Existing Instance f64_float32.

(** On doubles: the position (0.1, -0.2, 2^24 + 1) is read back as the
    binary32 numbers 13421773 / 2^27, -13421773 / 2^26 and 2^24. *)
Lemma setObjectPosition_moves_one_object_witness :
  getObjectPosition
    (setObjectPosition (constructor 800 600 (repeat (lit 0) 324)) (Some (mkObj sphere 0))
       (mk3 (lit 0.1) (lit (-0.2)) (lit 16777217)))
    (Some (mkObj sphere 0))
  = Some (mk3 (lit (13421773 # 134217728)) (lit (-13421773 # 67108864)) (lit 16777216)).
Proof.
  rewrite (proj1 (setObjectPosition_moves_one_object
                    (constructor 800 600 (repeat (lit 0) 324)) (mkObj sphere 0) (mkObj box 0)
                    (mk3 (lit 0.1) (lit (-0.2)) (lit 16777217))
                    ltac:(cbn [index]; lia) ltac:(cbn [index]; lia)
                    ltac:(cbn [sceneData constructor]; rewrite repeat_length; lia))).
  vm_compute. reflexivity.
Defined.
End PickerStateF64.

Section DragComposition.
Import ObjectPicker.
Local Open Scope R_scope.
Context {F32 : Float32 R}.

Lemma drag_target_add (old right up : vec3 R) (dx1 dy1 dx2 dy2 : R) :
  drag_target (drag_target old right up dx1 dy1) right up dx2 dy2
  = drag_target old right up (dx1 + dx2) (dy1 + dy2).
Proof.
  unfold drag_target, v3_sub, v3_add, v3_scale. cbn [x3 y3 z3 fadd fsub fmul R_scalar].
  f_equal; ring.
Qed.

Lemma insert3_overwrite (sd : list R) (b : nat) (p0 p1 p2 q0 q1 q2 : R) :
  <[(b + 2)%nat := q2]> (<[(b + 1)%nat := q1]> (<[(b + 0)%nat := q0]>
    (<[(b + 2)%nat := p2]> (<[(b + 1)%nat := p1]> (<[(b + 0)%nat := p0]> sd)))))
  = <[(b + 2)%nat := q2]> (<[(b + 1)%nat := q1]> (<[(b + 0)%nat := q0]> sd)).
Proof.
  apply list_eq. intros j.
  destruct (decide (j = b + 2)%nat) as [->|N2].
  { destruct (decide (b + 2 < length sd)%nat).
    - rewrite !list_lookup_insert_eq by (rewrite ?length_insert; lia). reflexivity.
    - rewrite !lookup_ge_None_2 by (rewrite ?length_insert; lia). reflexivity. }
  rewrite (list_lookup_insert_ne _ (b + 2)%nat j) by lia.
  rewrite (list_lookup_insert_ne _ (b + 2)%nat j) by lia.
  destruct (decide (j = b + 1)%nat) as [->|N1].
  { destruct (decide (b + 1 < length sd)%nat).
    - rewrite !list_lookup_insert_eq by (rewrite ?length_insert; lia). reflexivity.
    - rewrite !lookup_ge_None_2 by (rewrite ?length_insert; lia). reflexivity. }
  rewrite (list_lookup_insert_ne _ (b + 1)%nat j) by lia.
  rewrite (list_lookup_insert_ne _ (b + 1)%nat j) by lia.
  destruct (decide (j = b + 0)%nat) as [->|N0].
  { destruct (decide (b + 0 < length sd)%nat).
    - rewrite !list_lookup_insert_eq by (rewrite ?length_insert; lia). reflexivity.
    - rewrite !lookup_ge_None_2 by (rewrite ?length_insert; lia). reflexivity. }
  rewrite !list_lookup_insert_ne by lia. reflexivity.
Qed.

(** X9: Two drags in a row with the same camera.  The second drag starts from
    what the first one left in the array, which is the first result rounded
    to binary32; when the array holds the first result exactly (its
    coordinates are binary32 numbers), the two drags return the position
    and write the scene data of one drag by the sum of the two mouse deltas
    (real arithmetic in [handleDrag]). *)
Theorem handleDrag_deltas_add (st : State R) (obj : Obj) (dX1 dY1 dX2 dY2 : R)
    (cameraPos cameraDir : vec3 R) :
  reachable st -> selectedObject st = Some obj ->
  (324 <= length (sceneData st))%nat ->
  let first := handleDrag st dX1 dY1 cameraPos cameraDir in
  let two := handleDrag (fst first) dX2 dY2 cameraPos cameraDir in
  let one := handleDrag st (dX1 + dX2) (dY1 + dY2) cameraPos cameraDir in
  let flat := flattened_right cameraDir in
  let right := if Rlt_dec (1 / 1000) (length3 flat) then v3_div flat (length3 flat) else flat in
  let dx2 := dX2 * sensitivity * length3 cameraPos in
  let dy2 := dY2 * sensitivity * length3 cameraPos in
  (exists p1 : vec3 R,
     snd first = Some p1 /\
     snd two = Some (drag_target (stored p1) right world_up dx2 dy2)) /\
  (option_map stored (snd first) = snd first ->
   snd two = snd one /\ sceneData (fst two) = sceneData (fst one)).
Proof.
  intros Hreach Hs Hlen. cbv zeta.
  destruct (reachable_invariant st Hreach) as [_ Hsel].
  destruct (Hsel obj Hs) as [Hplane Hidx].
  destruct (dragPlane st) as [pl|] eqn:Hp; [clear Hplane | contradiction].
  pose proof (baseOffset_bound obj Hidx) as Hb.
  destruct (handleDrag_fields st dX1 dY1 cameraPos cameraDir) as (Hs1 & Hp1 & _).
  cbv zeta in Hs1, Hp1. rewrite Hs in Hs1. rewrite Hp in Hp1.
  rewrite (handleDrag_value _ obj pl dX2 dY2 cameraPos cameraDir Hs1 Hp1).
  rewrite (handleDrag_value st obj pl (dX1 + dX2) (dY1 + dY2) cameraPos cameraDir Hs Hp).
  rewrite (handleDrag_value st obj pl dX1 dY1 cameraPos cameraDir Hs Hp).
  cbv zeta. cbn [fst snd].
  set (right := if Rlt_dec (1 / 1000) (length3 (flattened_right cameraDir))
                then v3_div (flattened_right cameraDir) (length3 (flattened_right cameraDir))
                else flattened_right cameraDir).
  set (old := mk3 (load (sceneData st) (baseOffset obj + 0))
                  (load (sceneData st) (baseOffset obj + 1))
                  (load (sceneData st) (baseOffset obj + 2))).
  remember (drag_target old right world_up (dX1 * sensitivity * length3 cameraPos)
                        (dY1 * sensitivity * length3 cameraPos)) as P1 eqn:HP1.
  assert (Hget : getObjectPosition (setObjectPosition st (Some obj) P1) (Some obj)
                 = Some (stored P1))
    by (apply get_after_set; lia).
  remember (setObjectPosition st (Some obj) P1) as st1 eqn:Hst1.
  unfold getObjectPosition in Hget. injection Hget as Hx Hy Hz. rewrite Hx, Hy, Hz.
  change (mk3 (to_f32 (x3 P1)) (to_f32 (y3 P1)) (to_f32 (z3 P1))) with (stored P1).
  split.
  - exists P1. split; reflexivity.
  - cbn [option_map]. intros [= Hexact]. rewrite Hexact.
    assert (Hsum : drag_target P1 right world_up (dX2 * sensitivity * length3 cameraPos)
                               (dY2 * sensitivity * length3 cameraPos)
                   = drag_target old right world_up
                       ((dX1 + dX2) * sensitivity * length3 cameraPos)
                       ((dY1 + dY2) * sensitivity * length3 cameraPos)).
    { rewrite HP1, drag_target_add. f_equal; ring. }
    rewrite Hsum. split; [reflexivity|].
    rewrite Hst1, !sceneData_setObjectPosition. apply insert3_overwrite.
Qed.
End DragComposition.

Section DragCompositionWitness.
Import ObjectPicker.
Local Open Scope R_scope.
#[local] Existing Instance R_float32.

(** The first drag moves the sphere to (-1/8, 0, 0), which the array holds
    exactly. *)
Lemma handleDrag_deltas_add_witness :
  snd (handleDrag (fst (handleDrag clicked_sphere0 (25 / 2) 0 (mk3 0 0 5) (mk3 0 0 (-1)))) 5 3
         (mk3 0 0 5) (mk3 0 0 (-1)))
  = snd (handleDrag clicked_sphere0 (25 / 2 + 5) (0 + 3) (mk3 0 0 5) (mk3 0 0 (-1))).
Proof.
  refine (proj1 (proj2 (handleDrag_deltas_add clicked_sphere0 (mkObj sphere 0) (25 / 2) 0 5 3
                          (mk3 0 0 5) (mk3 0 0 (-1)) clicked_sphere0_reachable eq_refl _) _)).
  - rewrite (proj2 (proj2 clicked_sphere0_selected)), repeat_length. lia.
  - destruct clicked_sphere0_selected as (Hs & Hp & Hsd).
    rewrite (handleDrag_value clicked_sphere0 _ _ (25 / 2) 0 (mk3 0 0 5) (mk3 0 0 (-1)) Hs Hp).
    cbv zeta. cbn [snd option_map]. rewrite Hsd.
    assert (Hlen : length3 (flattened_right (mk3 0 0 (-1))) = 1).
    { unfold flattened_right. cbn [x3 z3]. replace (-1) with (- (1)) by lra.
      replace (- 0) with 0 by lra. apply (length3_axis 1). lra. }
    assert (Hcam : length3 (mk3 0 0 5) = 5) by (apply (length3_axis 5); lra).
    rewrite Hlen, Hcam. destruct (Rlt_dec (1 / 1000) 1); [|lra].
    assert (Hpos : drag_target (mk3 (load (repeat 0 324) (baseOffset (mkObj sphere 0) + 0))
                                    (load (repeat 0 324) (baseOffset (mkObj sphere 0) + 1))
                                    (load (repeat 0 324) (baseOffset (mkObj sphere 0) + 2)))
                     (v3_div (flattened_right (mk3 0 0 (-1))) 1) world_up
                     (25 / 2 * sensitivity * 5) (0 * sensitivity * 5)
                   = mk3 (- (1 / 8)) 0 0).
    { unfold drag_target, v3_sub, v3_add, v3_scale, v3_div, flattened_right, world_up,
        sensitivity, load.
      cbn [x3 y3 z3 fadd fsub fmul fdiv R_scalar nth repeat baseOffset type index
           Nat.add Nat.mul].
      f_equal; lra. }
    rewrite Hpos. unfold stored. cbn [x3 y3 z3 to_f32 R_float32].
    rewrite R_to_f32_0, R_to_f32_eighth. reflexivity.
Defined.
End DragCompositionWitness.

(** ** The vertex stage: one triangle over the whole target *)

Section VertexStage.
Import PickerShader.
Local Open Scope R_scope.

(** X10: The three vertices [vs_main] emits for the draw of three vertices span
    a triangle that contains the whole clip-space square [-1, 1] x [-1, 1]:
    every point of the square is a convex combination of the three
    positions, so the one triangle covers the whole render target.  All
    three lie at depth 0 with [w = 1], and a fourth vertex index has no
    position. *)
Theorem vs_main_triangle_covers_target (x y : R) :
  -1 <= x <= 1 -> -1 <= y <= 1 ->
  exists (v0 v1 v2 : vec4 R) (a b c : R),
    vs_main 0 = Some v0 /\ vs_main 1 = Some v1 /\ vs_main 2 = Some v2 /\
    vs_main (T:=R) 3 = None /\
    0 <= a /\ 0 <= b /\ 0 <= c /\ a + b + c = 1 /\
    x = a * x4 v0 + b * x4 v1 + c * x4 v2 /\
    y = a * y4 v0 + b * y4 v1 + c * y4 v2 /\
    z4 v0 = 0 /\ z4 v1 = 0 /\ z4 v2 = 0 /\ w4 v0 = 1 /\ w4 v1 = 1 /\ w4 v2 = 1.
Proof.
  intros Hx Hy.
  exists (mk4 (-1) (-1) 0 1), (mk4 3 (-1) 0 1), (mk4 (-1) 3 0 1).
  exists ((2 - x - y) / 4), ((x + 1) / 4), ((y + 1) / 4).
  unfold vs_main, pos. cbn [lookup list_lookup x2 y2 x4 y4 z4 w4]. real_lits.
  repeat split; try lra; f_equal; f_equal; lra.
Qed.

Lemma vs_main_triangle_covers_target_witness :
  exists (v0 v1 v2 : vec4 R) (a b c : R),
    vs_main 0 = Some v0 /\ vs_main 1 = Some v1 /\ vs_main 2 = Some v2 /\
    vs_main (T:=R) 3 = None /\
    0 <= a /\ 0 <= b /\ 0 <= c /\ a + b + c = 1 /\
    1 = a * x4 v0 + b * x4 v1 + c * x4 v2 /\
    1 = a * y4 v0 + b * y4 v1 + c * y4 v2 /\
    z4 v0 = 0 /\ z4 v1 = 0 /\ z4 v2 = 0 /\ w4 v0 = 1 /\ w4 v1 = 1 /\ w4 v2 = 1.
Proof. apply (vs_main_triangle_covers_target 1 1); lra. Defined.
End VertexStage.

(** ** The signed distance functions as geometry (real arithmetic) *)

Section SignedDistances.
Local Open Scope R_scope.

Lemma length2_R (v : vec2 R) : length2 v = sqrt (x2 v * x2 v + y2 v * y2 v).
Proof. reflexivity. Qed.

Lemma sqrt_le_iff (a r : R) : 0 <= a -> 0 <= r -> (sqrt a <= r <-> a <= r * r).
Proof.
  intros Ha Hr. split; intros Hle.
  - rewrite <- (sqrt_sqrt a Ha). pose proof (sqrt_pos a). nra.
  - rewrite <- (sqrt_square r Hr). apply sqrt_le_1_alt. exact Hle.
Qed.

Lemma sqrt_lt_iff (a r : R) : 0 <= a -> 0 <= r -> (sqrt a < r <-> a < r * r).
Proof.
  intros Ha Hr. split; intros Hlt.
  - rewrite <- (sqrt_sqrt a Ha). pose proof (sqrt_pos a). nra.
  - rewrite <- (sqrt_square r Hr). apply sqrt_lt_1_alt. split; assumption.
Qed.

Lemma sd_box_R (p b : vec3 R) :
  let qx := Rabs (x3 p) - x3 b in
  let qy := Rabs (y3 p) - y3 b in
  let qz := Rabs (z3 p) - z3 b in
  sd_box p b
  = sqrt (Rmax qx 0 * Rmax qx 0 + Rmax qy 0 * Rmax qy 0 + Rmax qz 0 * Rmax qz 0)
    + Rmin (Rmax qx (Rmax qy qz)) 0.
Proof.
  cbv zeta. unfold sd_box, v3_sub, v3_abs, v3_max, splat3. cbn [x3 y3 z3].
  rewrite length3_R. cbn [x3 y3 z3]. rewrite !fmax_Rmax, fmin_Rmin. real_lits.
  replace (0 * / 1) with 0 by lra. reflexivity.
Qed.

(** X11: [sd_box] has the sign of a signed distance to the box of half-extents
    [b] centred at the origin: it is negative exactly strictly inside,
    non-positive exactly inside or on the boundary; inside it is the
    largest of the three face offsets [|p_i| - b_i] (minus the distance to
    the nearest face); and beyond one face only it is the distance to that
    face. *)
Theorem sd_box_sign_and_face_distance (p b : vec3 R) :
  let qx := Rabs (x3 p) - x3 b in
  let qy := Rabs (y3 p) - y3 b in
  let qz := Rabs (z3 p) - z3 b in
  (sd_box p b <= 0 <-> qx <= 0 /\ qy <= 0 /\ qz <= 0) /\
  (sd_box p b < 0 <-> qx < 0 /\ qy < 0 /\ qz < 0) /\
  (qx <= 0 /\ qy <= 0 /\ qz <= 0 -> sd_box p b = Rmax qx (Rmax qy qz)) /\
  (0 <= qx /\ qy <= 0 /\ qz <= 0 -> sd_box p b = qx) /\
  (qx <= 0 /\ 0 <= qy /\ qz <= 0 -> sd_box p b = qy) /\
  (qx <= 0 /\ qy <= 0 /\ 0 <= qz -> sd_box p b = qz).
Proof.
  cbv zeta. rewrite sd_box_R. cbv zeta.
  set (qx := Rabs (x3 p) - x3 b). set (qy := Rabs (y3 p) - y3 b).
  set (qz := Rabs (z3 p) - z3 b).
  set (S := Rmax qx 0 * Rmax qx 0 + Rmax qy 0 * Rmax qy 0 + Rmax qz 0 * Rmax qz 0).
  assert (HS0 : 0 <= S) by (unfold S; nra).
  pose proof (sqrt_pos S) as Hsq.
  assert (Hin : qx <= 0 /\ qy <= 0 /\ qz <= 0 ->
                sqrt S + Rmin (Rmax qx (Rmax qy qz)) 0 = Rmax qx (Rmax qy qz)).
  { intros (Hx & Hy & Hz). unfold S.
    rewrite (Rmax_right qx 0), (Rmax_right qy 0), (Rmax_right qz 0) by assumption.
    replace (0 * 0 + 0 * 0 + 0 * 0) with 0 by ring. rewrite sqrt_0.
    rewrite Rmin_left; [ring|]. apply Rmax_lub; [|apply Rmax_lub]; assumption. }
  assert (Hout : 0 < qx \/ 0 < qy \/ 0 < qz ->
                 0 < sqrt S /\ Rmin (Rmax qx (Rmax qy qz)) 0 = 0).
  { intros Hpos. split.
    - apply sqrt_lt_R0. unfold S.
      pose proof (Rmax_l qx 0). pose proof (Rmax_l qy 0). pose proof (Rmax_l qz 0).
      pose proof (Rmax_r qx 0). pose proof (Rmax_r qy 0). pose proof (Rmax_r qz 0).
      destruct Hpos as [Hp|[Hp|Hp]]; nra.
    - apply Rmin_right.
      pose proof (Rmax_l qx (Rmax qy qz)). pose proof (Rmax_r qx (Rmax qy qz)).
      pose proof (Rmax_l qy qz). pose proof (Rmax_r qy qz).
      destruct Hpos as [Hp|[Hp|Hp]]; lra. }
  assert (Hcase : (qx <= 0 /\ qy <= 0 /\ qz <= 0) \/ (0 < qx \/ 0 < qy \/ 0 < qz)).
  { destruct (Rle_dec qx 0); [|right; left; lra].
    destruct (Rle_dec qy 0); [|right; right; left; lra].
    destruct (Rle_dec qz 0); [left; auto | right; right; right; lra]. }
  assert (Hface : forall q : R, 0 <= q -> sqrt (q * q + 0 * 0 + 0 * 0) = q).
  { intros q Hq. replace (q * q + 0 * 0 + 0 * 0) with (q * q) by ring. now apply sqrt_square. }
  split; [|split; [|split; [exact Hin|split; [|split]]]].
  - split.
    + intros Hle. destruct Hcase as [Hc|Hc]; [exact Hc|].
      destruct (Hout Hc) as [Hp Hz]. rewrite Hz in Hle. lra.
    + intros Hc. rewrite (Hin Hc). destruct Hc as (Hx & Hy & Hz).
      apply Rmax_lub; [|apply Rmax_lub]; assumption.
  - split.
    + intros Hlt. destruct Hcase as [Hc|Hc].
      * rewrite (Hin Hc) in Hlt.
        pose proof (Rmax_l qx (Rmax qy qz)). pose proof (Rmax_r qx (Rmax qy qz)).
        pose proof (Rmax_l qy qz). pose proof (Rmax_r qy qz). repeat split; lra.
      * destruct (Hout Hc) as [Hp Hz]. rewrite Hz in Hlt. lra.
    + intros (Hx & Hy & Hz). rewrite Hin by (repeat split; lra).
      apply Rmax_lub_lt; [|apply Rmax_lub_lt]; assumption.
  - intros (Hx & Hy & Hz). unfold S.
    rewrite (Rmax_left qx 0), (Rmax_right qy 0), (Rmax_right qz 0) by assumption.
    rewrite Hface by assumption.
    destruct (Rle_dec qx 0).
    + rewrite Rmin_left; [|apply Rmax_lub; [|apply Rmax_lub]; assumption].
      assert (qx = 0) by lra. rewrite Rmax_left; [lra|]. apply Rmax_lub; lra.
    + rewrite Rmin_right; [lra|]. pose proof (Rmax_l qx (Rmax qy qz)). lra.
  - intros (Hx & Hy & Hz). unfold S.
    rewrite (Rmax_right qx 0), (Rmax_left qy 0), (Rmax_right qz 0) by assumption.
    replace (0 * 0 + qy * qy + 0 * 0) with (qy * qy + 0 * 0 + 0 * 0) by ring.
    rewrite Hface by assumption.
    pose proof (Rmax_l qx (Rmax qy qz)). pose proof (Rmax_r qx (Rmax qy qz)).
    pose proof (Rmax_l qy qz). pose proof (Rmax_r qy qz).
    assert (HM : Rmax qx (Rmax qy qz) = qy).
    { rewrite (Rmax_left qy qz) by lra. apply Rmax_right. lra. }
    rewrite HM. rewrite Rmin_right by lra. lra.
  - intros (Hx & Hy & Hz). unfold S.
    rewrite (Rmax_right qx 0), (Rmax_right qy 0), (Rmax_left qz 0) by assumption.
    replace (0 * 0 + 0 * 0 + qz * qz) with (qz * qz + 0 * 0 + 0 * 0) by ring.
    rewrite Hface by assumption.
    assert (HM : Rmax qx (Rmax qy qz) = qz).
    { rewrite (Rmax_right qy qz) by lra. apply Rmax_right. lra. }
    rewrite HM. rewrite Rmin_right by lra. lra.
Qed.

(** X12: [sd_torus] vanishes exactly on the torus of major radius [t.x] and
    minor radius [t.y] around the y axis, is negative exactly inside the
    tube and non-positive exactly inside or on it. *)
Theorem sd_torus_sign (p : vec3 R) (t : vec2 R) :
  0 <= y2 t ->
  let ring_dist := sqrt (x3 p * x3 p + z3 p * z3 p) - x2 t in
  let tube := ring_dist * ring_dist + y3 p * y3 p in
  (sd_torus p t <= 0 <-> tube <= y2 t * y2 t) /\
  (sd_torus p t < 0 <-> tube < y2 t * y2 t) /\
  (sd_torus p t = 0 <-> tube = y2 t * y2 t).
Proof.
  intros Hr. cbv zeta. unfold sd_torus. rewrite !length2_R.
  cbn [x2 y2 fsub R_scalar].
  set (A := (sqrt (x3 p * x3 p + z3 p * z3 p) - x2 t)
            * (sqrt (x3 p * x3 p + z3 p * z3 p) - x2 t) + y3 p * y3 p).
  assert (HA : 0 <= A).
  { unfold A. apply Rplus_le_le_0_compat; apply Rle_0_sqr. }
  pose proof (sqrt_le_iff A (y2 t) HA Hr) as Hle.
  pose proof (sqrt_lt_iff A (y2 t) HA Hr) as Hlt.
  split; [|split].
  - split; intros Hx; [apply Hle; lra | apply Hle in Hx; lra].
  - split; intros Hx; [apply Hlt; lra | apply Hlt in Hx; lra].
  - split; intros Hx.
    + assert (H1 : sqrt A <= y2 t) by lra. assert (H2 : ~ sqrt A < y2 t) by lra.
      apply Hle in H1. rewrite Hlt in H2. lra.
    + assert (H1 : A <= y2 t * y2 t) by lra. assert (H2 : ~ A < y2 t * y2 t) by lra.
      apply Hle in H1. rewrite <- Hlt in H2. lra.
Qed.

Lemma sd_torus_sign_witness :
  sd_torus (mk3 2 0 0) (mk2 2 (1 / 2)) <= 0
  <-> (sqrt (2 * 2 + 0 * 0) - 2) * (sqrt (2 * 2 + 0 * 0) - 2) + 0 * 0 <= 1 / 2 * (1 / 2).
Proof.
  apply (proj1 (sd_torus_sign (mk3 2 0 0) (mk2 2 (1 / 2)) ltac:(cbn [y2]; lra))).
Defined.
End SignedDistances.


(** ** The distance field is 1-Lipschitz, and the march never tunnels *)

Section Lipschitz.
Local Open Scope R_scope.

Lemma le_sqrt (x y : R) : 0 <= x -> x * x <= y -> x <= sqrt y.
Proof.
  intros Hx Hxy. rewrite <- (sqrt_square x Hx). now apply sqrt_le_1_alt.
Qed.

Lemma sumsq_nonneg (a b c : R) : 0 <= a * a + b * b + c * c.
Proof. nra. Qed.

Lemma sq_le_of_abs (a b : R) : Rabs a <= b -> a * a <= b * b.
Proof. unfold Rabs. destruct (Rcase_abs a); intros; nra. Qed.

Lemma sqrt_sum_le (a b c : R) : 0 <= a -> 0 <= b -> 0 <= c ->
  sqrt (a * a + b * b + c * c) <= a + b + c.
Proof.
  intros Ha Hb Hc. apply sqrt_le_iff; nra.
Qed.

Lemma component_le_sqrt (a b c : R) :
  Rabs a <= sqrt (a * a + b * b + c * c) /\ Rabs b <= sqrt (a * a + b * b + c * c) /\
  Rabs c <= sqrt (a * a + b * b + c * c).
Proof.
  repeat split; (apply le_sqrt; [apply Rabs_pos|]); unfold Rabs; destruct (Rcase_abs _); nra.
Qed.

Lemma cauchy_schwarz3 (a1 a2 a3 b1 b2 b3 : R) :
  a1 * b1 + a2 * b2 + a3 * b3
  <= sqrt (a1 * a1 + a2 * a2 + a3 * a3) * sqrt (b1 * b1 + b2 * b2 + b3 * b3).
Proof.
  set (A := a1 * a1 + a2 * a2 + a3 * a3). set (B := b1 * b1 + b2 * b2 + b3 * b3).
  set (c := a1 * b1 + a2 * b2 + a3 * b3).
  assert (HA : 0 <= A) by (unfold A; nra). assert (HB : 0 <= B) by (unfold B; nra).
  rewrite <- sqrt_mult by assumption.
  destruct (Rle_dec c 0) as [Hc|Hc]; [pose proof (sqrt_pos (A * B)); lra|].
  apply le_sqrt; [lra|]. unfold c, A, B.
  pose proof (Rle_0_sqr (a1 * b2 - a2 * b1)). pose proof (Rle_0_sqr (a1 * b3 - a3 * b1)).
  pose proof (Rle_0_sqr (a2 * b3 - a3 * b2)). unfold Rsqr in *. nra.
Qed.

Lemma norm3_triangle (a1 a2 a3 b1 b2 b3 : R) :
  sqrt ((a1 + b1) * (a1 + b1) + (a2 + b2) * (a2 + b2) + (a3 + b3) * (a3 + b3))
  <= sqrt (a1 * a1 + a2 * a2 + a3 * a3) + sqrt (b1 * b1 + b2 * b2 + b3 * b3).
Proof.
  set (A := a1 * a1 + a2 * a2 + a3 * a3). set (B := b1 * b1 + b2 * b2 + b3 * b3).
  assert (HA : 0 <= A) by (unfold A; nra). assert (HB : 0 <= B) by (unfold B; nra).
  pose proof (sqrt_pos A) as HsA. pose proof (sqrt_pos B) as HsB.
  pose proof (sqrt_sqrt A HA) as HqA. pose proof (sqrt_sqrt B HB) as HqB.
  pose proof (cauchy_schwarz3 a1 a2 a3 b1 b2 b3) as Hcs. fold A B in Hcs.
  apply sqrt_le_iff; [apply sumsq_nonneg | lra |].
  unfold A, B in *. nra.
Qed.

Lemma norm3_reverse (a1 a2 a3 b1 b2 b3 : R) :
  Rabs (sqrt (a1 * a1 + a2 * a2 + a3 * a3) - sqrt (b1 * b1 + b2 * b2 + b3 * b3))
  <= sqrt ((a1 - b1) * (a1 - b1) + (a2 - b2) * (a2 - b2) + (a3 - b3) * (a3 - b3)).
Proof.
  pose proof (norm3_triangle (a1 - b1) (a2 - b2) (a3 - b3) b1 b2 b3) as H1.
  pose proof (norm3_triangle (b1 - a1) (b2 - a2) (b3 - a3) a1 a2 a3) as H2.
  replace (a1 - b1 + b1) with a1 in H1 by ring. replace (a2 - b2 + b2) with a2 in H1 by ring.
  replace (a3 - b3 + b3) with a3 in H1 by ring.
  replace (b1 - a1 + a1) with b1 in H2 by ring. replace (b2 - a2 + a2) with b2 in H2 by ring.
  replace (b3 - a3 + a3) with b3 in H2 by ring.
  replace ((b1 - a1) * (b1 - a1) + (b2 - a2) * (b2 - a2) + (b3 - a3) * (b3 - a3))
    with ((a1 - b1) * (a1 - b1) + (a2 - b2) * (a2 - b2) + (a3 - b3) * (a3 - b3)) in H2 by ring.
  apply Rabs_le. lra.
Qed.

Lemma norm3_mono (a1 a2 a3 b1 b2 b3 : R) :
  Rabs a1 <= b1 -> Rabs a2 <= b2 -> Rabs a3 <= b3 ->
  sqrt (a1 * a1 + a2 * a2 + a3 * a3) <= sqrt (b1 * b1 + b2 * b2 + b3 * b3).
Proof.
  intros H1 H2 H3. apply sqrt_le_1_alt.
  pose proof (sq_le_of_abs a1 b1 H1). pose proof (sq_le_of_abs a2 b2 H2).
  pose proof (sq_le_of_abs a3 b3 H3). lra.
Qed.

Lemma length3_sub (p q : vec3 R) :
  length3 (v3_sub p q)
  = sqrt ((x3 p - x3 q) * (x3 p - x3 q) + (y3 p - y3 q) * (y3 p - y3 q)
          + (z3 p - z3 q) * (z3 p - z3 q)).
Proof. rewrite length3_R. reflexivity. Qed.

Lemma sd_sphere_lip (p q : vec3 R) (r : R) :
  Rabs (sd_sphere p r - sd_sphere q r) <= length3 (v3_sub p q).
Proof.
  unfold sd_sphere. rewrite length3_sub, !length3_R. cbn [fsub R_scalar].
  replace (sqrt (x3 p * x3 p + y3 p * y3 p + z3 p * z3 p) - r
           - (sqrt (x3 q * x3 q + y3 q * y3 q + z3 q * z3 q) - r))
    with (sqrt (x3 p * x3 p + y3 p * y3 p + z3 p * z3 p)
          - sqrt (x3 q * x3 q + y3 q * y3 q + z3 q * z3 q)) by ring.
  apply norm3_reverse.
Qed.

Lemma sd_plane_lip (p q : vec3 R) (h : R) :
  Rabs (sd_plane p up h - sd_plane q up h) <= length3 (v3_sub p q).
Proof.
  unfold sd_plane, dot, up. cbn [x3 y3 z3 fadd fmul R_scalar]. real_lits.
  rewrite length3_sub.
  replace (x3 p * (0 * / 1) + y3 p * (1 * / 1) + z3 p * (0 * / 1) + h
           - (x3 q * (0 * / 1) + y3 q * (1 * / 1) + z3 q * (0 * / 1) + h))
    with (y3 p - y3 q) by field.
  destruct (component_le_sqrt (x3 p - x3 q) (y3 p - y3 q) (z3 p - z3 q)) as (_ & Hy & _).
  exact Hy.
Qed.

Lemma sd_torus_lip (p q : vec3 R) (t : vec2 R) :
  Rabs (sd_torus p t - sd_torus q t) <= length3 (v3_sub p q).
Proof.
  unfold sd_torus. rewrite !length2_R, length3_sub. cbn [x2 y2 fsub R_scalar].
  set (P := sqrt (x3 p * x3 p + z3 p * z3 p)). set (Q := sqrt (x3 q * x3 q + z3 q * z3 q)).
  assert (HPQ : Rabs (P - Q) <= sqrt ((x3 p - x3 q) * (x3 p - x3 q)
                                     + (z3 p - z3 q) * (z3 p - z3 q))).
  { pose proof (norm3_reverse (x3 p) (z3 p) 0 (x3 q) (z3 q) 0) as Hr.
    replace (x3 p * x3 p + z3 p * z3 p + 0 * 0) with (x3 p * x3 p + z3 p * z3 p) in Hr by ring.
    replace (x3 q * x3 q + z3 q * z3 q + 0 * 0) with (x3 q * x3 q + z3 q * z3 q) in Hr by ring.
    replace ((x3 p - x3 q) * (x3 p - x3 q) + (z3 p - z3 q) * (z3 p - z3 q) + (0 - 0) * (0 - 0))
      with ((x3 p - x3 q) * (x3 p - x3 q) + (z3 p - z3 q) * (z3 p - z3 q)) in Hr by ring.
    exact Hr. }
  pose proof (norm3_reverse (P - x2 t) (y3 p) 0 (Q - x2 t) (y3 q) 0) as Hr.
  replace ((P - x2 t) * (P - x2 t) + y3 p * y3 p + 0 * 0)
    with ((P - x2 t) * (P - x2 t) + y3 p * y3 p) in Hr by ring.
  replace ((Q - x2 t) * (Q - x2 t) + y3 q * y3 q + 0 * 0)
    with ((Q - x2 t) * (Q - x2 t) + y3 q * y3 q) in Hr by ring.
  replace (sqrt ((P - x2 t) * (P - x2 t) + y3 p * y3 p) - y2 t
           - (sqrt ((Q - x2 t) * (Q - x2 t) + y3 q * y3 q) - y2 t))
    with (sqrt ((P - x2 t) * (P - x2 t) + y3 p * y3 p)
          - sqrt ((Q - x2 t) * (Q - x2 t) + y3 q * y3 q)) by ring.
  eapply Rle_trans; [exact Hr|].
  apply sqrt_le_1_alt.
  replace (P - x2 t - (Q - x2 t)) with (P - Q) by ring.
  set (E := (x3 p - x3 q) * (x3 p - x3 q) + (z3 p - z3 q) * (z3 p - z3 q)) in *.
  assert (HE : 0 <= E).
  { unfold E. pose proof (sumsq_nonneg (x3 p - x3 q) (z3 p - z3 q) 0). lra. }
  pose proof (sq_le_of_abs _ _ HPQ) as Hsq. rewrite (sqrt_sqrt E HE) in Hsq.
  clear - Hsq. unfold E in *. lra.
Qed.

Lemma Rmax_0_lip (u v : R) : Rabs (Rmax u 0 - Rmax v 0) <= Rabs (u - v).
Proof.
  unfold Rmax. destruct (Rle_dec u 0), (Rle_dec v 0); unfold Rabs;
    repeat destruct (Rcase_abs _); lra.
Qed.

Lemma box_coord_bound (u v d m : R) :
  Rabs (u - v) <= d -> v <= - m -> 0 <= m ->
  Rmax u 0 * Rmax u 0 + 2 * m * Rmax u 0 <= d * d /\
  (0 < u -> Rmax u 0 * Rmax u 0 + 2 * m * Rmax u 0 + m * m <= d * d).
Proof.
  intros Hd Hv Hm. pose proof (Rabs_pos (u - v)) as Hp.
  assert (Huv : u - v <= d) by (pose proof (Rle_abs (u - v)); lra).
  unfold Rmax. destruct (Rle_dec u 0); split; intros; nra.
Qed.

Lemma box_field_lip (ux uy uz vx vy vz dx dy dz : R) :
  Rabs (ux - vx) <= dx -> Rabs (uy - vy) <= dy -> Rabs (uz - vz) <= dz ->
  (sqrt (Rmax ux 0 * Rmax ux 0 + Rmax uy 0 * Rmax uy 0 + Rmax uz 0 * Rmax uz 0)
     + Rmin (Rmax ux (Rmax uy uz)) 0)
  - (sqrt (Rmax vx 0 * Rmax vx 0 + Rmax vy 0 * Rmax vy 0 + Rmax vz 0 * Rmax vz 0)
     + Rmin (Rmax vx (Rmax vy vz)) 0)
  <= sqrt (dx * dx + dy * dy + dz * dz).
Proof.
  intros Hx Hy Hz.
  pose proof (Rabs_pos (ux - vx)) as Hpx. pose proof (Rabs_pos (uy - vy)) as Hpy.
  pose proof (Rabs_pos (uz - vz)) as Hpz.
  assert (Hdx : 0 <= dx) by lra. assert (Hdy : 0 <= dy) by lra. assert (Hdz : 0 <= dz) by lra.
  set (D := sqrt (dx * dx + dy * dy + dz * dz)).
  destruct (component_le_sqrt dx dy dz) as (HDx & HDy & HDz). fold D in HDx, HDy, HDz.
  rewrite (Rabs_pos_eq dx Hdx) in HDx. rewrite (Rabs_pos_eq dy Hdy) in HDy.
  rewrite (Rabs_pos_eq dz Hdz) in HDz.
  assert (HD0 : 0 <= D) by lra.
  pose proof (Rle_abs (ux - vx)) as Hax. pose proof (Rle_abs (uy - vy)) as Hay.
  pose proof (Rle_abs (uz - vz)) as Haz.
  set (gu := sqrt (Rmax ux 0 * Rmax ux 0 + Rmax uy 0 * Rmax uy 0 + Rmax uz 0 * Rmax uz 0)).
  set (gv := sqrt (Rmax vx 0 * Rmax vx 0 + Rmax vy 0 * Rmax vy 0 + Rmax vz 0 * Rmax vz 0)).
  set (Mu := Rmax ux (Rmax uy uz)). set (Mv := Rmax vx (Rmax vy vz)).
  assert (Hgu0 : 0 <= gu) by apply sqrt_pos. assert (Hgv0 : 0 <= gv) by apply sqrt_pos.
  assert (HMu : ux <= Mu /\ uy <= Mu /\ uz <= Mu /\ (Mu = ux \/ Mu = uy \/ Mu = uz)).
  { unfold Mu, Rmax. destruct (Rle_dec uy uz), (Rle_dec ux _); repeat split; try lra; auto. }
  assert (HMv : vx <= Mv /\ vy <= Mv /\ vz <= Mv /\ (Mv = vx \/ Mv = vy \/ Mv = vz)).
  { unfold Mv, Rmax. destruct (Rle_dec vy vz), (Rle_dec vx _); repeat split; try lra; auto. }
  destruct HMu as (Hu1 & Hu2 & Hu3 & HuM). destruct HMv as (Hv1 & Hv2 & Hv3 & HvM).
  assert (Hin : forall a b c : R, a <= 0 -> b <= 0 -> c <= 0 ->
            sqrt (Rmax a 0 * Rmax a 0 + Rmax b 0 * Rmax b 0 + Rmax c 0 * Rmax c 0) = 0).
  { intros a b c Ha Hb Hc. rewrite !Rmax_right by assumption.
    replace (0 * 0 + 0 * 0 + 0 * 0) with 0 by ring. apply sqrt_0. }
  destruct (Rle_dec Mu 0) as [HuIn|HuOut].
  - assert (Egu : gu = 0) by (apply Hin; lra). rewrite Egu.
    rewrite (Rmin_left Mu 0) by assumption.
    destruct (Rle_dec Mv 0) as [HvIn|HvOut].
    + assert (Egv : gv = 0) by (apply Hin; lra). rewrite Egv.
      rewrite (Rmin_left Mv 0) by assumption.
      destruct HuM as [E|[E|E]]; rewrite E; lra.
    + rewrite (Rmin_right Mv 0) by lra. lra.
  - rewrite (Rmin_right Mu 0) by lra.
    destruct (Rle_dec 0 Mv) as [HvOut|HvIn].
    + rewrite (Rmin_right Mv 0) by lra.
      pose proof (norm3_reverse (Rmax ux 0) (Rmax uy 0) (Rmax uz 0)
                                (Rmax vx 0) (Rmax vy 0) (Rmax vz 0)) as Hr.
      fold gu gv in Hr.
      pose proof (Rmax_0_lip ux vx). pose proof (Rmax_0_lip uy vy). pose proof (Rmax_0_lip uz vz).
      pose proof (norm3_mono (Rmax ux 0 - Rmax vx 0) (Rmax uy 0 - Rmax vy 0)
                    (Rmax uz 0 - Rmax vz 0) dx dy dz
                    ltac:(lra) ltac:(lra) ltac:(lra)) as Hm.
      fold D in Hm. pose proof (Rle_abs (gu - gv)). lra.
    + assert (Egv : gv = 0) by (apply Hin; lra). rewrite Egv.
      rewrite (Rmin_left Mv 0) by lra.
      set (m := - Mv). assert (Hm : 0 <= m) by (unfold m; lra).
      destruct (box_coord_bound ux vx dx m Hx ltac:(unfold m; lra) Hm) as [Bx Bx'].
      destruct (box_coord_bound uy vy dy m Hy ltac:(unfold m; lra) Hm) as [By By'].
      destruct (box_coord_bound uz vz dz m Hz ltac:(unfold m; lra) Hm) as [Bz Bz'].
      pose proof (Rmax_r ux 0) as Wx. pose proof (Rmax_r uy 0) as Wy.
      pose proof (Rmax_r uz 0) as Wz.
      pose proof (sqrt_sum_le _ _ _ Wx Wy Wz) as Hsum. fold gu in Hsum.
      assert (Hgsq : gu * gu = Rmax ux 0 * Rmax ux 0 + Rmax uy 0 * Rmax uy 0
                               + Rmax uz 0 * Rmax uz 0).
      { unfold gu. apply sqrt_sqrt. nra. }
      replace (gu + 0 - (0 + Mv)) with (gu + m) by (unfold m; ring).
      apply le_sqrt; [lra|].
      destruct HuM as [E|[E|E]].
      * assert (Hpos : 0 < ux) by lra. specialize (Bx' Hpos). nra.
      * assert (Hpos : 0 < uy) by lra. specialize (By' Hpos). nra.
      * assert (Hpos : 0 < uz) by lra. specialize (Bz' Hpos). nra.
Qed.

Lemma sd_box_lip (p q b : vec3 R) :
  Rabs (sd_box p b - sd_box q b) <= length3 (v3_sub p q).
Proof.
  rewrite !sd_box_R, length3_sub. cbv zeta.
  assert (Hc : forall a c e : R, Rabs (Rabs a - e - (Rabs c - e)) <= Rabs (a - c)).
  { intros a c e. replace (Rabs a - e - (Rabs c - e)) with (Rabs a - Rabs c) by ring.
    apply Rabs_triang_inv2. }
  assert (Hc' : forall a c e : R, Rabs (Rabs c - e - (Rabs a - e)) <= Rabs (a - c)).
  { intros a c e. rewrite (Rabs_minus_sym a c). apply Hc. }
  assert (HD : sqrt ((x3 p - x3 q) * (x3 p - x3 q) + (y3 p - y3 q) * (y3 p - y3 q)
                     + (z3 p - z3 q) * (z3 p - z3 q))
               = sqrt (Rabs (x3 p - x3 q) * Rabs (x3 p - x3 q)
                       + Rabs (y3 p - y3 q) * Rabs (y3 p - y3 q)
                       + Rabs (z3 p - z3 q) * Rabs (z3 p - z3 q))).
  { assert (Hsq : forall a : R, Rabs a * Rabs a = a * a)
      by (intros a; unfold Rabs; destruct (Rcase_abs a); ring).
    now rewrite !Hsq. }
  rewrite HD. apply Rabs_le. split.
  - pose proof (box_field_lip _ _ _ _ _ _ _ _ _
                  (Hc' (x3 p) (x3 q) (x3 b)) (Hc' (y3 p) (y3 q) (y3 b))
                  (Hc' (z3 p) (z3 q) (z3 b))). lra.
  - pose proof (box_field_lip _ _ _ _ _ _ _ _ _
                  (Hc (x3 p) (x3 q) (x3 b)) (Hc (y3 p) (y3 q) (y3 b))
                  (Hc (z3 p) (z3 q) (z3 b))). lra.
Qed.

(** X13: Each signed distance function changes by no more than the distance its
    argument moves: [sd_sphere], [sd_box], [sd_torus] and the ground plane
    [sd_plane] with the upward normal are 1-Lipschitz, for every radius,
    half-extent, pair of torus radii and plane offset. *)
Theorem signed_distances_are_1_lipschitz (p q : vec3 R) :
  (forall r : R, Rabs (sd_sphere p r - sd_sphere q r) <= length3 (v3_sub p q)) /\
  (forall b : vec3 R, Rabs (sd_box p b - sd_box q b) <= length3 (v3_sub p q)) /\
  (forall t : vec2 R, Rabs (sd_torus p t - sd_torus q t) <= length3 (v3_sub p q)) /\
  (forall h : R, Rabs (sd_plane p up h - sd_plane q up h) <= length3 (v3_sub p q)).
Proof.
  split; [|split; [|split]]; intros ?;
    [apply sd_sphere_lip | apply sd_box_lip | apply sd_torus_lip | apply sd_plane_lip].
Qed.
End Lipschitz.

Section FieldLipschitz.
Local Open Scope R_scope.

Lemma Rmin_lip (a b a' b' D : R) :
  Rabs (a - a') <= D -> Rabs (b - b') <= D -> Rabs (Rmin a b - Rmin a' b') <= D.
Proof.
  unfold Rmin, Rabs. destruct (Rle_dec a b), (Rle_dec a' b');
    repeat destruct (Rcase_abs _); intros; lra.
Qed.

Lemma fold_Rmin_lip {A : Type} (f g : A -> R) (D : R) (l : list A) :
  (forall x, In x l -> Rabs (f x - g x) <= D) ->
  forall a a' : R, Rabs (a - a') <= D ->
    Rabs (fold_left Rmin (map f l) a - fold_left Rmin (map g l) a') <= D.
Proof.
  induction l as [|x l IH]; intros Hall a a' Ha; simpl; [exact Ha|].
  apply IH.
  - intros y Hy. apply Hall. now right.
  - apply Rmin_lip; [exact Ha | apply Hall; now left].
Qed.

Lemma primitive_dist_lip (p p' : vec3 R) (q : Primitive R) :
  Rabs (primitive_dist p q - primitive_dist p' q) <= length3 (v3_sub p p').
Proof.
  assert (Hshift : forall c : vec3 R,
            length3 (v3_sub (v3_sub p c) (v3_sub p' c)) = length3 (v3_sub p p')).
  { intros c. rewrite !length3_sub. unfold v3_sub. cbn [x3 y3 z3 fsub R_scalar].
    f_equal. ring. }
  destruct q as [s|b|t]; cbn [primitive_dist]; rewrite <- (Hshift (s_center s))
    || rewrite <- (Hshift (b_center b)) || rewrite <- (Hshift (t_center t));
    [apply sd_sphere_lip | apply sd_box_lip | apply sd_torus_lip].
Qed.

Lemma idpick_get_dist_min (sc : Scene R) (p : vec3 R) :
  x2 (IdPick.get_dist sc p)
  = fold_left Rmin (map (primitive_dist p) (active_primitives 10 10 10 sc))
      (Rmin MAX_DIST (sd_plane p up (lit 0.5))).
Proof.
  unfold IdPick.get_dist, active_primitives.
  rewrite torus_pass_dist, box_pass_dist, sphere_pass_dist, closer_dist.
  now rewrite !map_app, !fold_left_app.
Qed.

Lemma field_lip (l : list (Primitive R)) (p p' : vec3 R) :
  Rabs (fold_left Rmin (map (primitive_dist p) l) (Rmin MAX_DIST (sd_plane p up (lit 0.5)))
        - fold_left Rmin (map (primitive_dist p') l)
            (Rmin MAX_DIST (sd_plane p' up (lit 0.5))))
  <= length3 (v3_sub p p').
Proof.
  apply fold_Rmin_lip.
  - intros q _. apply primitive_dist_lip.
  - apply Rmin_lip; [|apply sd_plane_lip].
    replace (MAX_DIST - MAX_DIST) with 0 by ring. rewrite Rabs_R0.
    rewrite length3_R. apply sqrt_pos.
Qed.

Lemma legacy_get_dist_min (sc : Scene R) (p : vec3 R) :
  x2 (IdPickLegacy.get_dist sc p)
  = fold_left Rmin (map (primitive_dist p) (active_primitives 3 2 2 sc))
      (Rmin MAX_DIST (sd_plane p up (lit 0.5))).
Proof. exact (basic_get_dist_min sc p). Qed.

Lemma get_dist_lip (sc : Scene R) (p p' : vec3 R) :
  Rabs (x2 (Basic.get_dist sc p) - x2 (Basic.get_dist sc p')) <= length3 (v3_sub p p') /\
  Rabs (x2 (Dynamic.get_dist sc p) - x2 (Dynamic.get_dist sc p')) <= length3 (v3_sub p p') /\
  Rabs (x2 (IdPick.get_dist sc p) - x2 (IdPick.get_dist sc p')) <= length3 (v3_sub p p') /\
  Rabs (x2 (IdPickLegacy.get_dist sc p) - x2 (IdPickLegacy.get_dist sc p'))
    <= length3 (v3_sub p p').
Proof.
  rewrite !basic_get_dist_min, !dynamic_get_dist_min, !idpick_get_dist_min,
    ?legacy_get_dist_min.
  repeat split; apply field_lip.
Qed.

(** X14: The distance [get_dist] returns is 1-Lipschitz in the sample point, for
    every scene and in each shader: moving the point by a distance changes
    the returned distance by at most that much.  This is what makes a step
    of that length along a unit ray safe. *)
Theorem get_dist_is_1_lipschitz (sc : Scene R) (p p' : vec3 R) :
  Rabs (x2 (Basic.get_dist sc p) - x2 (Basic.get_dist sc p')) <= length3 (v3_sub p p') /\
  Rabs (x2 (Dynamic.get_dist sc p) - x2 (Dynamic.get_dist sc p')) <= length3 (v3_sub p p') /\
  Rabs (x2 (IdPick.get_dist sc p) - x2 (IdPick.get_dist sc p')) <= length3 (v3_sub p p') /\
  Rabs (x2 (IdPickLegacy.get_dist sc p) - x2 (IdPickLegacy.get_dist sc p'))
    <= length3 (v3_sub p p').
Proof.
  rewrite !basic_get_dist_min, !dynamic_get_dist_min, !idpick_get_dist_min,
    ?legacy_get_dist_min.
  repeat split; apply field_lip.
Qed.

Lemma ray_at_apart (ro rd : vec3 R) (s t : R) :
  length3 rd = 1 -> length3 (v3_sub (ray_at ro rd s) (ray_at ro rd t)) = Rabs (s - t).
Proof.
  intros Hunit. rewrite length3_sub. unfold ray_at, v3_add, v3_scale.
  cbn [x3 y3 z3 fadd fmul R_scalar].
  replace ((x3 ro + x3 rd * s - (x3 ro + x3 rd * t)) * (x3 ro + x3 rd * s - (x3 ro + x3 rd * t))
           + (y3 ro + y3 rd * s - (y3 ro + y3 rd * t))
             * (y3 ro + y3 rd * s - (y3 ro + y3 rd * t))
           + (z3 ro + z3 rd * s - (z3 ro + z3 rd * t))
             * (z3 ro + z3 rd * s - (z3 ro + z3 rd * t)))
    with (Rsqr (s - t) * (x3 rd * x3 rd + y3 rd * y3 rd + z3 rd * z3 rd))
    by (unfold Rsqr; ring).
  rewrite sqrt_mult; [|apply Rle_0_sqr|apply sumsq_nonneg].
  rewrite sqrt_Rsqr_abs. rewrite length3_R in Hunit. rewrite Hunit. ring.
Qed.

(** The loop of [ray_march] on a field that is 1-Lipschitz along the ray:
    the marched distance never decreases and the field is non-negative on
    the whole segment marched so far. *)
Lemma march_stays_outside (gd : vec3 R -> vec2 R) (surf maxd : R) (ro rd : vec3 R) :
  (forall s t : R,
     Rabs (x2 (gd (ray_at ro rd s)) - x2 (gd (ray_at ro rd t))) <= Rabs (s - t)) ->
  forall (n : nat) (d m : R),
    0 <= d ->
    (forall t : R, 0 <= t <= d -> 0 <= x2 (gd (ray_at ro rd t))) ->
    d <= x2 (march gd surf maxd n ro rd d m) /\
    (forall t : R, 0 <= t <= x2 (march gd surf maxd n ro rd d m) ->
       0 <= x2 (gd (ray_at ro rd t))).
Proof.
  intros Hlip. induction n as [|n IH]; intros d m Hd Hinv.
  - cbn [march x2]. split; [lra | exact Hinv].
  - rewrite march_S. fold (ray_at ro rd d).
    set (dist := x2 (gd (ray_at ro rd d))).
    assert (Hdist : 0 <= dist) by (apply Hinv; lra).
    assert (Hinv' : forall t : R, 0 <= t <= d + dist -> 0 <= x2 (gd (ray_at ro rd t))).
    { intros t Ht. destruct (Rle_dec t d) as [Hle|Hgt]; [apply Hinv; lra|].
      pose proof (Hlip t d) as Hl. fold dist in Hl.
      assert (Habs : Rabs (t - d) = t - d) by (apply Rabs_pos_eq; lra).
      rewrite Habs in Hl. pose proof (Rle_abs (dist - x2 (gd (ray_at ro rd t)))) as Hle.
      rewrite Rabs_minus_sym in Hle. lra. }
    destruct ((dist .< surf)%sc || fgt (d + dist) maxd).
    + cbn [x2]. split; [lra | exact Hinv'].
    + destruct (IH (d + dist) (y2 (gd (ray_at ro rd d))) ltac:(lra) Hinv') as [Hge Hall].
      split; [lra | exact Hall].
Qed.

Lemma ray_at_start (ro rd : vec3 R) : ray_at ro rd 0 = ro.
Proof.
  unfold ray_at, v3_add, v3_scale. destruct ro as [a b c]. cbn [x3 y3 z3 fadd fmul R_scalar].
  f_equal; ring.
Qed.

Lemma ray_march_outside (gd : vec3 R -> vec2 R) (surf maxd : R) (n : nat) (ro rd : vec3 R)
      (m : R) :
  (forall p p' : vec3 R, Rabs (x2 (gd p) - x2 (gd p')) <= length3 (v3_sub p p')) ->
  length3 rd = 1 -> 0 <= x2 (gd ro) ->
  0 <= x2 (march gd surf maxd n ro rd (lit 0) m) /\
  (forall s : R, 0 <= s <= x2 (march gd surf maxd n ro rd (lit 0) m) ->
     0 <= x2 (gd (ray_at ro rd s))).
Proof.
  intros Hlip Hunit Hstart. real_lits. replace (0 * / 1) with 0 by lra.
  apply march_stays_outside.
  - intros s t. rewrite <- (ray_at_apart ro rd s t Hunit). apply Hlip.
  - lra.
  - intros t Ht. replace t with 0 by lra. now rewrite ray_at_start.
Qed.

(** X15: [ray_march] never tunnels: from an origin where the distance field is
    non-negative (outside every primitive and not below the ground), along
    a unit direction, the distance it returns is non-negative and the field
    is non-negative at every point of the ray up to that distance: no
    surface is crossed before the distance reported. *)
Theorem ray_march_never_tunnels (sc : Scene R) (ro rd : vec3 R) :
  length3 rd = 1 ->
  (0 <= x2 (Basic.get_dist sc ro) ->
   0 <= x2 (Basic.ray_march sc ro rd) /\
   forall s : R, 0 <= s <= x2 (Basic.ray_march sc ro rd) ->
     0 <= x2 (Basic.get_dist sc (ray_at ro rd s))) /\
  (0 <= x2 (Dynamic.get_dist sc ro) ->
   0 <= x2 (Dynamic.ray_march sc ro rd) /\
   forall s : R, 0 <= s <= x2 (Dynamic.ray_march sc ro rd) ->
     0 <= x2 (Dynamic.get_dist sc (ray_at ro rd s))) /\
  (0 <= x2 (IdPick.get_dist sc ro) ->
   0 <= x2 (IdPick.ray_march sc ro rd) /\
   forall s : R, 0 <= s <= x2 (IdPick.ray_march sc ro rd) ->
     0 <= x2 (IdPick.get_dist sc (ray_at ro rd s))).
Proof.
  intros Hunit. split; [|split]; intros Hstart.
  - apply ray_march_outside; [|assumption|assumption].
    intros p p'. apply (proj1 (get_dist_lip sc p p')).
  - apply ray_march_outside; [|assumption|assumption].
    intros p p'. apply (proj1 (proj2 (get_dist_lip sc p p'))).
  - apply ray_march_outside; [|assumption|assumption].
    intros p p'. apply (proj1 (proj2 (proj2 (get_dist_lip sc p p')))).
Qed.
End FieldLipschitz.

(** ** The identifier pass against the render pass *)

Section PickAgainstRender.
Context {T : Type} `{Scalar T}.

Lemma closer_agree (sc : Scene T) (dist : T) (o : Obj) (r1 r2 : vec2 T) :
  active_slot 10 sc (Slot o) ->
  (exists (d : T) (n : Nearest),
     r1 = mk2 d (material_tag n) /\ r2 = mk2 d (pick_id n) /\ active_slot 10 sc n) ->
  exists (d : T) (n : Nearest),
    closer dist (material_tag (Slot o)) r1 = mk2 d (material_tag n) /\
    closer dist (pick_id (Slot o)) r2 = mk2 d (pick_id n) /\ active_slot 10 sc n.
Proof.
  intros Ho (d & n & -> & -> & Hn). unfold closer. cbn [x2].
  destruct (dist .< d).
  - exists dist, (Slot o). (split; [reflexivity | split; [reflexivity | assumption || exact I]]).
  - exists d, n. (split; [reflexivity | split; [reflexivity | assumption || exact I]]).
Qed.

Lemma fold_agree (sc : Scene T) (mk : nat -> Obj) (dist : nat -> T) (l : list nat) :
  (forall j, In j l -> active_slot 10 sc (Slot (mk j))) ->
  forall r1 r2 : vec2 T,
    (exists (d : T) (n : Nearest),
       r1 = mk2 d (material_tag n) /\ r2 = mk2 d (pick_id n) /\ active_slot 10 sc n) ->
    exists (d : T) (n : Nearest),
      fold_left (fun s j => closer (dist j) (material_tag (Slot (mk j))) s) l r1
      = mk2 d (material_tag n) /\
      fold_left (fun s j => closer (dist j) (pick_id (Slot (mk j))) s) l r2
      = mk2 d (pick_id n) /\
      active_slot 10 sc n.
Proof.
  induction l as [|j l IH]; intros Hact r1 r2 Hr; simpl; [exact Hr|].
  apply IH.
  - intros k Hk. apply Hact. now right.
  - apply closer_agree; [apply Hact; now left | exact Hr].
Qed.

Lemma seq_active (sc : Scene T) (ty : ObjType) (j : nat) :
  In j (seq 0 (Nat.min (count_of sc ty) 10)) -> active_slot 10 sc (Slot (mkObj ty j)).
Proof. rewrite in_seq. cbn [active_slot type index]. lia. Qed.

Lemma get_dist_agree (sc : Scene T) (p : vec3 T) :
  exists (d : T) (n : Nearest),
    Dynamic.get_dist sc p = mk2 d (material_tag n) /\
    IdPick.get_dist sc p = mk2 d (pick_id n) /\ active_slot 10 sc n.
Proof.
  unfold Dynamic.get_dist, IdPick.get_dist, torus_pass, box_pass, sphere_pass.
  rewrite !for_loop_gated.
  apply (fold_agree sc (mkObj torus)
           (fun j => sd_torus (v3_sub p (t_center (torus_at sc j))) (t_radii (torus_at sc j))));
    [intros j; apply (seq_active sc torus)|].
  apply (fold_agree sc (mkObj box)
           (fun j => sd_box (v3_sub p (b_center (box_at sc j))) (b_size (box_at sc j))));
    [intros j; apply (seq_active sc box)|].
  apply (fold_agree sc (mkObj sphere)
           (fun j => sd_sphere (v3_sub p (s_center (sphere_at sc j)))
                               (s_radius (sphere_at sc j))));
    [intros j; apply (seq_active sc sphere)|].
  unfold closer, MAX_DIST. cbn [x2].
  destruct (sd_plane p (mk3 (lit 0) (lit 1) (lit 0)) (lit 0.5) .< lit 100).
  - exists (sd_plane p (mk3 (lit 0) (lit 1) (lit 0)) (lit 0.5)), Ground. (split; [reflexivity | split; [reflexivity | assumption || exact I]]).
  - exists (lit 100), Nothing. (split; [reflexivity | split; [reflexivity | assumption || exact I]]).
Qed.

Lemma march_agree (sc : Scene T) (gd1 gd2 : vec3 T -> vec2 T) (surf maxd : T)
      (ro rd : vec3 T) :
  (forall p, exists (d : T) (n : Nearest),
      gd1 p = mk2 d (material_tag n) /\ gd2 p = mk2 d (pick_id n) /\ active_slot 10 sc n) ->
  forall (steps : nat) (d0 : T) (n0 : Nearest),
    active_slot 10 sc n0 ->
    exists (d : T) (n : Nearest),
      march gd1 surf maxd steps ro rd d0 (material_tag n0) = mk2 d (material_tag n) /\
      march gd2 surf maxd steps ro rd d0 (pick_id n0) = mk2 d (pick_id n) /\
      active_slot 10 sc n.
Proof.
  intros Hgd. induction steps as [|steps IH]; intros d0 n0 Hn0.
  - exists d0, n0. (split; [reflexivity | split; [reflexivity | assumption || exact I]]).
  - cbn [march].
    destruct (Hgd (v3_add ro (v3_scale rd d0))) as (d & n & -> & -> & Hn). cbn [x2 y2].
    destruct ((d .< surf) || fgt (d0 .+ d) maxd).
    + exists (d0 .+ d), n. (split; [reflexivity | split; [reflexivity | assumption || exact I]]).
    + apply IH. exact Hn.
Qed.

Lemma ray_march_agree (sc : Scene T) (ro rd : vec3 T) :
  exists (d : T) (n : Nearest),
    march (Dynamic.get_dist sc) SURF_DIST MAX_DIST 128 ro rd (lit 0) (.~ lit 1)
    = mk2 d (material_tag n) /\
    IdPick.ray_march sc ro rd = mk2 d (pick_id n) /\ active_slot 10 sc n.
Proof.
  destruct (march_agree sc (Dynamic.get_dist sc) (IdPick.get_dist sc) SURF_DIST MAX_DIST
              ro rd (get_dist_agree sc) 128 (lit 0) Nothing I) as (d & n & H1 & H2 & Hn).
  exists d, n. split; [exact H1|]. split; [exact H2 | exact Hn].
Qed.

(** X16: The identifier pass looks at the scene the render pass shows: at every
    point the two [get_dist] return the same distance and name the same
    winner (nothing, the ground, or one active slot), the render shader by
    its material tag and the pick shader by its identifier; and the pick
    march is the render march stopped after 128 of its 256 steps, with the
    same distance and the same winner. *)
Theorem pick_pass_sees_the_rendered_field (sc : Scene T) (p ro rd : vec3 T) :
  (exists (d : T) (n : Nearest),
     Dynamic.get_dist sc p = mk2 d (material_tag n) /\
     IdPick.get_dist sc p = mk2 d (pick_id n) /\ active_slot 10 sc n) /\
  (exists (d : T) (n : Nearest),
     march (Dynamic.get_dist sc) SURF_DIST MAX_DIST 128 ro rd (lit 0) (.~ lit 1)
     = mk2 d (material_tag n) /\
     IdPick.ray_march sc ro rd = mk2 d (pick_id n) /\ active_slot 10 sc n).
Proof. split; [apply get_dist_agree | apply ray_march_agree]. Qed.
End PickAgainstRender.

Section PickNeverStale.
Import ObjectPicker FloatModel.
#[local] Existing Instance f32.
Context (tr : Transcendental spec_float).

(** X17: Whatever the camera, the scene buffer and the pixel, the byte the
    identifier pass stores (binary32 arithmetic, any implementation of the
    trigonometric builtins) decodes either to no object or to an object
    whose index is below the counter of its type and below 10: a click
    never selects an inactive slot. *)
Theorem pick_never_selects_inactive_slot (u : Uniforms spec_float) (sc : Scene spec_float)
    (fragCoord : vec2 spec_float) :
  match decodeID (unorm8 (x4 (IdPick.fs_main u sc fragCoord))) with
  | Some o => (index o < count_of sc (type o))%nat /\ (index o < 10)%nat
  | None => True
  end.
Proof.
  unfold IdPick.fs_main.
  destruct (ray_march_agree sc (camera_pos u) (ray_dir u (frag_uv u fragCoord)))
    as (d & n & _ & Hm & Hn).
  rewrite Hm. clear Hm.
  assert (Hbg : unorm8 (x4 (IdPick.id_color (mk2 d (lit 0)))) = 0%Z).
  { apply id_color_background. right. cbn [y2]. reflexivity. }
  destruct n as [| |o]; cbn [pick_id].
  - rewrite Hbg. exact I.
  - rewrite Hbg. exact I.
  - cbn [active_slot] in Hn. destruct Hn as [Hc Hi]. destruct (d .< lit 100) eqn:Hd.
    + rewrite (id_color_byte d o Hi Hd), (decode_encode o Hi). split; assumption.
    + rewrite (id_color_background (mk2 d (of_u32 (encodeID o))) (or_introl Hd)). exact I.
Qed.
End PickNeverStale.

(** ** The winner of [get_dist] is the nearest candidate *)

Section NearestCandidate.
Local Open Scope R_scope.

Lemma fold_combine_nearest (p : vec3 R) (l : list (Primitive R * R)) :
  forall res : vec2 R,
    let r := fold_left (combine_step p) l res in
    (r = res \/ In r (map (fun q => mk2 (primitive_dist p (fst q)) (snd q)) l)) /\
    x2 r <= x2 res /\
    (forall q, In q l -> x2 r <= primitive_dist p (fst q)).
Proof.
  induction l as [|q l IH]; intros res; cbv zeta; simpl.
  - split; [now left|]. split; [lra | intros q []].
  - destruct (IH (combine_step p res q)) as (Hin & Hle & Hall). cbv zeta in Hin, Hle, Hall.
    assert (Hstep : (combine_step p res q = res /\ x2 res <= primitive_dist p (fst q)) \/
                    (combine_step p res q = mk2 (primitive_dist p (fst q)) (snd q) /\
                     primitive_dist p (fst q) < x2 res)).
    { unfold combine_step, closer. cbn [flt R_scalar]. unfold Rltb.
      destruct (Rlt_dec (primitive_dist p (fst q)) (x2 res)); [right | left]; split;
        try reflexivity; lra. }
    split; [|split].
    + destruct Hin as [Hin|Hin]; [|now right; right].
      rewrite Hin. destruct Hstep as [[-> _]|[-> _]]; [now left | right; now left].
    + destruct Hstep as [[E Hc]|[E Hc]]; rewrite E in *; cbn [x2] in Hle; lra.
    + intros q' [<-|Hq']; [|now apply Hall].
      destruct Hstep as [[E Hc]|[E Hc]]; rewrite E in *; cbn [x2] in Hle; lra.
Qed.

Lemma plane_step (p : vec3 R) :
  let r := closer (sd_plane p up (lit 0.5)) MAT_PLANE (mk2 MAX_DIST (material_tag Nothing)) in
  (r = mk2 MAX_DIST (material_tag Nothing) \/ r = mk2 (sd_plane p up (lit 0.5)) MAT_PLANE) /\
  x2 r <= MAX_DIST /\ x2 r <= sd_plane p up (lit 0.5).
Proof.
  cbv zeta. unfold closer. cbn [x2 flt R_scalar]. unfold Rltb.
  destruct (Rlt_dec (sd_plane p up (lit 0.5)) MAX_DIST); cbn [x2];
    (split; [now (left + right)|]); lra.
Qed.

Lemma passes_nearest (cs cb ct : nat) (sc : Scene R) (p : vec3 R) :
  let cands :=
    mk2 MAX_DIST (material_tag Nothing) :: mk2 (sd_plane p up (lit 0.5)) (material_tag Ground)
    :: map (fun q => mk2 (primitive_dist p (fst q)) (snd q))
           (tagged_primitives cs cb ct sphere_tag box_tag torus_tag sc) in
  let r := torus_pass ct torus_tag sc p
             (box_pass cb box_tag sc p
                (sphere_pass cs sphere_tag sc p
                   (closer (sd_plane p up (lit 0.5)) MAT_PLANE
                           (mk2 MAX_DIST (material_tag Nothing))))) in
  In r cands /\ forall c, In c cands -> x2 r <= x2 c.
Proof.
  cbv zeta. rewrite passes_fold.
  destruct (fold_combine_nearest p (tagged_primitives cs cb ct sphere_tag box_tag torus_tag sc)
              (closer (sd_plane p up (lit 0.5)) MAT_PLANE (mk2 MAX_DIST (material_tag Nothing))))
    as (Hin & Hle & Hall).
  cbv zeta in Hin, Hle, Hall.
  destruct (plane_step p) as (Hp & Hp1 & Hp2). cbv zeta in Hp, Hp1, Hp2.
  split.
  - destruct Hin as [Hin|Hin]; [|now right; right].
    rewrite Hin. destruct Hp as [->| ->]; [now left | right; now left].
  - intros c [<-|[<-|Hc]]; cbn [x2]; try lra.
    apply in_map_iff in Hc. destruct Hc as (q & <- & Hq). cbn [x2]. now apply Hall.
Qed.

(** X18: [get_dist] returns one of its candidates, distance and tag together:
    the far limit with the no-hit tag, the ground plane with the plane tag,
    or an active primitive's distance with that primitive's tag; and no
    candidate is nearer than the one returned.  So the tag always names a
    surface that lies exactly at the returned distance. *)
Theorem get_dist_returns_nearest_candidate (sc : Scene R) (p : vec3 R) :
  let candidates := fun cs cb ct : nat =>
    mk2 MAX_DIST (material_tag Nothing) :: mk2 (sd_plane p up (lit 0.5)) (material_tag Ground)
    :: map (fun q => mk2 (primitive_dist p (fst q)) (snd q))
           (tagged_primitives cs cb ct sphere_tag box_tag torus_tag sc) in
  (In (Basic.get_dist sc p) (candidates 3 2 2)%nat /\
   forall c, In c (candidates 3 2 2)%nat -> x2 (Basic.get_dist sc p) <= x2 c) /\
  (In (Dynamic.get_dist sc p) (candidates 10 10 10)%nat /\
   forall c, In c (candidates 10 10 10)%nat -> x2 (Dynamic.get_dist sc p) <= x2 c).
Proof.
  cbv zeta. split.
  - exact (passes_nearest 3 2 2 sc p).
  - exact (passes_nearest 10 10 10 sc p).
Qed.
End NearestCandidate.

(** ** The second shader of [id_pick.wgsl] *)

Section LegacyIdentifiers.
Import ObjectPicker FloatModel.
#[local] Existing Instance f32.

(** X19: [get_id_color] of the 3/2/2-slot pick shader stores (binary32, through
    the [rgba8unorm] byte) the identifier [index + 1] for a sphere slot,
    [index + 10] for a box slot and [index + 20] for a torus slot, and 0
    for the plane and for a miss.  [decodeID] reads sphere identifiers back
    as the same slot, but it reads the identifier of box 0 as sphere 9, of
    box 1 as box 0, of torus 0 as box 9 and of torus 1 as torus 0. *)
Theorem legacy_get_id_color_numbering :
  (forall i : nat, (i < 3)%nat ->
     unorm8 (x4 (IdPickLegacy.get_id_color (sphere_tag i))) = Z.of_nat (i + 1) /\
     decodeID (unorm8 (x4 (IdPickLegacy.get_id_color (sphere_tag i)))) = Some (mkObj sphere i)) /\
  (forall i : nat, (i < 2)%nat ->
     unorm8 (x4 (IdPickLegacy.get_id_color (box_tag i))) = Z.of_nat (i + 10) /\
     unorm8 (x4 (IdPickLegacy.get_id_color (torus_tag i))) = Z.of_nat (i + 20)) /\
  unorm8 (x4 (IdPickLegacy.get_id_color MAT_PLANE)) = 0%Z /\
  unorm8 (x4 (IdPickLegacy.get_id_color (.~ lit 1))) = 0%Z /\
  decodeID (unorm8 (x4 (IdPickLegacy.get_id_color (box_tag 0)))) = Some (mkObj sphere 9) /\
  decodeID (unorm8 (x4 (IdPickLegacy.get_id_color (box_tag 1)))) = Some (mkObj box 0) /\
  decodeID (unorm8 (x4 (IdPickLegacy.get_id_color (torus_tag 0)))) = Some (mkObj box 9) /\
  decodeID (unorm8 (x4 (IdPickLegacy.get_id_color (torus_tag 1)))) = Some (mkObj torus 0).
Proof.
  split; [|split; [|repeat split; vm_compute; reflexivity]].
  - intros i Hi. do 3 (destruct i as [|i]; [split; vm_compute; reflexivity|]). lia.
  - intros i Hi. do 2 (destruct i as [|i]; [split; vm_compute; reflexivity|]). lia.
Qed.
End LegacyIdentifiers.

(** ** The camera of [fs_main] *)

Section Camera.
Local Open Scope R_scope.

Lemma length3_scaled (e : vec3 R) (d : R) :
  length3 e = 1 -> length3 (v3_scale e d) = Rabs d.
Proof.
  intros He. rewrite length3_R in *. unfold v3_scale. cbn [x3 y3 z3 fmul R_scalar].
  replace (x3 e * d * (x3 e * d) + y3 e * d * (y3 e * d) + z3 e * d * (z3 e * d))
    with (Rsqr d * (x3 e * x3 e + y3 e * y3 e + z3 e * z3 e)) by (unfold Rsqr; ring).
  rewrite sqrt_mult; [|apply Rle_0_sqr|apply sumsq_nonneg].
  rewrite sqrt_Rsqr_abs, He. ring.
Qed.

Lemma orbit_direction_unit (yaw pitch : R) :
  length3 (mk3 (sin yaw * cos pitch) (sin pitch) (cos yaw * cos pitch)) = 1.
Proof.
  rewrite length3_R. cbn [x3 y3 z3].
  pose proof (sin2_cos2 yaw) as Hy. pose proof (sin2_cos2 pitch) as Hp. unfold Rsqr in *.
  replace (sin yaw * cos pitch * (sin yaw * cos pitch) + sin pitch * sin pitch
           + cos yaw * cos pitch * (cos yaw * cos pitch))
    with ((sin yaw * sin yaw + cos yaw * cos yaw) * (cos pitch * cos pitch)
          + sin pitch * sin pitch) by ring.
  rewrite Hy. replace (1 * (cos pitch * cos pitch) + sin pitch * sin pitch) with 1 by lra.
  apply sqrt_1.
Qed.

Lemma camera_offset (u : Uniforms R) :
  v3_sub (camera_pos u) (camera_target u)
  = v3_scale (mk3 (sin (cameraYaw u) * cos (cameraPitch u)) (sin (cameraPitch u))
                  (cos (cameraYaw u) * cos (cameraPitch u))) (cameraDistance u).
Proof.
  unfold camera_pos, camera_target, v3_sub, v3_add, v3_scale.
  cbn [x3 y3 z3 fadd fsub fmul fsin fcos R_scalar R_transcendental]. f_equal; ring.
Qed.

(** X20: The camera position lies on the sphere of radius [|cameraDistance|]
    around the camera target, for every yaw and pitch. *)
Theorem camera_orbits_target (u : Uniforms R) :
  length3 (v3_sub (camera_pos u) (camera_target u)) = Rabs (cameraDistance u).
Proof.
  rewrite camera_offset. apply length3_scaled, orbit_direction_unit.
Qed.

(** Facts of vector algebra used for the camera basis. *)
Lemma cross_orthogonal (a b : vec3 R) : dot (cross a b) a = 0 /\ dot (cross a b) b = 0.
Proof.
  unfold dot, cross. cbn [x3 y3 z3 fadd fsub fmul R_scalar]. split; ring.
Qed.

Lemma dot_div (a b : vec3 R) (l : R) : dot (v3_div a l) b = dot a b / l.
Proof.
  unfold dot, v3_div. cbn [x3 y3 z3 fadd fmul fdiv R_scalar]. unfold Rdiv. ring.
Qed.

Lemma dot_self (v : vec3 R) : dot v v = length3 v * length3 v.
Proof.
  unfold length3. cbn [fsqrt R_scalar]. rewrite sqrt_sqrt; [reflexivity|].
  unfold dot. cbn [fadd fmul R_scalar]. apply sumsq_nonneg.
Qed.

Lemma lagrange (a b : vec3 R) :
  dot (cross a b) (cross a b) = dot a a * dot b b - dot a b * dot a b.
Proof. unfold dot, cross. cbn [x3 y3 z3 fadd fsub fmul R_scalar]. ring. Qed.

Lemma basis_combination (r f : vec3 R) (a b k : R) :
  let v := v3_add (v3_sub (v3_scale r a) (v3_scale (cross r f) b)) (v3_scale f k) in
  dot v v = a * a * dot r r + b * b * (dot r r * dot f f - dot r f * dot r f)
            + k * k * dot f f + 2 * a * k * dot r f /\
  dot v f = a * dot r f + k * dot f f.
Proof.
  cbv zeta. unfold dot, cross, v3_add, v3_sub, v3_scale.
  cbn [x3 y3 z3 fadd fsub fmul R_scalar]. split; ring.
Qed.

Lemma normalize_scaled (f : vec3 R) (k : R) :
  length3 f = 1 -> 0 < k -> normalize (v3_scale f k) = f.
Proof.
  intros Hf Hk. unfold normalize. rewrite (length3_scaled f k Hf), (Rabs_pos_eq k) by lra.
  unfold v3_div, v3_scale. destruct f as [a b c]. cbn [x3 y3 z3 fmul fdiv R_scalar].
  f_equal; field; lra.
Qed.

(** X21: With the camera away from its target and not looking straight up or
    down, every primary ray direction is a unit vector whose component
    along the view direction is [1.5 / sqrt (uv.x^2 + uv.y^2 + 1.5^2)]; the
    ray through the centre of the canvas is the view direction itself, and
    followed for [cameraDistance] it arrives at the camera target. *)
Theorem ray_dir_is_unit_and_centred (u : Uniforms R) (uv : vec2 R) :
  0 < cameraDistance u -> cos (cameraPitch u) <> 0 ->
  let forward := normalize (v3_sub (camera_target u) (camera_pos u)) in
  length3 (ray_dir u uv) = 1 /\
  dot (ray_dir u uv) forward
  = (3 / 2) / sqrt (x2 uv * x2 uv + y2 uv * y2 uv + 9 / 4) /\
  ray_dir u (mk2 0 0) = forward /\
  ray_at (camera_pos u) (ray_dir u (mk2 0 0)) (cameraDistance u) = camera_target u.
Proof.
  intros Hd Hcp. cbv zeta.
  set (e := mk3 (sin (cameraYaw u) * cos (cameraPitch u)) (sin (cameraPitch u))
                (cos (cameraYaw u) * cos (cameraPitch u))).
  assert (He : length3 e = 1) by apply orbit_direction_unit.
  assert (Hw : v3_sub (camera_target u) (camera_pos u) = v3_scale e (- cameraDistance u)).
  { unfold camera_pos, camera_target, v3_sub, v3_add, v3_scale, e.
    cbn [x3 y3 z3 fadd fsub fmul fsin fcos R_scalar R_transcendental]. f_equal; ring. }
  assert (Hwl : length3 (v3_sub (camera_target u) (camera_pos u)) = cameraDistance u).
  { rewrite Hw, (length3_scaled e _ He), Rabs_Ropp. apply Rabs_pos_eq. lra. }
  set (f := normalize (v3_sub (camera_target u) (camera_pos u))).
  assert (Hf : f = mk3 (- x3 e) (- y3 e) (- z3 e)).
  { unfold f, normalize. rewrite Hwl, Hw. unfold v3_div, v3_scale.
    cbn [x3 y3 z3 fmul fdiv R_scalar]. f_equal; field; lra. }
  assert (Hfl : length3 f = 1).
  { rewrite Hf, length3_R. cbn [x3 y3 z3]. rewrite length3_R in He.
    replace (- x3 e * - x3 e + - y3 e * - y3 e + - z3 e * - z3 e)
      with (x3 e * x3 e + y3 e * y3 e + z3 e * z3 e) by ring. exact He. }
  assert (Hff : dot f f = 1) by (rewrite dot_self, Hfl; ring).
  set (r0 := cross f (mk3 (lit 0) (lit 1) (lit 0))).
  assert (Hr0 : length3 r0 = Rabs (cos (cameraPitch u))).
  { unfold r0. rewrite Hf, length3_R. unfold cross, e. cbn [x3 y3 z3 fsub fmul R_scalar].
    real_lits.
    replace ((- sin (cameraPitch u) * (0 * / 1)
              - - (cos (cameraYaw u) * cos (cameraPitch u)) * (1 * / 1))
             * (- sin (cameraPitch u) * (0 * / 1)
                - - (cos (cameraYaw u) * cos (cameraPitch u)) * (1 * / 1))
             + (- (cos (cameraYaw u) * cos (cameraPitch u)) * (0 * / 1)
                - - (sin (cameraYaw u) * cos (cameraPitch u)) * (0 * / 1))
               * (- (cos (cameraYaw u) * cos (cameraPitch u)) * (0 * / 1)
                  - - (sin (cameraYaw u) * cos (cameraPitch u)) * (0 * / 1))
             + (- (sin (cameraYaw u) * cos (cameraPitch u)) * (1 * / 1)
                - - sin (cameraPitch u) * (0 * / 1))
               * (- (sin (cameraYaw u) * cos (cameraPitch u)) * (1 * / 1)
                  - - sin (cameraPitch u) * (0 * / 1)))
      with (Rsqr (cos (cameraPitch u))
            * (sin (cameraYaw u) * sin (cameraYaw u) + cos (cameraYaw u) * cos (cameraYaw u)))
      by (unfold Rsqr; field).
    pose proof (sin2_cos2 (cameraYaw u)) as Hy. unfold Rsqr in Hy. rewrite Hy, Rmult_1_r.
    apply sqrt_Rsqr_abs. }
  assert (Hr0pos : 0 < length3 r0) by (rewrite Hr0; now apply Rabs_pos_lt).
  set (r := normalize r0).
  assert (Hrl : length3 r = 1) by (apply normalize_unit; exact Hr0pos).
  assert (Hrr : dot r r = 1) by (rewrite dot_self, Hrl; ring).
  assert (Hrf : dot r f = 0).
  { unfold r, normalize. rewrite dot_div. unfold r0.
    rewrite (proj1 (cross_orthogonal f _)). unfold Rdiv. ring. }
  assert (Hv : forall a b : R,
            let v := v3_add (v3_sub (v3_scale r a) (v3_scale (cross r f) b))
                            (v3_scale f (lit 1.5)) in
            dot v v = a * a + b * b + 9 / 4 /\ dot v f = 3 / 2).
  { intros a b. destruct (basis_combination r f a b (lit 1.5)) as [H1 H2].
    cbv zeta in *. rewrite H1, H2, Hrr, Hff, Hrf. real_lits. split; field. }
  assert (Hray : forall w : vec2 R,
            ray_dir u w
            = normalize (v3_add (v3_sub (v3_scale r (x2 w)) (v3_scale (cross r f) (y2 w)))
                                (v3_scale f (lit 1.5)))) by reflexivity.
  assert (Hlen : forall a b : R,
            length3 (v3_add (v3_sub (v3_scale r a) (v3_scale (cross r f) b))
                            (v3_scale f (lit 1.5)))
            = sqrt (a * a + b * b + 9 / 4)).
  { intros a b. destruct (Hv a b) as [H1 _]. cbv zeta in H1.
    unfold length3 at 1. cbn [fsqrt R_scalar]. now rewrite H1. }
  assert (Hpos : forall a b : R, 0 < sqrt (a * a + b * b + 9 / 4)).
  { intros a b. apply sqrt_lt_R0. nra. }
  split; [|split; [|split]].
  - rewrite Hray. apply normalize_unit. rewrite Hlen. apply Hpos.
  - rewrite Hray. unfold normalize. rewrite dot_div, Hlen.
    destruct (Hv (x2 uv) (y2 uv)) as [_ H2]. cbv zeta in H2. now rewrite H2.
  - rewrite Hray. cbn [x2 y2].
    assert (Hz : v3_add (v3_sub (v3_scale r 0) (v3_scale (cross r f) 0)) (v3_scale f (lit 1.5))
                 = v3_scale f (lit 1.5)).
    { unfold v3_add, v3_sub, v3_scale. cbn [x3 y3 z3 fadd fsub fmul R_scalar]. f_equal; ring. }
    rewrite Hz. apply normalize_scaled; [exact Hfl | real_lits; lra].
  - assert (Hc : ray_dir u (mk2 0 0) = f).
    { rewrite Hray. cbn [x2 y2].
      assert (Hz : v3_add (v3_sub (v3_scale r 0) (v3_scale (cross r f) 0))
                          (v3_scale f (lit 1.5)) = v3_scale f (lit 1.5)).
      { unfold v3_add, v3_sub, v3_scale. cbn [x3 y3 z3 fadd fsub fmul R_scalar].
        f_equal; ring. }
      rewrite Hz. apply normalize_scaled; [exact Hfl | real_lits; lra]. }
    rewrite Hc, Hf. unfold ray_at, camera_pos, camera_target, v3_add, v3_scale, e.
    cbn [x3 y3 z3 fadd fmul fsin fcos R_scalar R_transcendental]. f_equal; ring.
Qed.

Lemma ray_dir_is_unit_and_centred_witness : length3 (ray_dir front_camera (mk2 0 0)) = 1.
Proof.
  apply (proj1 (ray_dir_is_unit_and_centred front_camera (mk2 0 0)
                  ltac:(cbn [cameraDistance front_camera]; lra)
                  ltac:(cbn [cameraPitch front_camera]; rewrite cos_0; lra))).
Defined.
End Camera.

(** ** Normals, colours and the screen mapping *)

Section ShadingFacts.
Local Open Scope R_scope.

Lemma bare_ground_dist (sc : Scene R) (p : vec3 R) :
  no_primitives sc -> y3 p + 1 / 2 < 100 ->
  x2 (Basic.get_dist sc p) = y3 p + 1 / 2 /\ x2 (Dynamic.get_dist sc p) = y3 p + 1 / 2.
Proof.
  intros Hno Hy.
  rewrite (basic_get_dist_no_primitives sc p Hno), (dynamic_get_dist_no_primitives sc p Hno).
  rewrite closer_dist, sd_plane_up. cbn [x2]. real_lits. rewrite Rmin_right by lra. now split.
Qed.

(** X22: On a scene without primitives the estimated normal is exactly the
    upward unit vector, at every point whose six samples see the ground
    nearer than the far limit. *)
Theorem get_normal_of_bare_ground_is_up (sc : Scene R) (p : vec3 R) :
  no_primitives sc -> y3 p + 1 / 2 + 1 / 1000 < 100 ->
  Basic.get_normal sc p = mk3 0 1 0 /\ Dynamic.get_normal sc p = mk3 0 1 0.
Proof.
  intros Hno Hy.
  assert (Hn : forall gd : vec3 R -> vec2 R,
            (forall q : vec3 R, y3 q + 1 / 2 < 100 -> x2 (gd q) = y3 q + 1 / 2) ->
            get_normal_of gd p = mk3 0 1 0).
  { intros gd Hgd. unfold get_normal_of. cbv zeta. cbn [x2 y2].
    unfold v3_add, v3_sub. cbn [x3 y3 z3 fadd fsub R_scalar]. real_lits.
    rewrite !Hgd by (cbn [y3]; lra). cbn [y3].
    replace (y3 p + 0 * / 1 + 1 / 2 - (y3 p - 0 * / 1 + 1 / 2)) with 0 by lra.
    replace (y3 p + 1 * / 1000 + 1 / 2 - (y3 p - 1 * / 1000 + 1 / 2)) with (2 / 1000) by lra.
    unfold normalize. destruct (length3_axis (2 / 1000) ltac:(lra)) as (Hl & _).
    rewrite Hl. unfold v3_div. cbn [x3 y3 z3 fdiv R_scalar]. f_equal; field. }
  split; apply Hn; intros q Hq.
  - apply (proj1 (bare_ground_dist sc q Hno Hq)).
  - apply (proj2 (bare_ground_dist sc q Hno Hq)).
Qed.

Lemma get_normal_of_bare_ground_is_up_witness :
  Basic.get_normal (empty_scene 3 2 2) (mk3 0 0 0) = mk3 0 1 0.
Proof.
  apply (proj1 (get_normal_of_bare_ground_is_up (empty_scene 3 2 2) (mk3 0 0 0)
                  ltac:(repeat split) ltac:(cbn [y3]; lra))).
Defined.

Lemma Rpow_unit_range (x : R) :
  0 <= x <= 1 -> x <= Rpow x (1 / (22 / 10)) <= 1.
Proof.
  intros [H0 H1]. unfold Rpow. destruct (Rlt_dec 0 x) as [Hpos|Hzero]; [|lra].
  unfold Rpower.
  assert (Hln : ln x <= 0).
  { destruct (Req_dec x 1) as [->|Hne]; [rewrite ln_1; lra|].
    left. rewrite <- ln_1. apply ln_increasing; lra. }
  assert (Hexp : forall a b : R, a <= b -> exp a <= exp b).
  { intros a b [Hab| ->]; [left; now apply exp_increasing | lra]. }
  assert (Hy : 0 < 1 / (22 / 10) < 1) by (split; lra).
  set (y := 1 / (22 / 10)) in *.
  split.
  - rewrite <- (exp_ln x Hpos) at 1. apply Hexp. nra.
  - rewrite <- exp_0. apply Hexp. nra.
Qed.

(** X23: Gamma correction keeps a channel in [0, 1] inside [0, 1] and never
    darkens it; the fogged Phong colour of a hit lies, channel by channel,
    between the sky colour and the Phong colour, and equals the Phong
    colour at distance 0; so with an albedo in [0, 1], a diffuse term and a
    shadow factor in [0, 1] and a hit distance that is not negative, every
    channel the lit branch of [fs_main] writes is in [0, 1]. *)
Theorem lit_pixel_stays_in_unit_range (albedo : vec3 R) (diffuse shadow t : R) :
  0 <= x3 albedo <= 1 -> 0 <= y3 albedo <= 1 -> 0 <= z3 albedo <= 1 ->
  0 <= diffuse <= 1 -> 0 <= shadow <= 1 -> 0 <= t ->
  let phong := v3_scale albedo (2 / 10 + diffuse * shadow * (8 / 10)) in
  let c := lit_color albedo diffuse shadow t in
  let out := gamma_correct c in
  (Rmin (x3 MAT_SKY_COLOR) (x3 phong) <= x3 c <= Rmax (x3 MAT_SKY_COLOR) (x3 phong) /\
   Rmin (y3 MAT_SKY_COLOR) (y3 phong) <= y3 c <= Rmax (y3 MAT_SKY_COLOR) (y3 phong) /\
   Rmin (z3 MAT_SKY_COLOR) (z3 phong) <= z3 c <= Rmax (z3 MAT_SKY_COLOR) (z3 phong)) /\
  lit_color albedo diffuse shadow 0 = phong /\
  (x3 c <= x3 out <= 1 /\ y3 c <= y3 out <= 1 /\ z3 c <= z3 out <= 1) /\
  (0 <= x3 c /\ 0 <= y3 c /\ 0 <= z3 c).
Proof.
  intros Hx Hy Hz Hdif Hsh Ht. cbv zeta.
  rewrite !lit_color_mix, gamma_correct_pow.
  set (w := 2 / 10 + diffuse * shadow * (8 / 10)).
  assert (Hw : 0 <= w <= 1) by (unfold w; nra).
  set (fog := exp (- t * (2 / 100))).
  assert (Hfog : 0 < fog <= 1).
  { unfold fog. split; [apply exp_pos|]. rewrite <- exp_0.
    destruct (Req_dec t 0) as [->|Hne].
    - replace (- 0 * (2 / 100)) with 0 by ring. lra.
    - left. apply exp_increasing. nra. }
  assert (Hmix : forall a b : R,
            Rmin a b <= mix a b fog <= Rmax a b).
  { intros a b. rewrite mix_toward. unfold Rmin, Rmax. destruct (Rle_dec a b); nra. }
  unfold v3_mix, v3_scale, MAT_SKY_COLOR. cbn [x3 y3 z3 fmul R_scalar]. real_lits.
  assert (Hfog0 : exp (- 0 * (2 / 100)) = 1).
  { replace (- 0 * (2 / 100)) with 0 by ring. apply exp_0. }
  assert (Hch : forall s a : R, 0 <= s <= 1 -> 0 <= a <= 1 ->
            0 <= mix s (a * w) fog <= 1).
  { intros s a Hs Ha. rewrite mix_toward.
    assert (Hb : 0 <= a * w <= 1) by nra. set (b := a * w) in *. nra. }
  split; [repeat split; apply Hmix|].
  split; [rewrite Hfog0, !mix_toward; f_equal; ring|].
  split.
  - repeat split; apply Rpow_unit_range || apply (proj2 (Rpow_unit_range _ _));
      apply Hch; lra.
  - repeat split; apply Hch; lra.
Qed.

Lemma lit_pixel_stays_in_unit_range_witness :
  lit_color white 1 1 0 = v3_scale white (2 / 10 + 1 * 1 * (8 / 10)).
Proof.
  apply (proj1 (proj2 (lit_pixel_stays_in_unit_range white 1 1 0
                         ltac:(cbn [x3 white]; lra) ltac:(cbn [y3 white]; lra)
                         ltac:(cbn [z3 white]; lra) ltac:(lra) ltac:(lra) ltac:(lra)))).
Defined.
End ShadingFacts.

(** ** The checkerboard of the ground *)

Section Checkerboard.
Local Open Scope R_scope.

Lemma Int_part_IZR (n : Z) : Int_part (IZR n) = n.
Proof. symmetry. apply Int_part_spec. lra. Qed.

Lemma Rtrunc_IZR (n : Z) : Rtrunc (IZR n) = n.
Proof.
  unfold Rtrunc. destruct (Rle_dec 0 (IZR n)); [apply Int_part_IZR|].
  rewrite <- opp_IZR, Int_part_IZR. lia.
Qed.

Lemma Int_part_succ (x : R) : Int_part (x + 1) = (Int_part x + 1)%Z.
Proof.
  symmetry. apply Int_part_spec. rewrite plus_IZR.
  destruct (base_Int_part x) as [H1 H2]. lra.
Qed.

Lemma plane_color_parity (p : vec3 R) :
  (- 2 ^ 31 <= Int_part (x3 p) + Int_part (z3 p) <= 2 ^ 31 - 1)%Z ->
  plane_color p
  = if Z.even (Int_part (x3 p) + Int_part (z3 p)) then splat3 (9 / 10) else splat3 (2 / 10).
Proof.
  intros Hrange. unfold plane_color, select, to_i32. cbn [ffloor ftrunc fadd R_scalar].
  unfold Rfloor. rewrite <- plus_IZR, Rtrunc_IZR.
  rewrite Z.max_r, Z.min_r by lia.
  set (n := (Int_part (x3 p) + Int_part (z3 p))%Z).
  assert (Hpar : (Z.rem n 2 =? 0)%Z = Z.even n).
  { rewrite Zeven_mod. destruct (Z.eqb_spec (n mod 2) 0) as [Hm|Hm].
    - apply Z.eqb_eq. apply Z.rem_mod_eq_0; [lia | exact Hm].
    - apply Z.eqb_neq. intros Hr. apply Hm. apply Z.rem_mod_eq_0; [lia | exact Hr]. }
  rewrite Hpar. unfold splat3. real_lits. destruct (Z.even n); f_equal; lra.
Qed.

(** X24: The plane tag is coloured by the checkerboard in both shading shaders:
    light grey 0.9 where [floor x + floor z] is even and dark grey 0.2 where
    it is odd (for sums inside the [i32] range), so the two cells that meet
    along a grid line in x or in z have different colours. *)
Theorem ground_is_a_checkerboard (sc : Scene R) (p : vec3 R) :
  (- 2 ^ 31 <= Int_part (x3 p) + Int_part (z3 p) < 2 ^ 31 - 1)%Z ->
  let cell := fun q : vec3 R =>
    if Z.even (Int_part (x3 q) + Int_part (z3 q)) then splat3 (9 / 10) else splat3 (2 / 10) in
  Basic.get_material_color sc MAT_PLANE p = cell p /\
  Dynamic.get_material_color sc MAT_PLANE p = cell p /\
  Basic.get_material_color sc MAT_PLANE (mk3 (x3 p + 1) (y3 p) (z3 p))
    <> Basic.get_material_color sc MAT_PLANE p /\
  Basic.get_material_color sc MAT_PLANE (mk3 (x3 p) (y3 p) (z3 p + 1))
    <> Basic.get_material_color sc MAT_PLANE p.
Proof.
  intros Hrange. cbv zeta.
  assert (Hb : forall q, Basic.get_material_color sc MAT_PLANE q = plane_color q).
  { intros q. unfold Basic.get_material_color, MAT_PLANE. cbn [feq R_scalar]. unfold Reqb.
    destruct (Req_dec_T (lit 0) (lit 0)); [reflexivity | contradiction]. }
  assert (Hd : forall q, Dynamic.get_material_color sc MAT_PLANE q = plane_color q).
  { intros q. unfold Dynamic.get_material_color, MAT_PLANE. cbn [feq flt R_scalar].
    unfold Reqb, Rltb. destruct (Rlt_dec (lit 0) (lit 0)) as [Hlt|_]; [lra|].
    destruct (Req_dec_T (lit 0) (lit 0)); [reflexivity | contradiction]. }
  rewrite !Hb, Hd, (plane_color_parity p) by lia.
  rewrite !plane_color_parity by (cbn [x3 z3]; rewrite ?Int_part_succ; lia).
  cbn [x3 y3 z3]. rewrite !Int_part_succ.
  set (n := (Int_part (x3 p) + Int_part (z3 p))%Z).
  replace (Int_part (x3 p) + 1 + Int_part (z3 p))%Z with (n + 1)%Z by (unfold n; lia).
  replace (Int_part (x3 p) + (Int_part (z3 p) + 1))%Z with (n + 1)%Z by (unfold n; lia).
  rewrite Z.even_add. cbn [Z.even]. unfold splat3.
  split; [reflexivity|]. split; [reflexivity|].
  destruct (Z.even n); cbn [Bool.eqb]; split; intros [= Heq]; lra.
Qed.

Lemma ground_is_a_checkerboard_witness :
  Basic.get_material_color (empty_scene 3 2 2) MAT_PLANE (mk3 0 0 0)
  = (if Z.even (Int_part 0 + Int_part 0) then splat3 (9 / 10) else splat3 (2 / 10)).
Proof.
  apply (proj1 (ground_is_a_checkerboard (empty_scene 3 2 2) (mk3 0 0 0)
                  ltac:(cbn [x3 z3]; rewrite (Int_part_IZR 0); lia))).
Defined.
End Checkerboard.

(** ** The SDF operations *)

Section Operations.
Local Open Scope R_scope.

(** X25: The three sharp operations act on solids as their names say: a point is
    inside or on the union when it is inside or on either operand, inside
    or on the intersection when it is inside or on both, and inside or on
    [op_subtract d1 d2] when it is inside or on the second operand and
    outside or on the first. *)
Theorem csg_operations_membership (d1 d2 : R) :
  (op_union d1 d2 <= 0 <-> d1 <= 0 \/ d2 <= 0) /\
  (op_intersect d1 d2 <= 0 <-> d1 <= 0 /\ d2 <= 0) /\
  (op_subtract d1 d2 <= 0 <-> 0 <= d1 /\ d2 <= 0) /\
  op_intersect d1 d2 = - op_union (- d1) (- d2) /\
  op_subtract d1 d2 = op_intersect (- d1) d2.
Proof.
  unfold op_union, op_intersect, op_subtract. cbn [fneg R_scalar].
  rewrite !fmin_Rmin, !fmax_Rmax. unfold Rmin, Rmax.
  repeat destruct (Rle_dec _ _); repeat split; intros; try lra;
    try (destruct H; lra); try tauto.
Qed.

(** X26: [op_smooth_union] with a positive strength [k] does not depend on the
    order of its operands, stays within [k / 4] below the sharp union and
    never above it, and reaches [k / 4] below when the operands are equal. *)
Theorem op_smooth_union_symmetric_within_quarter (d1 d2 k : R) :
  0 < k ->
  op_smooth_union d1 d2 k = op_smooth_union d2 d1 k /\
  Rmin d1 d2 - k / 4 <= op_smooth_union d1 d2 k <= Rmin d1 d2 /\
  op_smooth_union d1 d1 k = d1 - k / 4.
Proof.
  intros Hk.
  assert (Habs : forall a b : R, Rabs (a - b) < k -> - k < a - b < k).
  { intros a b Hab. unfold Rabs in Hab. destruct (Rcase_abs (a - b)); lra. }
  assert (Hquarter : forall a y : R, - k <= y <= k -> a - k / 4 <= a - y * y / (4 * k)).
  { intros a y Hy. apply Rplus_le_compat_l, Ropp_le_contravar.
    apply Rmult_le_reg_r with (4 * k); [lra|].
    replace (y * y / (4 * k) * (4 * k)) with (y * y) by (field; lra).
    replace (k / 4 * (4 * k)) with (k * k) by field. nra. }
  split; [|split].
  - destruct (op_smooth_union_cases d1 d2 k Hk) as [[H1 E1]|[[H1 E1]|(H1 & E1 & E1')]];
      destruct (op_smooth_union_cases d2 d1 k Hk) as [[H2 E2]|[[H2 E2]|(H2 & E2 & E2')]];
      try apply Habs in H1; try apply Habs in H2; lra.
  - pose proof (op_smooth_union_le_min d1 d2 k Hk) as Hle. split; [|exact Hle].
    destruct (op_smooth_union_cases d1 d2 k Hk) as [[H1 E1]|[[H1 E1]|(H1 & E1 & E1')]].
    + rewrite E1. pose proof (Rmin_r d1 d2). lra.
    + rewrite E1. pose proof (Rmin_l d1 d2). lra.
    + apply Habs in H1. unfold Rmin. destruct (Rle_dec d1 d2).
      * rewrite E1. apply Hquarter. lra.
      * rewrite E1'. apply Hquarter. lra.
  - destruct (op_smooth_union_cases d1 d1 k Hk) as [[H1 E1]|[[H1 E1]|(H1 & E1 & E1')]];
      try lra. rewrite E1. field. lra.
Qed.

Lemma op_smooth_union_symmetric_within_quarter_witness :
  op_smooth_union 1 1 (1 / 10) = 1 - 1 / 10 / 4.
Proof.
  apply (proj2 (proj2 (op_smooth_union_symmetric_within_quarter 1 1 (1 / 10) ltac:(lra)))).
Defined.
End Operations.

(** ** Pixel coordinates to the image plane *)

Section ScreenMapping.
Local Open Scope R_scope.

(** X27: [uv] is the pixel position measured from the centre of the canvas in
    units of the shorter side: the centre maps to the origin, both axes use
    the same scale, and inside the canvas the coordinate along the shorter
    side stays within [-1/2, 1/2]. *)
Theorem frag_uv_is_centred_and_isotropic (u : Uniforms R) (fragCoord : vec2 R) :
  0 < x2 (resolution u) -> 0 < y2 (resolution u) ->
  let W := x2 (resolution u) in
  let H := y2 (resolution u) in
  let uv := frag_uv u fragCoord in
  frag_uv u (mk2 (W / 2) (H / 2)) = mk2 0 0 /\
  x2 uv * Rmin W H = x2 fragCoord - W / 2 /\
  y2 uv * Rmin W H = y2 fragCoord - H / 2 /\
  (W <= H -> 0 <= x2 fragCoord <= W -> - (1 / 2) <= x2 uv <= 1 / 2) /\
  (H <= W -> 0 <= y2 fragCoord <= H -> - (1 / 2) <= y2 uv <= 1 / 2).
Proof.
  intros HW HH. cbv zeta. unfold frag_uv. cbn [x2 y2 fsub fmul fdiv R_scalar].
  rewrite fmin_Rmin. real_lits.
  set (W := x2 (resolution u)) in *. set (H := y2 (resolution u)) in *.
  assert (Hm : 0 < Rmin W H) by (unfold Rmin; destruct (Rle_dec W H); lra).
  split; [f_equal; field; lra|].
  split; [field; lra|]. split; [field; lra|].
  split.
  - intros Hle Hx. rewrite (Rmin_left W H Hle).
    split; [apply Rmult_le_reg_r with W | apply Rmult_le_reg_r with W]; try lra;
      field_simplify; lra.
  - intros Hle Hy. rewrite (Rmin_right W H Hle).
    split; [apply Rmult_le_reg_r with H | apply Rmult_le_reg_r with H]; try lra;
      field_simplify; lra.
Qed.

Lemma frag_uv_is_centred_and_isotropic_witness :
  frag_uv front_camera (mk2 (800 / 2) (600 / 2)) = mk2 0 0.
Proof.
  apply (proj1 (frag_uv_is_centred_and_isotropic front_camera centre_pixel
                  ltac:(cbn [x2 resolution front_camera]; lra)
                  ltac:(cbn [y2 resolution front_camera]; lra))).
Defined.
End ScreenMapping.

Section MarchWitness.
Local Open Scope R_scope.

Lemma ray_march_never_tunnels_witness :
  0 <= x2 (Basic.ray_march (empty_scene 3 2 2) (mk3 0 1 0) (mk3 0 1 0)).
Proof.
  refine (proj1 (proj1 (ray_march_never_tunnels (empty_scene 3 2 2) (mk3 0 1 0) (mk3 0 1 0) _)
                   _)).
  - exact (proj1 (length3_axis 1 ltac:(lra))).
  - rewrite (proj1 (bare_ground_dist (empty_scene 3 2 2) (mk3 0 1 0)
                      ltac:(repeat split) ltac:(cbn [y3]; lra))).
    cbn [y3]. lra.
Defined.
End MarchWitness.

(** ** Bounds of the march and of the colour lookup *)

Section MarchBound.
Local Open Scope R_scope.

Lemma march_upper (gd : vec3 R -> vec2 R) (surf maxd : R) (ro rd : vec3 R) :
  0 <= maxd -> (forall p, x2 (gd p) <= maxd) ->
  forall (n : nat) (d m : R),
    d <= maxd -> x2 (march gd surf maxd n ro rd d m) <= 2 * maxd.
Proof.
  intros Hmax Hgd. induction n as [|n IH]; intros d m Hd.
  - cbn [march x2]. lra.
  - rewrite march_S. pose proof (Hgd (v3_add ro (v3_scale rd d))) as Hstep.
    set (dist := x2 (gd (v3_add ro (v3_scale rd d)))) in *.
    unfold fgt. cbn [flt R_scalar]. unfold Rltb at 2.
    destruct (Rlt_dec maxd (d + dist)) as [Hfar|Hnear].
    + rewrite orb_true_r. cbn [x2]. lra.
    + rewrite orb_false_r. destruct (Rltb dist surf); [cbn [x2]; lra|].
      apply IH. lra.
Qed.

Lemma get_dist_at_most_far_limit (sc : Scene R) (p : vec3 R) :
  x2 (Basic.get_dist sc p) <= 100 /\ x2 (Dynamic.get_dist sc p) <= 100 /\
  x2 (IdPick.get_dist sc p) <= 100.
Proof.
  rewrite basic_get_dist_min, dynamic_get_dist_min, idpick_get_dist_min.
  assert (Hm : Rmin MAX_DIST (sd_plane p up (lit 0.5)) <= 100).
  { eapply Rle_trans; [apply Rmin_l|]. real_lits. lra. }
  repeat split;
    match goal with
    | |- fold_left Rmin ?l ?a <= _ => pose proof (proj1 (fold_Rmin_bounds l a)); lra
    end.
Qed.

(** X28: [get_dist] never returns a distance above the far limit of 100, and
    [ray_march] never returns one above 200: the loop is left as soon as
    the marched distance has passed 100, and the step that passes it is at
    most 100 long. *)
Theorem ray_march_distance_is_bounded (sc : Scene R) (ro rd : vec3 R) :
  (forall p : vec3 R,
     x2 (Basic.get_dist sc p) <= 100 /\ x2 (Dynamic.get_dist sc p) <= 100 /\
     x2 (IdPick.get_dist sc p) <= 100) /\
  x2 (Basic.ray_march sc ro rd) <= 200 /\
  x2 (Dynamic.ray_march sc ro rd) <= 200 /\
  x2 (IdPick.ray_march sc ro rd) <= 200.
Proof.
  split; [intros p; apply get_dist_at_most_far_limit|].
  assert (H100 : (lit 100 : R) = 100) by (real_lits; lra).
  assert (H0 : (lit 0 : R) = 0) by (real_lits; lra).
  unfold Basic.ray_march, Dynamic.ray_march, IdPick.ray_march, MAX_DIST.
  rewrite !H100, !H0.
  repeat split.
  - pose proof (march_upper (Basic.get_dist sc) SURF_DIST 100 ro rd ltac:(lra)
                  (fun p => proj1 (get_dist_at_most_far_limit sc p))
                  MAX_STEPS 0 (.~ lit 1)%sc ltac:(lra)). lra.
  - pose proof (march_upper (Dynamic.get_dist sc) SURF_DIST 100 ro rd ltac:(lra)
                  (fun p => proj1 (proj2 (get_dist_at_most_far_limit sc p)))
                  MAX_STEPS 0 (.~ lit 1)%sc ltac:(lra)). lra.
  - pose proof (march_upper (IdPick.get_dist sc) (lit 0.001) 100 ro rd ltac:(lra)
                  (fun p => proj2 (proj2 (get_dist_at_most_far_limit sc p)))
                  128%nat 0 0 ltac:(lra)). lra.
Qed.
End MarchBound.

Section ColourLookupBound.
Local Open Scope R_scope.

Lemma slot_index_below_count (x : R) (n : nat) :
  1 / 2 <= x < 21 / 2 ->
  (Rfloor x .< of_u32 n)%sc = true ->
  (Z.to_nat (to_u32 (Rfloor x)) < n)%nat.
Proof.
  intros Hx Hlt. unfold of_u32 in Hlt. cbn [flt lit R_scalar] in Hlt.
  apply Rltb_lt in Hlt. unfold Q2R in Hlt. cbn [Qnum Qden inject_Z] in Hlt.
  unfold Rfloor in *. replace (IZR (Z.of_nat n) * / 1) with (IZR (Z.of_nat n)) in Hlt by lra.
  apply lt_IZR in Hlt.
  destruct (base_Int_part x) as [Hb1 Hb2].
  assert (Hk0 : (0 <= Int_part x)%Z).
  { apply le_IZR. apply Rnot_lt_le. intros Hneg.
    assert (IZR (Int_part x) <= -1) by (apply IZR_le; apply lt_IZR in Hneg; lia). lra. }
  assert (Hk10 : (Int_part x < 11)%Z) by (apply lt_IZR; lra).
  unfold to_u32. cbn [ftrunc R_scalar]. rewrite Rtrunc_IZR. lia.
Qed.

(** X29: The colour lookup of the ten-slot shader reads only active slots:
    for every material tag, the result is the grey of a miss, the colour of
    the checkerboard, the magenta fallback, or the colour stored in a slot
    whose index is below the counter of its type. *)
Theorem dynamic_color_lookup_reads_active_slots (sc : Scene R) (mat_id : R) (p : vec3 R) :
  let c := Dynamic.get_material_color sc mat_id p in
  c = splat3 (lit 0.5) \/ c = plane_color p \/ c = mk3 (lit 1) (lit 0) (lit 1) \/
  (exists i : nat, (i < num_spheres sc)%nat /\ c = s_color (sphere_at sc i)) \/
  (exists i : nat, (i < num_boxes sc)%nat /\ c = b_color (box_at sc i)) \/
  (exists i : nat, (i < num_tori sc)%nat /\ c = t_color (torus_at sc i)).
Proof.
  cbv zeta. unfold Dynamic.get_material_color.
  destruct (mat_id .< lit 0)%sc; [now left|].
  destruct (mat_id .== MAT_PLANE)%sc; [right; now left|].
  assert (Hband : forall base : Q,
            (fge mat_id (lit base) && (mat_id .< lit base .+ lit 1))%sc = true ->
            forall b : R, (lit base : R) = b ->
            1 / 2 <= (mat_id - b) * 10 + 1 / 2 < 21 / 2).
  { intros base Hb b Eb. apply andb_true_iff in Hb. destruct Hb as [H1 H2].
    unfold fge in H1. cbn [fle flt fadd R_scalar] in H1, H2.
    apply Rleb_le in H1. apply Rltb_lt in H2. rewrite Eb in H1, H2.
    assert ((lit 1 : R) = 1) as E1 by (real_lits; lra). rewrite E1 in H2. lra. }
  assert (Harg : forall b : R,
            ((mat_id .- b) .* lit 10 .+ lit 0.5)%sc = (mat_id - b) * 10 + 1 / 2).
  { intros b. cbn [fadd fsub fmul R_scalar]. real_lits. lra. }
  unfold MAT_SPHERE, MAT_BOX, MAT_TORUS. cbn [ffloor R_scalar]. rewrite !Harg.
  destruct (fge mat_id (lit 1) && (mat_id .< lit 1 .+ lit 1))%sc eqn:Hs; cbn [andb].
  - destruct (Rfloor ((mat_id - lit 1) * 10 + 1 / 2) .< of_u32 (num_spheres sc))%sc eqn:Hc.
    + right; right; right; left. eexists. split; [|reflexivity].
      apply slot_index_below_count; [|exact Hc]. apply (Hband 1%Q Hs). reflexivity.
    + destruct (fge mat_id (lit 2) && (mat_id .< lit 2 .+ lit 1))%sc eqn:Hb; cbn [andb].
      * exfalso. apply andb_true_iff in Hs, Hb. destruct Hs as [_ Hs], Hb as [Hb _].
        unfold fge in Hb. cbn [fle flt fadd R_scalar] in Hs, Hb.
        apply Rltb_lt in Hs. apply Rleb_le in Hb. revert Hs Hb. real_lits. lra.
      * destruct (fge mat_id (lit 3) && (mat_id .< lit 3 .+ lit 1))%sc eqn:Ht; cbn [andb].
        -- exfalso. apply andb_true_iff in Hs, Ht. destruct Hs as [_ Hs], Ht as [Ht _].
           unfold fge in Ht. cbn [fle flt fadd R_scalar] in Hs, Ht.
           apply Rltb_lt in Hs. apply Rleb_le in Ht. revert Hs Ht. real_lits. lra.
        -- right; right; now left.
  - destruct (fge mat_id (lit 2) && (mat_id .< lit 2 .+ lit 1))%sc eqn:Hb; cbn [andb].
    + destruct (Rfloor ((mat_id - lit 2) * 10 + 1 / 2) .< of_u32 (num_boxes sc))%sc eqn:Hc.
      * right; right; right; right; left. eexists. split; [|reflexivity].
        apply slot_index_below_count; [|exact Hc]. apply (Hband 2%Q Hb). reflexivity.
      * destruct (fge mat_id (lit 3) && (mat_id .< lit 3 .+ lit 1))%sc eqn:Ht; cbn [andb].
        -- exfalso. apply andb_true_iff in Hb, Ht. destruct Hb as [_ Hb], Ht as [Ht _].
           unfold fge in Ht. cbn [fle flt fadd R_scalar] in Hb, Ht.
           apply Rltb_lt in Hb. apply Rleb_le in Ht. revert Hb Ht. real_lits. lra.
        -- right; right; now left.
    + destruct (fge mat_id (lit 3) && (mat_id .< lit 3 .+ lit 1))%sc eqn:Ht; cbn [andb].
      * destruct (Rfloor ((mat_id - lit 3) * 10 + 1 / 2) .< of_u32 (num_tori sc))%sc eqn:Hc.
        -- right; right; right; right; right. eexists. split; [|reflexivity].
           apply slot_index_below_count; [|exact Hc]. apply (Hband 3%Q Ht). reflexivity.
        -- right; right; now left.
      * right; right; now left.
Qed.
End ColourLookupBound.

(** ** The two render shaders on a small scene *)

Section RenderVariants.
Context {T : Type} `{Scalar T}.

Lemma march_same_field (gd1 gd2 : vec3 T -> vec2 T) (surf maxd : T) (ro rd : vec3 T) :
  (forall p, gd1 p = gd2 p) ->
  forall (steps : nat) (d m : T),
    march gd1 surf maxd steps ro rd d m = march gd2 surf maxd steps ro rd d m.
Proof.
  intros Hgd. induction steps as [|steps IH]; intros d m; cbn [march]; [reflexivity|].
  rewrite Hgd. destruct (_ || _); [reflexivity | apply IH].
Qed.

(** X30: On a scene whose counters do not exceed 3 spheres, 2 boxes and 2 tori,
    the 3/2/2-slot shader and the ten-slot shader compute the same
    [get_dist] (distance and material tag) at every point and the same
    [ray_march] along every ray; the larger arrays change nothing. *)
Theorem render_shaders_agree_on_small_scenes (sc : Scene T) (p ro rd : vec3 T) :
  (num_spheres sc <= 3)%nat -> (num_boxes sc <= 2)%nat -> (num_tori sc <= 2)%nat ->
  Basic.get_dist sc p = Dynamic.get_dist sc p /\
  Basic.ray_march sc ro rd = Dynamic.ray_march sc ro rd.
Proof.
  intros Hs Hb Ht.
  assert (Hgd : forall q, Basic.get_dist sc q = Dynamic.get_dist sc q).
  { intros q. unfold Basic.get_dist, Dynamic.get_dist, torus_pass, box_pass, sphere_pass.
    rewrite !for_loop_gated.
    rewrite (Nat.min_l (num_spheres sc) 3), (Nat.min_l (num_spheres sc) 10) by lia.
    rewrite (Nat.min_l (num_boxes sc) 2), (Nat.min_l (num_boxes sc) 10) by lia.
    rewrite (Nat.min_l (num_tori sc) 2), (Nat.min_l (num_tori sc) 10) by lia.
    reflexivity. }
  split; [apply Hgd|].
  unfold Basic.ray_march, Dynamic.ray_march. apply march_same_field. exact Hgd.
Qed.
End RenderVariants.

Section RenderVariantsWitness.
Local Open Scope R_scope.

Lemma render_shaders_agree_on_small_scenes_witness :
  Basic.get_dist unit_sphere_scene (mk3 0 5 0) = Dynamic.get_dist unit_sphere_scene (mk3 0 5 0).
Proof.
  apply (proj1 (render_shaders_agree_on_small_scenes unit_sphere_scene (mk3 0 5 0) (mk3 0 5 0)
                  (mk3 0 (-1) 0)
                  ltac:(cbn [num_spheres unit_sphere_scene]; lia)
                  ltac:(cbn [num_boxes unit_sphere_scene]; lia)
                  ltac:(cbn [num_tori unit_sphere_scene]; lia))).
Defined.
End RenderVariantsWitness.
